(** * UTG: snapshot-sequential training and evaluation scripts

    A shallow embedding of the two orchestration scripts of the
    repository, [dtdg_egcno_original.py] (EvolveGCN-O) and
    [dtdg_gclstm.py] (GC-LSTM), and the properties of their training,
    validation, test and early-stopping logic.

    The encoder, the decoder, the loss criterion, the random generator,
    the optimizer, the negative sampler and the evaluator are libraries
    the scripts import.  They are taken as parameters: every call
    threads an abstract [World] (model parameters, autograd tape,
    optimizer moments, generator state) and is recorded in a trace of
    events, so that the order and the arguments of the calls can be
    stated.  Real-valued quantities (losses, scores, metrics) are exact
    rationals; the one float-specific value the scripts can produce by
    themselves, the [nan] of an empty mean, is kept explicit. *)

From Stdlib Require Import List ZArith QArith Lia Bool Arith.
Import ListNotations.

(** ** Python values shared by the two scripts *)

(** The exceptions the scripts can raise on their own. *)
Inductive exn : Type :=
| NotImplementedError
| IndexError
| KeyError
| ValueError
| AttributeError.

(** A Python float as the scripts see it: a number, or [nan]. *)
Inductive pyfloat : Type :=
| NaN
| Fin (q : Q).

(** An accumulator that starts as the integer literal [0] and becomes a
    zero-dimensional tensor at the first [+=] of a criterion value
    ([total_loss] in the EvolveGCN-O script, [loss] in the GC-LSTM one). *)
Inductive pynum : Type :=
| PyInt0
| Tensor0 (v : Q).

(** [acc += x] for such an accumulator and a tensor [x]. *)
Definition add_tensor (acc : pynum) (x : Q) : pynum :=
  match acc with
  | PyInt0 => Tensor0 x
  | Tensor0 v => Tensor0 (v + x)
  end.

(** [float(acc)]. *)
Definition float_of (acc : pynum) : Q :=
  match acc with
  | PyInt0 => 0
  | Tensor0 v => v
  end.

(** A [(2, E)] edge-index tensor: [E] columns [(src, dst)]. *)
Definition edges : Type := list (nat * nat).

(** [edge_index[0]], [edge_index[1]] and [edge_index.size(1)]. *)
Definition row0 (e : edges) : list nat := map fst e.
Definition row1 (e : edges) : list nat := map snd e.
Definition size1 (e : edges) : nat := length e.

(** [torch.ones(rows, cols)]. *)
Definition ones (rows cols : nat) : list (list Q) := repeat (repeat 1%Q cols) rows.

(** [torch.ones_like] and [torch.zeros_like] of a score vector. *)
Definition ones_like (x : list Q) : list Q := repeat 1%Q (length x).
Definition zeros_like (x : list Q) : list Q := repeat 0%Q (length x).

Definition edge_feat_dim : nat := 1.

(** [a > b] on floats: false as soon as one side is [nan]. *)
Definition Qgtb (a b : Q) : bool := negb (Qle_bool a b).

Definition gt_float (a : pyfloat) (b : Q) : bool :=
  match a with
  | NaN => false
  | Fin x => Qgtb x b
  end.

Definition Qsum (l : list Q) : Q := fold_left Qplus l 0%Q.

(** [float(np.mean(perf_list))]: [nan] on an empty array. *)
Definition np_mean (l : list Q) : pyfloat :=
  match l with
  | [] => NaN
  | _ => Fin (Qsum l / inject_Z (Z.of_nat (length l)))
  end.

(** A tensor together with the one bit of autograd state the scripts act
    on: whether it still hangs on a computation graph.  Nothing in the
    scripts runs under [torch.no_grad], and the encoders have trainable
    parameters, so what [model(...)] returns is attached, in training
    as in evaluation mode; [.detach()] gives a tensor that is not. *)
Record tracked (T : Type) : Type := mkTracked {
  data : T;
  requires_grad : bool
}.

Arguments mkTracked {T} _ _.
Arguments data {T} _.
Arguments requires_grad {T} _.

Definition attached {T} (x : T) : tracked T := mkTracked x true.

Definition detach {T} (h : tracked T) : tracked T := mkTracked (data h) false.

Inductive split : Type := SplitVal | SplitTest.

(** ** The monad of the scripts: state, trace and exceptions *)

Record state (W E : Type) : Type := mkState { world : W; trace : list E }.

Arguments mkState {W E} _ _.
Arguments world {W E} _.
Arguments trace {W E} _.

Definition M (S A : Type) : Type := S -> S * (exn + A).

Definition ret {S A} (a : A) : M S A := fun s => (s, inr a).

Definition raise {S A} (e : exn) : M S A := fun s => (s, inl e).

Definition bind {S A B} (m : M S A) (k : A -> M S B) : M S B :=
  fun s =>
    match m s with
    | (s', inr a) => k a s'
    | (s', inl e) => (s', inl e)
    end.

Declare Scope script_scope.
Delimit Scope script_scope with script.
Notation "x <- m ;; k" := (bind m (fun x => k))
  (at level 61, m at next level, right associativity) : script_scope.
Notation "' pat <- m ;; k" := (bind m (fun x => match x with pat => k end))
  (at level 61, pat pattern, m at next level, right associativity) : script_scope.
Notation "m ;;; k" := (bind m (fun _ => k))
  (at level 61, right associativity) : script_scope.
Open Scope script_scope.

(** A call to a collaborator that reads and updates the world. *)
Definition call {W E A} (f : W -> W * A) : M (state W E) A :=
  fun s => let (w, a) := f (world s) in (mkState w (trace s), inr a).

(** A collaborator call with no result. *)
Definition exec {W E} (f : W -> W) : M (state W E) unit :=
  fun s => (mkState (f (world s)) (trace s), inr tt).

(** Record an event at the end of the trace. *)
Definition emit {W E} (e : E) : M (state W E) unit :=
  fun s => (mkState (world s) (trace s ++ [e]), inr tt).

(** [l[i]] on a list. *)
Definition getitem {S A} (l : list A) (i : nat) : M S A :=
  match nth_error l i with
  | Some x => ret x
  | None => raise IndexError
  end.

(** [d[k]] on a dict, kept as the list of its items in the order
    [d.keys()] goes through them. *)
Fixpoint lookup {A} (d : list (nat * A)) (k : nat) : option A :=
  match d with
  | [] => None
  | (k', v) :: r => if Nat.eqb k' k then Some v else lookup r k
  end.

Definition dict_get {S A} (d : list (nat * A)) (k : nat) : M S A :=
  match lookup d k with
  | Some x => ret x
  | None => raise KeyError
  end.

(** [min(d.keys())]: [ValueError] on an empty dict. *)
Definition min_key {S A} (d : list (nat * A)) : M S nat :=
  match map fst d with
  | [] => raise ValueError
  | k :: ks => ret (fold_left Nat.min ks k)
  end.

(** [for x in xs: body], the loop variables carried in [acc]. *)
Fixpoint for_each {S A B} (xs : list A) (body : A -> B -> M S B) (acc : B) : M S B :=
  match xs with
  | [] => ret acc
  | x :: r => acc' <- body x acc ;; for_each r body acc'
  end.

(** The same with [break]: the body also says whether it broke out, and
    the loop reports whether it was left by a [break]. *)
Fixpoint for_each_break {S A B} (xs : list A) (body : A -> B -> M S (B * bool)) (acc : B)
  : M S (B * bool) :=
  match xs with
  | [] => ret (acc, false)
  | x :: r =>
      '(acc', brk) <- body x acc ;;
      if brk then ret (acc', true) else for_each_break r body acc'
  end.

(** [m] only appends to the trace, and only events that satisfy [P]. *)
Definition emits {W E A} (P : E -> Prop) (m : M (state W E) A) : Prop :=
  forall s s' r, m s = (s', r) ->
    exists new, trace s' = trace s ++ new /\ Forall P new.

(** [m] returns a result, whatever the state it starts from. *)
Definition succeeds {S A} (m : M S A) : Prop :=
  forall s, exists s' a, m s = (s', inr a).

(** Every exception [m] raises satisfies [P]. *)
Definition raises_only {S A} (P : exn -> Prop) (m : M S A) : Prop :=
  forall s s' e, m s = (s', inl e) -> P e.

(** [m] leaves the part [obs] of the world as it found it, whatever its
    outcome. *)
Definition keeps {W E A X} (obs : W -> X) (m : M (state W E) A) : Prop :=
  forall s s' r, m s = (s', r) -> obs (world s') = obs (world s).

(** A validation report with its metric, or a test report. *)
Inductive report : Type :=
| RVal (v : pyfloat)
| RTest.

(** ** The EvolveGCN-O script, [dtdg_egcno_original.py] *)

Module Egcno.

(** The libraries the script drives.  [model_fwd] is
    [RecurrentGCN.forward] at the fixed [node_feat]; [link_pred_fwd w h a b]
    is [link_pred(h[a], h[b])], one score per index pair;
    [criterion] is [MSELoss]; [randint] is [torch.randint];
    [query_batch] is the negative sampler after [load_eval_set];
    [evaluator_eval] is the MRR of one positive score against the
    negative ones; [backward v] is [.backward()] on the loss tensor of
    value [v], [optimizer_step] and [zero_grad] are those of the
    optimizer, [set_training] is [.train()] and [.eval()] on the two
    modules. *)
Record collaborators : Type := {
  World : Type;
  Emb : Type;
  model_fwd : World -> edges -> list (list Q) -> World * Emb;
  link_pred_fwd : World -> Emb -> list nat -> list nat -> World * list Q;
  criterion : list Q -> list Q -> Q;
  randint : World -> nat -> nat -> nat -> World * list nat;
  zero_grad : World -> World;
  backward : Q -> World -> World;
  optimizer_step : World -> World;
  set_training : bool -> World -> World;
  query_batch : split -> nat -> nat -> nat -> list (list nat);
  evaluator_eval : Q -> list Q -> Q
}.

(** [data['train_data']]: the list of snapshots, [time_length],
    [num_nodes], and whether the dict has an ['edge_attr'] key. *)
Record train_split : Type := {
  edge_index : list edges;
  time_length : nat;
  num_nodes : nat;
  has_edge_attr : bool
}.

(** [data['val_data']] and [data['test_data']]: the dicts from snapshot
    index to edge tensor, and whether ['edge_attr'] is a key. *)
Record eval_split : Type := {
  ev_edge_index : list (nat * edges);
  original_edges : list (nat * edges);
  ev_has_edge_attr : bool
}.

Record args : Type := {
  max_epoch : nat;
  patience : Z
}.

(** [best_val], [best_test], [best_epoch] of one run. *)
Record run_record : Type := {
  best_val : Q;
  best_test : pyfloat;
  best_epoch : nat
}.

(** Which call site of [link_pred] an event comes from. *)
Inductive role : Type :=
| PosOut
| NegOut
| QueryOf (sp : split).

Section Script.

Variable C : collaborators.

Definition htensor : Type := tracked (Emb C).

Inductive event : Type :=
| EvZeroGrad
| EvModel (edge_index : edges) (edge_attr : list (list Q)) (out : Emb C)
| EvRandint (low high size : nat) (out : list nat)
| EvLinkPred (r : role) (h : htensor) (src dst : list nat)
| EvCriterion (pred target : list Q) (value : Q)
| EvBackward (total_loss : Q)
| EvOptStep
| EvPrintLoss (v : Q)
| EvLoadEvalSet (sp : split)
| EvPrintVal (v : pyfloat)
| EvPrintTest (v : pyfloat)
| EvRunFinishes (early : bool) (r : run_record).

Definition St : Type := state (World C) event.
Definition Script (A : Type) : Type := M St A.

(** The block that every state advancement repeats (lines 125-129,
    133-137, 212-216 and 282-286): the ['edge_attr'] guard, the unit
    weights, the encoder call. *)
Definition advance (edge_attr_in_data : bool) (index : edges) : Script htensor :=
  edge_attr <- (if negb edge_attr_in_data
                then ret (ones (size1 index) edge_feat_dim)
                else raise NotImplementedError) ;;
  out <- call (fun w => model_fwd C w index edge_attr) ;;
  emit (EvModel index edge_attr out) ;;;
  ret (attached out).

Definition link_pred (r : role) (h : htensor) (a b : list nat) : Script (list Q) :=
  emit (EvLinkPred r h a b) ;;;
  call (fun w => link_pred_fwd C w (data h) a b).

Definition crit (pred target : list Q) : Script Q :=
  let v := criterion C pred target in
  emit (EvCriterion pred target v) ;;;
  ret v.

(** One iteration of the training loop over snapshots (lines 120-153). *)
Definition train_snapshot (train_data : train_split) (n_nodes : nat)
    (snapshot_idx : nat) (vars : option htensor * pynum)
  : Script (option htensor * pynum) :=
  let snapshot_list := edge_index train_data in
  let total_loss := snd vars in
  h <- (if Nat.eqb snapshot_idx 0
        then cur_index <- getitem snapshot_list snapshot_idx ;;
             advance (has_edge_attr train_data) cur_index
        else prev_index <- getitem snapshot_list (snapshot_idx - 1) ;;
             advance (has_edge_attr train_data) prev_index) ;;
  pos_index <- getitem snapshot_list snapshot_idx ;;
  neg_dst <- call (fun w => randint C w 0 n_nodes (size1 pos_index)) ;;
  emit (EvRandint 0 n_nodes (size1 pos_index) neg_dst) ;;;
  pos_out <- link_pred PosOut h (row0 pos_index) (row1 pos_index) ;;
  neg_out <- link_pred NegOut h (row0 pos_index) neg_dst ;;
  l_pos <- crit pos_out (ones_like pos_out) ;;
  let total_loss := add_tensor total_loss l_pos in
  l_neg <- crit neg_out (zeros_like neg_out) ;;
  let total_loss := add_tensor total_loss l_neg in
  ret (Some h, total_loss).

(** The training part of one epoch (lines 113-159); returns the [h] left
    by the last snapshot. *)
Definition train_epoch (train_data : train_split) (n_nodes : nat) : Script (option htensor) :=
  exec (zero_grad C) ;;;
  emit EvZeroGrad ;;;
  exec (set_training C true) ;;;
  '(h, total_loss) <- for_each (seq 0 (time_length train_data))
                        (train_snapshot train_data n_nodes) (None, PyInt0) ;;
  match total_loss with
  | PyInt0 => raise AttributeError
  | Tensor0 v =>
      exec (backward C v) ;;;
      emit (EvBackward v) ;;;
      exec (optimizer_step C) ;;;
      emit EvOptStep ;;;
      emit (EvPrintLoss (v / inject_Z (Z.of_nat (time_length train_data)))) ;;;
      ret h
  end.

(** One negative batch of one positive edge (lines 191-206 and 262-277). *)
Definition score_batch (sp : split) (h : htensor) (pos_src pos_dst : nat)
    (neg_batch : list nat) (perf_list : list Q) : Script (list Q) :=
  let query_src := repeat pos_src (length neg_batch + 1) in
  let query_dst := [pos_dst] ++ neg_batch in
  y_pred <- link_pred (QueryOf sp) h query_src query_dst ;;
  match y_pred with
  | [] => raise IndexError
  | y_pos :: y_neg => ret (perf_list ++ [evaluator_eval C y_pos y_neg])
  end.

(** The positives of one evaluation snapshot (lines 184-206 and 255-277). *)
Definition score_snapshot (sp : split) (h : htensor) (snapshot_idx : nat)
    (pos_index : edges) (perf_list : list Q) : Script (list Q) :=
  for_each pos_index
    (fun e perf =>
       let pos_src := fst e in
       let pos_dst := snd e in
       let neg_batch_list := query_batch C sp pos_src pos_dst snapshot_idx in
       for_each neg_batch_list (score_batch sp h pos_src pos_dst) perf)
    perf_list.

(** One iteration of the validation loop (lines 180-216): score, then
    advance on the snapshot's own edges and detach. *)
Definition val_snapshot (val_data : eval_split) (snapshot_idx : nat)
    (vars : htensor * list Q) : Script (htensor * list Q) :=
  let '(h, perf_list) := vars in
  pos_index <- dict_get (original_edges val_data) snapshot_idx ;;
  perf_list <- score_snapshot SplitVal h snapshot_idx pos_index perf_list ;;
  prev_index <- dict_get (ev_edge_index val_data) snapshot_idx ;;
  h <- advance (ev_has_edge_attr val_data) prev_index ;;
  ret (detach h, perf_list).

(** One iteration of the test loop (lines 251-286): the same, but the
    advanced state is assigned as the encoder returns it. *)
Definition test_snapshot (test_data : eval_split) (snapshot_idx : nat)
    (vars : htensor * list Q) : Script (htensor * list Q) :=
  let '(h, perf_list) := vars in
  pos_index <- dict_get (original_edges test_data) snapshot_idx ;;
  perf_list <- score_snapshot SplitTest h snapshot_idx pos_index perf_list ;;
  prev_index <- dict_get (ev_edge_index test_data) snapshot_idx ;;
  h <- advance (ev_has_edge_attr test_data) prev_index ;;
  ret (h, perf_list).

(** [h = h.detach()] on the variable [h], which is [None] until a
    training snapshot has run. *)
Definition detach_var (h : option htensor) : Script htensor :=
  match h with
  | None => raise AttributeError
  | Some t => ret (detach t)
  end.

(** The validation part of one epoch (lines 163-225). *)
Definition val_epoch (val_data : eval_split) (h : option htensor)
  : Script (htensor * pyfloat) :=
  exec (set_training C false) ;;;
  emit (EvLoadEvalSet SplitVal) ;;;
  let val_snapshots := ev_edge_index val_data in
  _ <- min_key val_snapshots ;;
  h <- detach_var h ;;
  '(h, perf_list) <- for_each (map fst val_snapshots) (val_snapshot val_data) (h, []) ;;
  let val_metrics := np_mean perf_list in
  emit (EvPrintVal val_metrics) ;;;
  ret (h, val_metrics).

(** The test evaluation (lines 236-293). *)
Definition test_epoch (test_data : eval_split) (h : htensor) : Script pyfloat :=
  emit (EvLoadEvalSet SplitTest) ;;;
  emit (EvLoadEvalSet SplitTest) ;;;
  let test_snapshots := ev_edge_index test_data in
  _ <- min_key test_snapshots ;;
  let h := detach h in
  '(h, perf_list) <- for_each (map fst test_snapshots) (test_snapshot test_data) (h, []) ;;
  let test_metrics := np_mean perf_list in
  emit (EvPrintTest test_metrics) ;;;
  ret test_metrics.

(** The branch taken when validation improves (lines 234-308).  The
    boolean is [true] when the branch ends in [break]. *)
Definition improved (a : args) (test_data : eval_split) (epoch : nat)
    (h : htensor) (val_metrics : Q) (r : run_record) : Script (run_record * bool) :=
  let best_val := val_metrics in
  test_metrics <- test_epoch test_data h ;;
  let best_test := test_metrics in
  if (Z.geb (Z.of_nat epoch - Z.of_nat (best_epoch r)) (patience a) && Nat.ltb 1 epoch)%bool
  then
    let r' := {| best_val := best_val; best_test := best_test; best_epoch := epoch |} in
    emit (EvRunFinishes true r') ;;;
    ret (r', true)
  else
    ret ({| best_val := best_val; best_test := best_test; best_epoch := epoch |}, false).

(** What follows validation in an epoch (lines 233-308). *)
Definition after_validation (a : args) (test_data : eval_split) (epoch : nat)
    (h : htensor) (val_metrics : pyfloat) (r : run_record) : Script (run_record * bool) :=
  match val_metrics with
  | Fin v =>
      if Qgtb v (best_val r)
      then improved a test_data epoch h v r
      else ret (r, false)
  | NaN => ret (r, false)
  end.

(** The body of the loop over epochs (lines 110-308). *)
Definition epoch_body (a : args) (train_data : train_split) (val_data test_data : eval_split)
    (epoch : nat) (r : run_record) : Script (run_record * bool) :=
  let n_nodes := (num_nodes train_data + 1)%nat in
  h <- train_epoch train_data n_nodes ;;
  '(h, val_metrics) <- val_epoch val_data h ;;
  after_validation a test_data epoch h val_metrics r.

Definition initial_record : run_record :=
  {| best_val := 0; best_test := Fin 0; best_epoch := 0 |}.

(** The loop over epochs of one run (lines 106-308). *)
Definition epochs_loop (a : args) (train_data : train_split) (val_data test_data : eval_split)
    (epochs : list nat) (r : run_record) : Script (run_record * bool) :=
  for_each_break epochs (epoch_body a train_data val_data test_data) r.

(** One run (lines 106-315); the boolean says whether the loop over
    epochs was left by its [break]. *)
Definition run (a : args) (train_data : train_split) (val_data test_data : eval_split)
  : Script (run_record * bool) :=
  '(r, early) <- epochs_loop a train_data val_data test_data
                   (seq 0 (max_epoch a)) initial_record ;;
  emit (EvRunFinishes false r) ;;;
  ret (r, early).

(** *** Reading the trace of the EvolveGCN-O script *)

(** What one iteration of the training loop leaves in the trace: the
    edges fed to the encoder and the embedding it returned, the
    positive edges scored, the negative destinations drawn, and the two
    score vectors. *)
Record iteration : Type := {
  it_feed : edges;
  it_emb : Emb C;
  it_pos : edges;
  it_neg_dst : list nat;
  it_pos_out : list Q;
  it_neg_out : list Q
}.

Definition it_pos_loss (it : iteration) : Q :=
  criterion C (it_pos_out it) (ones_like (it_pos_out it)).

Definition it_neg_loss (it : iteration) : Q :=
  criterion C (it_neg_out it) (zeros_like (it_neg_out it)).

Definition it_loss (it : iteration) : Q := (it_pos_loss it + it_neg_loss it)%Q.

Definition iteration_events (n_nodes : nat) (it : iteration) : list event :=
  [ EvModel (it_feed it) (ones (size1 (it_feed it)) edge_feat_dim) (it_emb it);
    EvRandint 0 n_nodes (size1 (it_pos it)) (it_neg_dst it);
    EvLinkPred PosOut (attached (it_emb it)) (row0 (it_pos it)) (row1 (it_pos it));
    EvLinkPred NegOut (attached (it_emb it)) (row0 (it_pos it)) (it_neg_dst it);
    EvCriterion (it_pos_out it) (ones_like (it_pos_out it)) (it_pos_loss it);
    EvCriterion (it_neg_out it) (zeros_like (it_neg_out it)) (it_neg_loss it) ].

(** The feed shift, as a relation between an iteration index and what
    the iteration did: the encoder was fed snapshot [t - 1] (snapshot
    [0] at [t = 0]) and snapshot [t] was scored. *)
Definition shifted (td : train_split) (t : nat) (it : iteration) : Prop :=
  nth_error (edge_index td) (t - 1) = Some (it_feed it) /\
  nth_error (edge_index td) t = Some (it_pos it).

Definition is_opt_step (e : event) : bool :=
  match e with EvOptStep => true | _ => false end.

Definition count_opt_steps (tr : list event) : nat := length (filter is_opt_step tr).

(** The validation metrics printed, in order. *)
Definition vals (tr : list event) : list pyfloat :=
  flat_map (fun e => match e with EvPrintVal v => [v] | _ => [] end) tr.

Definition is_test_report (e : event) : bool :=
  match e with EvPrintTest _ => true | _ => false end.

(** The number of test evaluations carried out. *)
Definition count_test (tr : list event) : nat := length (filter is_test_report tr).

(** The events the run-level properties look at: the two metric reports
    and the early "run finishes" block. *)
Definition is_report (e : event) : bool :=
  match e with
  | EvPrintVal _ | EvPrintTest _ | EvRunFinishes _ _ => true
  | _ => false
  end.

(** Events that are neither a metric report nor a "run finishes" block. *)
Definition quiet (e : event) : Prop := is_report e = false.

(** The validation and test reports of a trace, in order. *)
Definition reports (tr : list event) : list report :=
  flat_map (fun e => match e with
                     | EvPrintVal v => [RVal v]
                     | EvPrintTest _ => [RTest]
                     | _ => []
                     end) tr.

(** The encoder calls: the edges fed and the embedding returned. *)
Definition model_calls (tr : list event) : list (edges * Emb C) :=
  flat_map (fun e => match e with
                     | EvModel index _ out => [(index, out)]
                     | _ => []
                     end) tr.

(** The embeddings scored on positives in training, each with the edges
    scored, and the index pairs scored as negatives. *)
Definition pos_scored (tr : list event) : list (htensor * edges) :=
  flat_map (fun e => match e with
                     | EvLinkPred PosOut h a b => [(h, combine a b)]
                     | _ => []
                     end) tr.

Definition neg_scored (tr : list event) : list (list nat * list nat) :=
  flat_map (fun e => match e with
                     | EvLinkPred NegOut _ a b => [(a, b)]
                     | _ => []
                     end) tr.

(** The calls of [link_pred] made while evaluating a split, with the
    gradient bit of the embedding they were given. *)
Definition eval_uses (tr : list event) : list (split * bool) :=
  flat_map (fun e => match e with
                     | EvLinkPred (QueryOf sp) h _ _ => [(sp, requires_grad h)]
                     | _ => []
                     end) tr.

(** The test metrics printed, in order. *)
Definition tests (tr : list event) : list pyfloat :=
  flat_map (fun e => match e with EvPrintTest v => [v] | _ => [] end) tr.

(** The "run finishes" blocks printed: [true] for the one before
    [break], [false] for the one after the loop. *)
Definition finishes (tr : list event) : list bool :=
  flat_map (fun e => match e with EvRunFinishes early _ => [early] | _ => [] end) tr.

(** The evaluation queries: the split, the embedding given to the
    decoder, and the two index lists. *)
Definition queries (tr : list event) : list (split * htensor * list nat * list nat) :=
  flat_map (fun e => match e with
                     | EvLinkPred (QueryOf sp) h a b => [(sp, h, a, b)]
                     | _ => []
                     end) tr.

Definition is_backward (e : event) : bool :=
  match e with EvBackward _ => true | _ => false end.

(** Events that change the parameters or compute their gradients. *)
Definition updates (e : event) : bool := is_backward e || is_opt_step e.

(** The library calls of one iteration of the training loop, from the
    world [w] to the world [w']: the embedding, the negative
    destinations and the two score vectors that [it] holds are what the
    encoder, [torch.randint] and the decoder returned, in this order. *)
Definition iteration_calls (n_nodes : nat) (w : World C) (it : iteration)
    (w' : World C) : Prop :=
  exists w1 w2 w3,
    model_fwd C w (it_feed it) (ones (size1 (it_feed it)) edge_feat_dim)
    = (w1, it_emb it) /\
    randint C w1 0 n_nodes (size1 (it_pos it)) = (w2, it_neg_dst it) /\
    link_pred_fwd C w2 (it_emb it) (row0 (it_pos it)) (row1 (it_pos it))
    = (w3, it_pos_out it) /\
    link_pred_fwd C w3 (it_emb it) (row0 (it_pos it)) (it_neg_dst it)
    = (w', it_neg_out it).

(** The calls of a sequence of iterations, one after the other. *)
Fixpoint iterations_calls (n_nodes : nat) (w : World C) (its : list iteration)
    (w' : World C) : Prop :=
  match its with
  | [] => w' = w
  | it :: rest =>
      exists w1, iteration_calls n_nodes w it w1 /\ iterations_calls n_nodes w1 rest w'
  end.

(** [obs] is a part of the world that the forward calls of the encoder
    and of the decoder and the switch between training and evaluation
    mode leave as it is (the parameters, the state of the optimizer). *)
Record forward_keeps {X : Type} (obs : World C -> X) : Prop := {
  keeps_model : forall w i a, obs (fst (model_fwd C w i a)) = obs w;
  keeps_link_pred : forall w e a b, obs (fst (link_pred_fwd C w e a b)) = obs w;
  keeps_set_training : forall b w, obs (set_training C b w) = obs w
}.

(** [counts] reads off the world how many optimizer steps (first
    component) and how many backward passes (second component) it has
    seen: a step and a backward pass raise their count by one, and
    nothing else the script calls touches either. *)
Record counts_updates (counts : World C -> nat * nat) : Prop := {
  counts_forward : forward_keeps counts;
  counts_randint : forall w l h k, counts (fst (randint C w l h k)) = counts w;
  counts_zero_grad : forall w, counts (zero_grad C w) = counts w;
  counts_backward : forall v w,
    counts (backward C v w) = (fst (counts w), S (snd (counts w)));
  counts_step : forall w,
    counts (optimizer_step C w) = (S (fst (counts w)), snd (counts w))
}.

(** The queries one evaluation snapshot is to make with the embedding
    [h]: for every positive edge and every batch of negatives the
    sampler gives for it, the source repeated against the positive
    destination followed by the negatives. *)
Definition expected_queries (sp : split) (h : htensor) (snapshot_idx : nat)
    (pos_index : edges) : list (split * htensor * list nat * list nat) :=
  flat_map (fun e =>
              map (fun neg_batch =>
                     (sp, h, repeat (fst e) (length neg_batch + 1), snd e :: neg_batch))
                  (query_batch C sp (fst e) (snd e) snapshot_idx))
           pos_index.

(** The queries of a validation pass over the snapshots [keys] that
    starts with the embedding [h], when the encoder returns [outs]:
    each snapshot is queried with the detached embedding of the
    snapshot before it. *)
Fixpoint expected_val_queries (val_data : eval_split) (h : htensor)
    (keys : list nat) (outs : list (Emb C))
  : list (split * htensor * list nat * list nat) :=
  match keys, outs with
  | k :: ks, o :: os =>
      expected_queries SplitVal h k
        (match lookup (original_edges val_data) k with Some e => e | None => [] end)
      ++ expected_val_queries val_data (detach (attached o)) ks os
  | _, _ => []
  end.

End Script.

Arguments tests {C} _.
Arguments finishes {C} _.
Arguments queries {C} _.
Arguments is_backward {C} _.
Arguments updates {C} _.
Arguments vals {C} _.
Arguments reports {C} _.
Arguments count_test {C} _.
Arguments count_opt_steps {C} _.
Arguments eval_uses {C} _.
Arguments is_report {C} _.
Arguments pos_scored {C} _.
Arguments neg_scored {C} _.
Arguments model_calls {C} _.

End Egcno.

(** ** The GC-LSTM script, [dtdg_gclstm.py] *)

Module Gclstm.

(** The libraries the script drives.  [model_fwd] is
    [RecurrentGCN.forward] at the fixed [node_feat], with the hidden and
    cell state of the previous call ([None] at first);
    [negative_sampling] is the function of that name of
    torch_geometric; [criterion] is [BCEWithLogitsLoss]; [backward v]
    is [.backward()] on the loss tensor of value [v]. *)
Record collaborators : Type := {
  World : Type;
  Hid : Type;
  Cell : Type;
  model_fwd : World -> edges -> list (list Q) -> option Hid -> option Cell
              -> World * (Hid * Cell);
  link_pred_fwd : World -> Hid -> list nat -> list nat -> World * list Q;
  criterion : list Q -> list Q -> Q;
  negative_sampling : World -> edges -> nat -> nat -> World * edges;
  zero_grad : World -> World;
  backward : Q -> World -> World;
  optimizer_step : World -> World;
  set_training : bool -> World -> World;
  query_batch : split -> nat -> nat -> nat -> list (list nat);
  evaluator_eval : Q -> list Q -> Q
}.

Record train_split : Type := {
  edge_index : list edges;
  time_length : nat;
  num_nodes : nat;
  has_edge_attr : bool
}.

(** [val_data]: here the script reads [original_edges] row by row
    ([pos_index.shape[0]], [pos_index[i][0]], [pos_index[i][1]]), so the
    tensor is kept as its list of rows. *)
Record eval_split : Type := {
  ev_edge_index : list (nat * edges);
  original_edges : list (nat * list (list nat));
  ev_has_edge_attr : bool
}.

Inductive role : Type :=
| PosOut
| NegOut
| QueryOf (sp : split).

Definition num_epochs : nat := 200.

Section Script.

Variable C : collaborators.

Definition htensor : Type := tracked (Hid C).
Definition ctensor : Type := tracked (Cell C).

Inductive event : Type :=
| EvModel (edge_index : edges) (edge_attr : list (list Q))
          (h : option htensor) (c : option ctensor) (out : Hid C * Cell C)
| EvNegativeSampling (pos_index : edges) (num_nodes num_neg_samples : nat) (out : edges)
| EvLinkPred (r : role) (h : htensor) (src dst : list nat)
| EvCriterion (pred target : list Q) (value : Q)
| EvBackward (loss : Q)
| EvOptStep
| EvZeroGrad
| EvPrintLoss (v : Q)
| EvLoadEvalSet (sp : split)
| EvPrintVal (epoch : nat) (v : pyfloat).

Definition St : Type := state (World C) event.
Definition Script (A : Type) : Type := M St A.

(** The block of every state advancement (lines 77-81, 86-90 and
    133-138): the ['edge_attr'] guard, the unit weights, the encoder
    call on the carried [h] and [c]. *)
Definition advance (edge_attr_in_data : bool) (index : edges)
    (h : option htensor) (c : option ctensor) : Script (htensor * ctensor) :=
  edge_attr <- (if negb edge_attr_in_data
                then ret (ones (size1 index) edge_feat_dim)
                else raise NotImplementedError) ;;
  out <- call (fun w => model_fwd C w index edge_attr
                          (option_map (@data _) h) (option_map (@data _) c)) ;;
  emit (EvModel index edge_attr h c out) ;;;
  ret (attached (fst out), attached (snd out)).

Definition link_pred (r : role) (h : htensor) (a b : list nat) : Script (list Q) :=
  emit (EvLinkPred r h a b) ;;;
  call (fun w => link_pred_fwd C w (data h) a b).

Definition crit (pred target : list Q) : Script Q :=
  let v := criterion C pred target in
  emit (EvCriterion pred target v) ;;;
  ret v.

(** The variables the training loop carries: [h], [c], [loss] and
    [total_loss]. *)
Record train_vars : Type := {
  tv_h : option htensor;
  tv_c : option ctensor;
  tv_loss : pynum;
  tv_total_loss : Q
}.

(** One iteration of the training loop over snapshots (lines 70-97). *)
Definition train_snapshot (train_data : train_split) (n_nodes : nat)
    (snapshot_idx : nat) (vars : train_vars) : Script train_vars :=
  let snapshot_list := edge_index train_data in
  pos_index <- getitem snapshot_list snapshot_idx ;;
  neg_edges <- call (fun w => negative_sampling C w pos_index n_nodes (size1 pos_index * 1)) ;;
  emit (EvNegativeSampling pos_index n_nodes (size1 pos_index * 1) neg_edges) ;;;
  '(edge_index, (h, c)) <-
     (if Nat.eqb snapshot_idx 0
      then let edge_index := pos_index in
           hc <- advance (has_edge_attr train_data) edge_index (tv_h vars) (tv_c vars) ;;
           ret (edge_index, hc)
      else prev_index <- getitem snapshot_list (snapshot_idx - 1) ;;
           let edge_index := prev_index in
           hc <- advance (has_edge_attr train_data) edge_index (tv_h vars) (tv_c vars) ;;
           ret (edge_index, hc)) ;;
  pos_out <- link_pred PosOut h (row0 edge_index) (row1 edge_index) ;;
  neg_out <- link_pred NegOut h (row0 neg_edges) (row1 neg_edges) ;;
  let total_loss :=
    (tv_total_loss vars + float_of (tv_loss vars) * inject_Z (Z.of_nat (size1 edge_index)))%Q in
  l_pos <- crit pos_out (ones_like pos_out) ;;
  let loss := add_tensor (tv_loss vars) l_pos in
  l_neg <- crit neg_out (zeros_like neg_out) ;;
  let loss := add_tensor loss l_neg in
  ret {| tv_h := Some h; tv_c := Some c; tv_loss := loss; tv_total_loss := total_loss |}.

Definition initial_vars : train_vars :=
  {| tv_h := None; tv_c := None; tv_loss := PyInt0; tv_total_loss := 0 |}.

(** The loop over the training snapshots (lines 64-97). *)
Definition train_loop (train_data : train_split) (n_nodes : nat) : Script train_vars :=
  for_each (seq 0 (time_length train_data)) (train_snapshot train_data n_nodes) initial_vars.

(** The training part of one epoch (lines 64-103); returns [h], [c] and
    the [total_loss] of the report. *)
Definition train_epoch (train_data : train_split) (n_nodes : nat)
  : Script (option htensor * option ctensor * Q) :=
  exec (set_training C true) ;;;
  vars <- train_loop train_data n_nodes ;;
  match tv_loss vars with
  | PyInt0 => raise AttributeError
  | Tensor0 v =>
      exec (backward C v) ;;;
      emit (EvBackward v) ;;;
      exec (optimizer_step C) ;;;
      emit EvOptStep ;;;
      exec (zero_grad C) ;;;
      emit EvZeroGrad ;;;
      emit (EvPrintLoss (tv_total_loss vars / inject_Z (Z.of_nat n_nodes))) ;;;
      ret (tv_h vars, tv_c vars, tv_total_loss vars)
  end.

(** One negative batch of one positive row (lines 147-160). *)
Definition score_batch (h : htensor) (pos_src pos_dst : nat)
    (neg_batch : list nat) (perf_list : list Q) : Script (list Q) :=
  let query_src := repeat pos_src (length neg_batch + 1) in
  let query_dst := [pos_dst] ++ neg_batch in
  y_pred <- link_pred (QueryOf SplitVal) h query_src query_dst ;;
  match y_pred with
  | [] => raise IndexError
  | y_pos :: y_neg => ret (perf_list ++ [evaluator_eval C y_pos y_neg])
  end.

(** The rows of one validation snapshot (lines 140-160). *)
Definition score_snapshot (h : htensor) (snapshot_idx : nat)
    (pos_index : list (list nat)) (perf_list : list Q) : Script (list Q) :=
  for_each pos_index
    (fun row perf =>
       pos_src <- getitem row 0 ;;
       pos_dst <- getitem row 1 ;;
       let neg_batch_list := query_batch C SplitVal pos_src pos_dst snapshot_idx in
       for_each neg_batch_list (score_batch h pos_src pos_dst) perf)
    perf_list.

(** One iteration of the validation loop (lines 125-160): past the first
    snapshot, advance on the previous snapshot's edges, then score. *)
Definition val_snapshot (val_data : eval_split) (ts_min : nat) (snapshot_idx : nat)
    (vars : htensor * ctensor * list Q) : Script (htensor * ctensor * list Q) :=
  let '(h, c, perf_list) := vars in
  pos_index <- dict_get (original_edges val_data) snapshot_idx ;;
  '(h, c) <- (if Nat.ltb ts_min snapshot_idx
              then prev_index <- dict_get (ev_edge_index val_data) (snapshot_idx - 1) ;;
                   advance (ev_has_edge_attr val_data) prev_index (Some h) (Some c)
              else ret (h, c)) ;;
  perf_list <- score_snapshot h snapshot_idx pos_index perf_list ;;
  ret (h, c, perf_list).

Definition detach_var {T} (x : option (tracked T)) : Script (tracked T) :=
  match x with
  | None => raise AttributeError
  | Some t => ret (detach t)
  end.

(** The evaluation part of one epoch (lines 107-166). *)
Definition val_epoch (val_data : eval_split) (epoch : nat)
    (h : option htensor) (c : option ctensor) : Script pyfloat :=
  exec (set_training C false) ;;;
  emit (EvLoadEvalSet SplitVal) ;;;
  let val_snapshots := ev_edge_index val_data in
  ts_min <- min_key val_snapshots ;;
  h <- detach_var h ;;
  c <- detach_var c ;;
  '(_, _, perf_list) <- for_each (map fst val_snapshots) (val_snapshot val_data ts_min)
                          (h, c, []) ;;
  let perf_metrics := np_mean perf_list in
  emit (EvPrintVal epoch perf_metrics) ;;;
  ret perf_metrics.

(** The body of the loop over epochs (lines 63-166). *)
Definition epoch_body (train_data : train_split) (val_data : eval_split)
    (epoch : nat) (_ : unit) : Script unit :=
  let n_nodes := (num_nodes train_data + 1)%nat in
  '(h, c, _) <- train_epoch train_data n_nodes ;;
  _ <- val_epoch val_data epoch h c ;;
  ret tt.

(** The script (lines 63-166). *)
Definition main (train_data : train_split) (val_data : eval_split) : Script unit :=
  for_each (seq 0 num_epochs) (epoch_body train_data val_data) tt.

(** *** Reading the trace of the GC-LSTM script *)

(** What one iteration of the training loop leaves in the trace. *)
Record iteration : Type := {
  it_pos : edges;
  it_neg_edges : edges;
  it_feed : edges;
  it_h_in : option htensor;
  it_c_in : option ctensor;
  it_out : Hid C * Cell C;
  it_pos_out : list Q;
  it_neg_out : list Q
}.

Definition it_pos_loss (it : iteration) : Q :=
  criterion C (it_pos_out it) (ones_like (it_pos_out it)).

Definition it_neg_loss (it : iteration) : Q :=
  criterion C (it_neg_out it) (zeros_like (it_neg_out it)).

Definition it_loss (it : iteration) : Q := (it_pos_loss it + it_neg_loss it)%Q.

Definition iteration_events (n_nodes : nat) (it : iteration) : list event :=
  [ EvNegativeSampling (it_pos it) n_nodes (size1 (it_pos it) * 1) (it_neg_edges it);
    EvModel (it_feed it) (ones (size1 (it_feed it)) edge_feat_dim)
            (it_h_in it) (it_c_in it) (it_out it);
    EvLinkPred PosOut (attached (fst (it_out it))) (row0 (it_feed it)) (row1 (it_feed it));
    EvLinkPred NegOut (attached (fst (it_out it)))
               (row0 (it_neg_edges it)) (row1 (it_neg_edges it));
    EvCriterion (it_pos_out it) (ones_like (it_pos_out it)) (it_pos_loss it);
    EvCriterion (it_neg_out it) (zeros_like (it_neg_out it)) (it_neg_loss it) ].

(** What the iteration at index [t] read: snapshot [t] for the negative
    sampling, snapshot [t - 1] (snapshot [0] at [t = 0]) for the
    encoder. *)
Definition shifted (td : train_split) (t : nat) (it : iteration) : Prop :=
  nth_error (edge_index td) (t - 1) = Some (it_feed it) /\
  nth_error (edge_index td) t = Some (it_pos it).

Definition is_opt_step (e : event) : bool :=
  match e with EvOptStep => true | _ => false end.

Definition count_opt_steps (tr : list event) : nat := length (filter is_opt_step tr).

Definition vals (tr : list event) : list pyfloat :=
  flat_map (fun e => match e with EvPrintVal _ v => [v] | _ => [] end) tr.

(** A test evaluation would show as a load of the test negatives or as a
    query in test mode. *)
Definition is_test_event (e : event) : bool :=
  match e with
  | EvLoadEvalSet SplitTest => true
  | EvLinkPred (QueryOf SplitTest) _ _ _ => true
  | _ => false
  end.

Definition count_test (tr : list event) : nat := length (filter is_test_event tr).

(** The encoder calls: the edges fed and the hidden state returned. *)
Definition model_calls (tr : list event) : list (edges * Hid C) :=
  flat_map (fun e => match e with
                     | EvModel index _ _ _ out => [(index, fst out)]
                     | _ => []
                     end) tr.

(** The embeddings scored as positives in training, each with the edges
    whose endpoints were scored. *)
Definition pos_scored (tr : list event) : list (htensor * edges) :=
  flat_map (fun e => match e with
                     | EvLinkPred PosOut h a b => [(h, combine a b)]
                     | _ => []
                     end) tr.

(** The scoring calls made during evaluation, with the gradient bit of
    the hidden state they were given. *)
Definition eval_uses (tr : list event) : list bool :=
  flat_map (fun e => match e with
                     | EvLinkPred (QueryOf _) h _ _ => [requires_grad h]
                     | _ => []
                     end) tr.

(** "sum over snapshots t of (loss accumulated through snapshot t-1)
    times snapshot t's feed-edge count", over the iterations of one
    epoch. *)
Definition loss_through (its : list iteration) (t : nat) : Q :=
  Qsum (map it_loss (firstn t its)).

Definition shifted_total (its : list iteration) : Q :=
  Qsum (map (fun ti => (loss_through its (fst ti)
                        * inject_Z (Z.of_nat (size1 (it_feed (snd ti)))))%Q)
            (combine (seq 0 (length its)) its)).

(** The same sum when [base] is already in [loss] as the loop starts. *)
Definition total_from (base : Q) (its : list iteration) : Q :=
  Qsum (map (fun ti => ((base + loss_through its (fst ti))
                        * inject_Z (Z.of_nat (size1 (it_feed (snd ti)))))%Q)
            (combine (seq 0 (length its)) its)).

Definition is_backward (e : event) : bool :=
  match e with EvBackward _ => true | _ => false end.

(** Events that change the parameters or compute their gradients. *)
Definition updates (e : event) : bool := is_backward e || is_opt_step e.

(** The library calls of one iteration of the training loop, from the
    world [w] to the world [w']: the negative edges, the hidden and
    cell state and the two score vectors that [it] holds are what
    [negative_sampling], the encoder and the decoder returned, in this
    order. *)
Definition iteration_calls (n_nodes : nat) (w : World C) (it : iteration)
    (w' : World C) : Prop :=
  exists w1 w2 w3,
    negative_sampling C w (it_pos it) n_nodes (size1 (it_pos it) * 1)
    = (w1, it_neg_edges it) /\
    model_fwd C w1 (it_feed it) (ones (size1 (it_feed it)) edge_feat_dim)
      (option_map (@data _) (it_h_in it)) (option_map (@data _) (it_c_in it))
    = (w2, it_out it) /\
    link_pred_fwd C w2 (fst (it_out it)) (row0 (it_feed it)) (row1 (it_feed it))
    = (w3, it_pos_out it) /\
    link_pred_fwd C w3 (fst (it_out it)) (row0 (it_neg_edges it)) (row1 (it_neg_edges it))
    = (w', it_neg_out it).

(** The calls of a sequence of iterations, one after the other, the
    first on the state [h], [c] and each later one on the state the
    encoder returned in the iteration before it. *)
Fixpoint iterations_calls (n_nodes : nat) (w : World C)
    (h : option htensor) (c : option ctensor) (its : list iteration)
    (w' : World C) : Prop :=
  match its with
  | [] => w' = w
  | it :: rest =>
      it_h_in it = h /\ it_c_in it = c /\
      exists w1,
        iteration_calls n_nodes w it w1 /\
        iterations_calls n_nodes w1
          (Some (attached (fst (it_out it)))) (Some (attached (snd (it_out it))))
          rest w'
  end.

(** [obs] is a part of the world that the forward calls of the encoder
    and of the decoder and the switch between training and evaluation
    mode leave as it is (the parameters, the state of the optimizer). *)
Record forward_keeps {X : Type} (obs : World C -> X) : Prop := {
  keeps_model : forall w i a h c, obs (fst (model_fwd C w i a h c)) = obs w;
  keeps_link_pred : forall w e a b, obs (fst (link_pred_fwd C w e a b)) = obs w;
  keeps_set_training : forall b w, obs (set_training C b w) = obs w
}.

(** [counts] reads off the world how many optimizer steps (first
    component) and how many backward passes (second component) it has
    seen: a step and a backward pass raise their count by one, and
    nothing else the script calls touches either. *)
Record counts_updates (counts : World C -> nat * nat) : Prop := {
  counts_forward : forward_keeps counts;
  counts_negative_sampling : forall w p n k,
    counts (fst (negative_sampling C w p n k)) = counts w;
  counts_zero_grad : forall w, counts (zero_grad C w) = counts w;
  counts_backward : forall v w,
    counts (backward C v w) = (fst (counts w), S (snd (counts w)));
  counts_step : forall w,
    counts (optimizer_step C w) = (S (fst (counts w)), snd (counts w))
}.

(** The encoder calls with the state they were given: the edges fed,
    the hidden and cell state passed in, and what came back. *)
Definition model_io (tr : list event)
  : list (edges * option htensor * option ctensor * (Hid C * Cell C)) :=
  flat_map (fun e => match e with
                     | EvModel index _ h c out => [(index, h, c, out)]
                     | _ => []
                     end) tr.

(** The recurrent state is threaded through a sequence of encoder
    calls that starts from [h] and [c]: every call is given what the
    call before it returned. *)
Fixpoint threaded (h : option htensor) (c : option ctensor)
    (calls : list (edges * option htensor * option ctensor * (Hid C * Cell C))) : Prop :=
  match calls with
  | [] => True
  | (_, h_in, c_in, out) :: rest =>
      h_in = h /\ c_in = c /\
      threaded (Some (attached (fst out))) (Some (attached (snd out))) rest
  end.

(** The state a sequence of encoder calls ends with. *)
Definition final_state (h : option htensor) (c : option ctensor)
    (calls : list (edges * option htensor * option ctensor * (Hid C * Cell C)))
  : option htensor * option ctensor :=
  last (map (fun io => (Some (attached (fst (snd io))), Some (attached (snd (snd io)))))
            calls)
       (h, c).

End Script.

Arguments is_backward {C} _.
Arguments updates {C} _.
Arguments model_io {C} _.
Arguments vals {C} _.
Arguments count_test {C} _.
Arguments count_opt_steps {C} _.
Arguments eval_uses {C} _.
Arguments pos_scored {C} _.
Arguments model_calls {C} _.

End Gclstm.

(** ** The decoder class of the EvolveGCN-O file *)

Module LinkPredictor.

Section Decoder.

(** The state the tensor library works on (its random generator), the
    parameters of a linear layer, and tensors. *)
Variables (S Wt T : Type).

(** [torch.nn.Linear(in_features, out_features)]: its two sizes and its
    freshly drawn parameters. *)
Record Linear : Type := {
  in_features : nat;
  out_features : nat;
  weights : Wt
}.

Record module : Type := {
  lins : list Linear;
  dropout : Q;
  training : bool
}.

(** What the class takes from the library: the initialisation of a
    layer's parameters, [x_i * x_j], the application of a layer,
    [F.relu], [F.dropout] and [torch.sigmoid]. *)
Variable init_parameters : nat -> nat -> M S Wt.
Variable mul : T -> T -> M S T.
Variable linear : Linear -> T -> M S T.
Variable relu : T -> M S T.
Variable F_dropout : T -> Q -> bool -> M S T.
Variable sigmoid : T -> M S T.

Definition new_Linear (i o : nat) : M S Linear :=
  w <- init_parameters i o ;;
  ret {| in_features := i; out_features := o; weights := w |}.

(** [__init__] (lines 27-37); a new module is in training mode. *)
Definition init (in_channels hidden_channels out_channels : nat) (num_layers : Z)
    (p : Q) : M S module :=
  let ls := [] in
  l <- new_Linear in_channels hidden_channels ;;
  let ls := ls ++ [l] in
  ls <- for_each (seq 0 (Z.to_nat (num_layers - 2)))
          (fun _ ls => l <- new_Linear hidden_channels hidden_channels ;;
                       ret (ls ++ [l]))
          ls ;;
  l <- new_Linear hidden_channels out_channels ;;
  let ls := ls ++ [l] in
  ret {| lins := ls; dropout := p; training := true |}.

(** [forward] (lines 43-50). *)
Definition forward (self : module) (x_i x_j : T) : M S T :=
  x <- mul x_i x_j ;;
  x <- for_each (removelast (lins self))
         (fun lin x =>
            x <- linear lin x ;;
            x <- relu x ;;
            F_dropout x (dropout self) (training self))
         x ;;
  lin <- getitem (lins self) (length (lins self) - 1) ;;
  x <- linear lin x ;;
  sigmoid x.

(** The width a stack of layers turns an input of width [w] into, when
    every layer is given the width it expects. *)
Fixpoint out_width (w : nat) (ls : list Linear) : option nat :=
  match ls with
  | [] => Some w
  | l :: r => if Nat.eqb (in_features l) w then out_width (out_features l) r else None
  end.

(** The library's part, for tensors whose last dimension is [width]:
    tensors of one shape multiply to that shape, a layer takes inputs of
    width [in_features] to width [out_features], and the pointwise
    functions keep the width, dropout for a probability in [0, 1]. *)
Record shape_contract (width : T -> nat) : Prop := {
  mul_width : forall x y s, width x = width y ->
    exists s' z, mul x y s = (s', inr z) /\ width z = width x;
  linear_width : forall l x s, width x = in_features l ->
    exists s' z, linear l x s = (s', inr z) /\ width z = out_features l;
  relu_width : forall x s,
    exists s' z, relu x s = (s', inr z) /\ width z = width x;
  dropout_width : forall x p t s, (0 <= p <= 1)%Q ->
    exists s' z, F_dropout x p t s = (s', inr z) /\ width z = width x;
  sigmoid_width : forall x s,
    exists s' z, sigmoid x s = (s', inr z) /\ width z = width x
}.

End Decoder.

Arguments in_features {Wt} _.
Arguments out_features {Wt} _.
Arguments weights {Wt} _.
Arguments lins {Wt} _.
Arguments dropout {Wt} _.
Arguments training {Wt} _.
Arguments new_Linear {S Wt} _ _ _.
Arguments init {S Wt} _ _ _ _ _ _.
Arguments forward {S Wt T} _ _ _ _ _ _ _ _.
Arguments out_width {Wt} _ _.

End LinkPredictor.

(** ** The best-tracking rules, read off a sequence of validation metrics *)

Definition value_of (v : pyfloat) : Q :=
  match v with
  | NaN => 0
  | Fin q => q
  end.

(** The reports a run is expected to print for its validation metrics:
    each metric, followed by a test report when it strictly exceeds the
    best one so far, the best starting at [best]. *)
Fixpoint expected_reports (best : Q) (vs : list pyfloat) : list report :=
  match vs with
  | [] => []
  | v :: r =>
      if gt_float v best
      then RVal v :: RTest :: expected_reports (value_of v) r
      else RVal v :: expected_reports best r
  end.

(** The number of strict-improvement epochs. *)
Fixpoint improvements (best : Q) (vs : list pyfloat) : nat :=
  match vs with
  | [] => 0
  | v :: r =>
      if gt_float v best
      then S (improvements (value_of v) r)
      else improvements best r
  end.

(** Best metric so far, epoch of the last strict improvement (0 when
    there was none) and number of epochs seen. *)
Definition track_step (st : Q * nat * nat) (v : pyfloat) : Q * nat * nat :=
  let '(best, last, e) := st in
  if gt_float v best then (value_of v, e, S e) else (best, last, S e).

Definition track (vs : list pyfloat) : Q * nat * nat :=
  fold_left track_step vs (0%Q, 0%nat, 0%nat).

Definition best_before (vs : list pyfloat) (e : nat) : Q :=
  fst (fst (track (firstn e vs))).

Definition last_improvement (vs : list pyfloat) (e : nat) : nat :=
  snd (fst (track (firstn e vs))).

(** Epoch [e] is a strict-improvement epoch of the sequence [vs]. *)
Definition improved_at (vs : list pyfloat) (e : nat) : bool :=
  match nth_error vs e with
  | Some v => gt_float v (best_before vs e)
  | None => false
  end.

(** ** A small dataset and concrete collaborators

    Four nodes, three training snapshots of two edges each, and two
    validation and two test snapshots.  The encoder returns the edges
    it was fed, so that an embedding shows where it comes from; the
    world counts the optimizer steps; the decoder's score depends on
    that count and on the destination; the evaluator is the reciprocal
    rank; the random integers come from a tape. *)

Module Demo.

Definition snap0 : edges := [(0, 1); (2, 3)]%nat.
Definition snap1 : edges := [(1, 2); (3, 0)]%nat.
Definition snap2 : edges := [(0, 2); (1, 3)]%nat.

(** The score of destination [d] after [w] optimizer steps. *)
Definition score (w d : nat) : Q :=
  match d with
  | 1%nat => if Nat.leb 4 w then 9 # 10 else 1 # 2
  | 2%nat => 7 # 10
  | _ => if Nat.eqb w 1 then 1 # 10 else 6 # 10
  end.

(** Mean squared error. *)
Definition mse (pred target : list Q) : Q :=
  (Qsum (map (fun xy => (fst xy - snd xy) * (fst xy - snd xy)) (combine pred target))
   / inject_Z (Z.of_nat (length pred)))%Q.

(** Reciprocal rank of the positive score among the negative ones. *)
Definition reciprocal_rank (y_pos : Q) (y_neg : list Q) : Q :=
  (1 / inject_Z (Z.of_nat (S (length (filter (fun y => Qgtb y y_pos) y_neg)))))%Q.

(** Two historical negatives for every positive edge. *)
Definition negatives (sp : split) (src dst t : nat) : list (list nat) := [[2; 3]%nat].

(** A generator that reads its raw draws off a tape and reduces them to
    the range asked for. *)
Definition tape_randint (tape : list nat) (low high size : nat) : list nat :=
  map (fun i => (low + Nat.modulo (nth i tape 0%nat) (high - low))%nat) (seq 0 size).

Definition egcno_of (tape : list nat) : Egcno.collaborators :=
  {| Egcno.World := nat;
     Egcno.Emb := edges;
     Egcno.model_fwd := fun w index _ => (w, index);
     Egcno.link_pred_fwd := fun w _ _ b => (w, map (score w) b);
     Egcno.criterion := mse;
     Egcno.randint := fun w low high size => (w, tape_randint tape low high size);
     Egcno.zero_grad := fun w => w;
     Egcno.backward := fun _ w => w;
     Egcno.optimizer_step := S;
     Egcno.set_training := fun _ w => w;
     Egcno.query_batch := negatives;
     Egcno.evaluator_eval := reciprocal_rank |}.

Definition egcno : Egcno.collaborators := egcno_of [4; 4]%nat.

Definition egcno_train : Egcno.train_split :=
  {| Egcno.edge_index := [snap0; snap1; snap2];
     Egcno.time_length := 3;
     Egcno.num_nodes := 4;
     Egcno.has_edge_attr := false |}.

Definition egcno_val : Egcno.eval_split :=
  {| Egcno.ev_edge_index := [(3, snap0); (4, snap1)]%nat;
     Egcno.original_edges := [(3, [(0, 1)]); (4, [(2, 1)])]%nat;
     Egcno.ev_has_edge_attr := false |}.

(** The validation split again, now with an ['edge_attr'] key. *)
Definition egcno_val_attr : Egcno.eval_split :=
  {| Egcno.ev_edge_index := [(3, snap0); (4, snap1)]%nat;
     Egcno.original_edges := [(3, [(0, 1)]); (4, [(2, 1)])]%nat;
     Egcno.ev_has_edge_attr := true |}.

Definition egcno_test : Egcno.eval_split :=
  {| Egcno.ev_edge_index := [(5, snap1); (6, snap2)]%nat;
     Egcno.original_edges := [(5, [(3, 1)]); (6, [(0, 1)])]%nat;
     Egcno.ev_has_edge_attr := false |}.

Definition egcno_args (epochs : nat) (pat : Z) : Egcno.args :=
  {| Egcno.max_epoch := epochs; Egcno.patience := pat |}.

Definition egcno_init_of (tape : list nat) : Egcno.St (egcno_of tape) :=
  mkState (0%nat : Egcno.World (egcno_of tape)) [].

Definition egcno_init : Egcno.St egcno := egcno_init_of [4; 4]%nat.

Definition gclstm : Gclstm.collaborators :=
  {| Gclstm.World := nat;
     Gclstm.Hid := edges;
     Gclstm.Cell := unit;
     Gclstm.model_fwd := fun w index _ _ _ => (w, (index, tt));
     Gclstm.link_pred_fwd := fun w _ _ b => (w, map (score w) b);
     Gclstm.criterion := mse;
     Gclstm.negative_sampling := fun w pos n k => (w, map (fun e => (fst e, fst e)) pos);
     Gclstm.zero_grad := fun w => w;
     Gclstm.backward := fun _ w => w;
     Gclstm.optimizer_step := S;
     Gclstm.set_training := fun _ w => w;
     Gclstm.query_batch := negatives;
     Gclstm.evaluator_eval := reciprocal_rank |}.

Definition gclstm_train : Gclstm.train_split :=
  {| Gclstm.edge_index := [snap0; snap1; snap2];
     Gclstm.time_length := 3;
     Gclstm.num_nodes := 4;
     Gclstm.has_edge_attr := false |}.

Definition gclstm_val : Gclstm.eval_split :=
  {| Gclstm.ev_edge_index := [(3, snap0); (4, snap1)]%nat;
     Gclstm.original_edges := [(3, [[0; 1]]); (4, [[2; 1]])]%nat;
     Gclstm.ev_has_edge_attr := false |}.

Definition gclstm_init : Gclstm.St gclstm := mkState (0%nat : Gclstm.World gclstm) [].

(** The same libraries with a world that counts the optimizer steps and
    the backward passes. *)
Definition egcno_counting : Egcno.collaborators :=
  {| Egcno.World := nat * nat;
     Egcno.Emb := edges;
     Egcno.model_fwd := fun w index _ => (w, index);
     Egcno.link_pred_fwd := fun w _ _ b => (w, map (score (fst w)) b);
     Egcno.criterion := mse;
     Egcno.randint := fun w low high size => (w, tape_randint [4; 4]%nat low high size);
     Egcno.zero_grad := fun w => w;
     Egcno.backward := fun _ w => (fst w, S (snd w));
     Egcno.optimizer_step := fun w => (S (fst w), snd w);
     Egcno.set_training := fun _ w => w;
     Egcno.query_batch := negatives;
     Egcno.evaluator_eval := reciprocal_rank |}.

Definition egcno_counting_init : Egcno.St egcno_counting :=
  mkState ((0, 0)%nat : Egcno.World egcno_counting) [].

Definition gclstm_counting : Gclstm.collaborators :=
  {| Gclstm.World := nat * nat;
     Gclstm.Hid := edges;
     Gclstm.Cell := unit;
     Gclstm.model_fwd := fun w index _ _ _ => (w, (index, tt));
     Gclstm.link_pred_fwd := fun w _ _ b => (w, map (score (fst w)) b);
     Gclstm.criterion := mse;
     Gclstm.negative_sampling := fun w pos n k => (w, map (fun e => (fst e, fst e)) pos);
     Gclstm.zero_grad := fun w => w;
     Gclstm.backward := fun _ w => (fst w, S (snd w));
     Gclstm.optimizer_step := fun w => (S (fst w), snd w);
     Gclstm.set_training := fun _ w => w;
     Gclstm.query_batch := negatives;
     Gclstm.evaluator_eval := reciprocal_rank |}.

Definition gclstm_counting_init : Gclstm.St gclstm_counting :=
  mkState ((0, 0)%nat : Gclstm.World gclstm_counting) [].

(** A tensor library that keeps the widths only: a tensor is its width,
    and an operation on the wrong width fails. *)
Definition width_mul (x y : nat) : M unit nat :=
  if Nat.eqb x y then ret x else raise ValueError.

Definition width_linear (l : LinkPredictor.Linear unit) (x : nat) : M unit nat :=
  if Nat.eqb x (LinkPredictor.in_features l)
  then ret (LinkPredictor.out_features l)
  else raise ValueError.

Definition width_dropout (x : nat) (p : Q) (t : bool) : M unit nat :=
  if (Qle_bool 0 p && Qle_bool p 1)%bool then ret x else raise ValueError.

(** The decoder as the EvolveGCN-O script builds it, with the hidden
    width cut down to 4. *)
Definition decoder : LinkPredictor.module unit :=
  {| LinkPredictor.lins :=
       [ {| LinkPredictor.in_features := 4; LinkPredictor.out_features := 4;
            LinkPredictor.weights := tt |};
         {| LinkPredictor.in_features := 4; LinkPredictor.out_features := 1;
            LinkPredictor.weights := tt |} ];
     LinkPredictor.dropout := 2 # 10;
     LinkPredictor.training := true |}.

End Demo.

(** * Properties *)

(** ** The monad *)

Section MonadFacts.

Context {S A B : Type}.

Lemma bind_inr (m : M S A) (k : A -> M S B) s s' b :
  bind m k s = (s', inr b) ->
  exists s1 a, m s = (s1, inr a) /\ k a s1 = (s', inr b).
Proof.
  unfold bind. destruct (m s) as [s1 [e | a]]; intros H.
  - discriminate.
  - exists s1, a. split; [reflexivity | exact H].
Qed.

Lemma bind_eq (m : M S A) (k : A -> M S B) s s1 a :
  m s = (s1, inr a) -> bind m k s = k a s1.
Proof. unfold bind. intros ->. reflexivity. Qed.

Lemma bind_raise (m : M S A) (k : A -> M S B) s s1 e :
  m s = (s1, inl e) -> bind m k s = (s1, inl e).
Proof. unfold bind. intros ->. reflexivity. Qed.

End MonadFacts.

Lemma pair_of_snd {A B} (x : A * B) (b : B) : snd x = b -> x = (fst x, b).
Proof. destruct x; simpl; intros ->; reflexivity. Defined.

Lemma for_each_break_app {S A B} (l1 l2 : list A) (body : A -> B -> M S (B * bool)) acc s :
  for_each_break (l1 ++ l2) body acc s =
  bind (for_each_break l1 body acc)
       (fun res => if snd res then ret res else for_each_break l2 body (fst res)) s.
Proof.
  revert acc s. induction l1 as [| x l1 IH]; intros acc s; simpl.
  - reflexivity.
  - unfold bind.
    destruct (body x acc s) as [s1 [e | [acc1 brk]]]; [reflexivity |].
    destruct brk.
    + reflexivity.
    + rewrite IH. reflexivity.
Qed.

(** ** Computations that leave only certain events *)

Section Emits.

Context {W E : Type}.
Variable P : E -> Prop.

Lemma emits_ret {A} (a : A) : emits P (ret a : M (state W E) A).
Proof.
  intros s s' r H. inversion H; subst. exists []. rewrite app_nil_r. auto.
Qed.

Lemma emits_raise {A} (e : exn) : emits P (raise e : M (state W E) A).
Proof.
  intros s s' r H. inversion H; subst. exists []. rewrite app_nil_r. auto.
Qed.

Lemma emits_bind {A B} (m : M (state W E) A) (k : A -> M (state W E) B) :
  emits P m -> (forall a, emits P (k a)) -> emits P (bind m k).
Proof.
  intros Hm Hk s s' r H. unfold bind in H.
  destruct (m s) as [s1 [e | a]] eqn:Em.
  - inversion H; subst. exact (Hm _ _ _ Em).
  - destruct (Hm _ _ _ Em) as [n1 [E1 F1]].
    destruct (Hk a _ _ _ H) as [n2 [E2 F2]].
    exists (n1 ++ n2). split.
    + rewrite E2, E1, app_assoc. reflexivity.
    + apply Forall_app. auto.
Qed.

Lemma emits_call {A} (f : W -> W * A) : emits P (call f : M (state W E) A).
Proof.
  intros s s' r H. unfold call in H. destruct (f (world s)) as [w a].
  inversion H; subst. exists []. simpl. rewrite app_nil_r. auto.
Qed.

Lemma emits_exec (f : W -> W) : emits P (exec f : M (state W E) unit).
Proof.
  intros s s' r H. inversion H; subst. exists []. simpl. rewrite app_nil_r. auto.
Qed.

Lemma emits_emit (e : E) : P e -> emits P (emit e : M (state W E) unit).
Proof.
  intros He s s' r H. inversion H; subst. exists [e]. simpl. auto.
Qed.

Lemma emits_getitem {A} (l : list A) i : emits P (getitem l i : M (state W E) A).
Proof.
  unfold getitem. destruct (nth_error l i); [apply emits_ret | apply emits_raise].
Qed.

Lemma emits_dict_get {A} (d : list (nat * A)) k : emits P (dict_get d k : M (state W E) A).
Proof.
  unfold dict_get. destruct (lookup d k); [apply emits_ret | apply emits_raise].
Qed.

Lemma emits_min_key {A} (d : list (nat * A)) : emits P (min_key d : M (state W E) nat).
Proof.
  unfold min_key. destruct (map fst d); [apply emits_raise | apply emits_ret].
Qed.

Lemma emits_for_each {A B} (xs : list A) (body : A -> B -> M (state W E) B) :
  (forall x acc, emits P (body x acc)) -> forall acc, emits P (for_each xs body acc).
Proof.
  intros Hb. induction xs as [| x xs IH]; intros acc; simpl.
  - apply emits_ret.
  - apply emits_bind; [apply Hb | exact IH].
Qed.

End Emits.

Create HintDb emits_db.

#[export] Hint Resolve emits_ret emits_raise emits_call emits_exec emits_getitem
  emits_dict_get emits_min_key : emits_db.

(** Decompose a goal [emits P m] along the structure of [m]. *)
Ltac emits_step :=
  cbv beta zeta;
  match goal with
  | |- emits _ (bind _ _) => apply emits_bind; [| intros ?]
  | |- emits _ (for_each _ _ _) => apply emits_for_each; intros ? ?
  | |- emits _ (emit _) => apply emits_emit; reflexivity
  | |- emits _ (if ?b then _ else _) => destruct b
  | |- emits _ (match ?x with _ => _ end) => destruct x
  | |- emits _ _ => solve [auto with emits_db]
  end.

Ltac emits_auto := repeat emits_step.

(** ** What a computation can raise *)

Section Raises.

Context {S : Type}.
Variable P : exn -> Prop.

Lemma raises_only_ret {A} (a : A) : raises_only P (ret a : M S A).
Proof. intros s s' e H. discriminate. Qed.

Lemma raises_only_raise {A} (e : exn) : P e -> raises_only P (raise e : M S A).
Proof. intros He s s' e' H. inversion H; subst. exact He. Qed.

Lemma raises_only_bind {A B} (m : M S A) (k : A -> M S B) :
  raises_only P m -> (forall a, raises_only P (k a)) -> raises_only P (bind m k).
Proof.
  intros Hm Hk s s' e H. unfold bind in H.
  destruct (m s) as [s1 [e1 | a]] eqn:Em.
  - inversion H; subst. exact (Hm _ _ _ Em).
  - exact (Hk a _ _ _ H).
Qed.

Lemma raises_only_getitem {A} (l : list A) i :
  P IndexError -> raises_only P (getitem l i : M S A).
Proof.
  intros He. unfold getitem.
  destruct (nth_error l i); [apply raises_only_ret | apply raises_only_raise; exact He].
Qed.

Lemma raises_only_dict_get {A} (d : list (nat * A)) k :
  P KeyError -> raises_only P (dict_get d k : M S A).
Proof.
  intros He. unfold dict_get.
  destruct (lookup d k); [apply raises_only_ret | apply raises_only_raise; exact He].
Qed.

Lemma raises_only_min_key {A} (d : list (nat * A)) :
  P ValueError -> raises_only P (min_key d : M S nat).
Proof.
  intros He. unfold min_key.
  destruct (map fst d); [apply raises_only_raise; exact He | apply raises_only_ret].
Qed.

Lemma raises_only_for_each {A B} (xs : list A) (body : A -> B -> M S B) :
  (forall x acc, raises_only P (body x acc)) ->
  forall acc, raises_only P (for_each xs body acc).
Proof.
  intros Hb. induction xs as [| x xs IH]; intros acc; simpl.
  - apply raises_only_ret.
  - apply raises_only_bind; [apply Hb | exact IH].
Qed.

Lemma raises_only_for_each_break {A B} (xs : list A) (body : A -> B -> M S (B * bool)) :
  (forall x acc, raises_only P (body x acc)) ->
  forall acc, raises_only P (for_each_break xs body acc).
Proof.
  intros Hb. induction xs as [| x xs IH]; intros acc; simpl.
  - apply raises_only_ret.
  - apply raises_only_bind; [apply Hb |].
    intros [acc' brk]. destruct brk; [apply raises_only_ret | apply IH].
Qed.

End Raises.

Lemma raises_only_call {W E A} (P : exn -> Prop) (f : W -> W * A) :
  raises_only P (call f : M (state W E) A).
Proof.
  intros s s' e H. unfold call in H. destruct (f (world s)). discriminate.
Qed.

Lemma raises_only_exec {W E} (P : exn -> Prop) (f : W -> W) :
  raises_only P (exec f : M (state W E) unit).
Proof. intros s s' e H. discriminate. Qed.

Lemma raises_only_emit {W E} (P : exn -> Prop) (e : E) :
  raises_only P (emit e : M (state W E) unit).
Proof. intros s s' e' H. discriminate. Qed.

Create HintDb raises_db.

#[export] Hint Resolve raises_only_ret raises_only_call raises_only_exec
  raises_only_emit : raises_db.

(** Decompose a goal [raises_only P m] along the structure of [m]; what
    is left of [P] at a [raise] is closed by [discriminate] or [auto]. *)
Ltac raises_step :=
  cbv beta zeta;
  match goal with
  | |- raises_only _ (bind _ _) => apply raises_only_bind; [| intros ?]
  | |- raises_only _ (for_each _ _ _) => apply raises_only_for_each; intros ? ?
  | |- raises_only _ (for_each_break _ _ _) =>
      apply raises_only_for_each_break; intros ? ?
  | |- raises_only _ (raise _) =>
      apply raises_only_raise; intros ?; solve [discriminate | auto]
  | |- raises_only _ (getitem _ _) =>
      apply raises_only_getitem; intros ?; discriminate
  | |- raises_only _ (dict_get _ _) =>
      apply raises_only_dict_get; intros ?; discriminate
  | |- raises_only _ (min_key _) =>
      apply raises_only_min_key; intros ?; discriminate
  | |- raises_only _ (ret _) => apply raises_only_ret
  | |- raises_only _ (call _) => apply raises_only_call
  | |- raises_only _ (exec _) => apply raises_only_exec
  | |- raises_only _ (emit _) => apply raises_only_emit
  | |- raises_only _ (if negb ?b then _ else _) => destruct b; simpl negb
  | |- raises_only _ (if ?b then _ else _) => destruct b
  | |- raises_only _ (match ?x with _ => _ end) => destruct x
  | |- raises_only _ _ => solve [auto with raises_db]
  end.

Ltac raises_auto := repeat raises_step.

(** ** What a computation leaves alone in the world *)

Section Keeps.

Context {W E X : Type}.
Variable obs : W -> X.

Lemma keeps_ret {A} (a : A) : keeps obs (ret a : M (state W E) A).
Proof. intros s s' r H. inversion H; subst. reflexivity. Qed.

Lemma keeps_raise {A} (e : exn) : keeps obs (raise e : M (state W E) A).
Proof. intros s s' r H. inversion H; subst. reflexivity. Qed.

Lemma keeps_bind {A B} (m : M (state W E) A) (k : A -> M (state W E) B) :
  keeps obs m -> (forall a, keeps obs (k a)) -> keeps obs (bind m k).
Proof.
  intros Hm Hk s s' r H. unfold bind in H.
  destruct (m s) as [s1 [e | a]] eqn:Em.
  - inversion H; subst. exact (Hm _ _ _ Em).
  - rewrite (Hk a _ _ _ H). exact (Hm _ _ _ Em).
Qed.

Lemma keeps_call {A} (f : W -> W * A) :
  (forall w, obs (fst (f w)) = obs w) -> keeps obs (call f : M (state W E) A).
Proof.
  intros Hf s s' r H. unfold call in H. specialize (Hf (world s)).
  destruct (f (world s)) as [w a]. inversion H; subst. exact Hf.
Qed.

Lemma keeps_exec (f : W -> W) :
  (forall w, obs (f w) = obs w) -> keeps obs (exec f : M (state W E) unit).
Proof. intros Hf s s' r H. inversion H; subst. apply Hf. Qed.

Lemma keeps_emit (e : E) : keeps obs (emit e : M (state W E) unit).
Proof. intros s s' r H. inversion H; subst. reflexivity. Qed.

Lemma keeps_getitem {A} (l : list A) i : keeps obs (getitem l i : M (state W E) A).
Proof.
  unfold getitem. destruct (nth_error l i); [apply keeps_ret | apply keeps_raise].
Qed.

Lemma keeps_dict_get {A} (d : list (nat * A)) k :
  keeps obs (dict_get d k : M (state W E) A).
Proof.
  unfold dict_get. destruct (lookup d k); [apply keeps_ret | apply keeps_raise].
Qed.

Lemma keeps_min_key {A} (d : list (nat * A)) : keeps obs (min_key d : M (state W E) nat).
Proof.
  unfold min_key. destruct (map fst d); [apply keeps_raise | apply keeps_ret].
Qed.

Lemma keeps_for_each {A B} (xs : list A) (body : A -> B -> M (state W E) B) :
  (forall x acc, keeps obs (body x acc)) -> forall acc, keeps obs (for_each xs body acc).
Proof.
  intros Hb. induction xs as [| x xs IH]; intros acc; simpl.
  - apply keeps_ret.
  - apply keeps_bind; [apply Hb | exact IH].
Qed.

End Keeps.

Create HintDb keeps_db.

#[export] Hint Resolve keeps_ret keeps_raise keeps_emit keeps_getitem keeps_dict_get
  keeps_min_key : keeps_db.

(** Decompose a goal [keeps obs m] along the structure of [m]; the calls
    of the libraries are left to the hints at hand. *)
Ltac keeps_step :=
  cbv beta zeta;
  match goal with
  | |- keeps _ (bind _ _) => apply keeps_bind; [| intros ?]
  | |- keeps _ (for_each _ _ _) => apply keeps_for_each; intros ? ?
  | |- keeps _ (call _) => apply keeps_call; intros ?; cbv beta; solve [auto]
  | |- keeps _ (exec _) => apply keeps_exec; intros ?; solve [auto]
  | |- keeps _ (if ?b then _ else _) => destruct b
  | |- keeps _ (match ?x with _ => _ end) => destruct x
  | |- keeps _ _ => solve [auto with keeps_db]
  end.

Ltac keeps_auto := repeat keeps_step.

(** ** The primitive steps *)

Section Primitives.

Context {W E : Type}.

Lemma getitem_inr {A} (l : list A) i (s s' : state W E) x :
  getitem l i s = (s', inr x) -> s' = s /\ nth_error l i = Some x.
Proof.
  unfold getitem. destruct (nth_error l i); intros H; inversion H; subst; auto.
Qed.

Lemma dict_get_inr {A} (d : list (nat * A)) k (s s' : state W E) x :
  dict_get d k s = (s', inr x) -> s' = s /\ lookup d k = Some x.
Proof.
  unfold dict_get. destruct (lookup d k); intros H; inversion H; subst; auto.
Qed.

Lemma call_inr {A} (f : W -> W * A) (s s' : state W E) a :
  call f s = (s', inr a) -> f (world s) = (world s', a) /\ trace s' = trace s.
Proof.
  unfold call. destruct (f (world s)) as [w x]. intros H. inversion H; subst. auto.
Qed.

Lemma exec_inr (f : W -> W) (s s' : state W E) u :
  exec f s = (s', inr u) -> world s' = f (world s) /\ trace s' = trace s.
Proof. unfold exec. intros H. inversion H; subst. auto. Qed.

Lemma min_key_inr {A} (d : list (nat * A)) (s s' : state W E) k :
  min_key d s = (s', inr k) -> s' = s.
Proof.
  unfold min_key. destruct (map fst d); intros H; inversion H; subst; auto.
Qed.

Lemma emit_inr (e : E) (s s' : state W E) u :
  emit e s = (s', inr u) -> world s' = world s /\ trace s' = trace s ++ [e].
Proof. unfold emit. intros H. inversion H; subst. auto. Qed.

End Primitives.

(** Split a successful run of a [bind] into its two parts. *)
Tactic Notation "bind_inv" hyp(H) "as" ident(s1) ident(a) ident(H1) :=
  apply bind_inr in H; destruct H as [s1 [a [H1 H]]].

(** ** The EvolveGCN-O script: single steps *)

Section EgcnoSteps.

Import Egcno.

Variable C : collaborators.

Lemma egcno_advance_inr b index s s' h :
  advance C b index s = (s', inr h) ->
  b = false /\
  exists out,
    h = attached out /\
    model_fwd C (world s) index (ones (size1 index) edge_feat_dim) = (world s', out) /\
    trace s' = trace s ++ [EvModel C index (ones (size1 index) edge_feat_dim) out].
Proof.
  unfold advance. intros H. destruct b; simpl in H.
  - unfold bind, raise in H. discriminate.
  - split; [reflexivity |].
    bind_inv H as s0 w Hg. inversion Hg; subst. clear Hg.
    bind_inv H as s1 out Hc. apply call_inr in Hc. destruct Hc as [Hw Ht].
    bind_inv H as s2 u He. apply emit_inr in He. destruct He as [Hw1 Ht1].
    inversion H; subst. exists out. repeat split.
    + rewrite Hw1. exact Hw.
    + rewrite Ht1, Ht. reflexivity.
Qed.

Lemma egcno_advance_raises b index s :
  b = true -> advance C b index s = (s, inl NotImplementedError).
Proof. intros ->. reflexivity. Qed.

Lemma egcno_link_pred_inr r h a b s s' out :
  link_pred C r h a b s = (s', inr out) ->
  link_pred_fwd C (world s) (data h) a b = (world s', out) /\
  trace s' = trace s ++ [EvLinkPred C r h a b].
Proof.
  unfold link_pred. intros H. bind_inv H as s1 u He.
  apply emit_inr in He. destruct He as [Hw Ht].
  apply call_inr in H. destruct H as [Hc Ht']. rewrite Hw in Hc.
  split; [exact Hc | rewrite Ht', Ht; reflexivity].
Qed.

Lemma egcno_crit_inr pred target s s' v :
  crit C pred target s = (s', inr v) ->
  v = criterion C pred target /\
  trace s' = trace s ++ [EvCriterion C pred target v].
Proof.
  unfold crit. intros H. bind_inv H as s1 u He.
  apply emit_inr in He. destruct He as [Hw Ht].
  inversion H; subst. split; [reflexivity | exact Ht].
Qed.

(** A successful iteration [t] of the training loop: the encoder is fed
    snapshot [t - 1] (snapshot [0] at [t = 0], as [0 - 1 = 0] on
    naturals), snapshot [t] is scored, and the trace grows by the six
    events of the iteration. *)
Lemma egcno_train_snapshot_inr td n t vars s s' vars' :
  train_snapshot C td n t vars s = (s', inr vars') ->
  exists it,
    nth_error (edge_index td) (t - 1) = Some (it_feed C it) /\
    nth_error (edge_index td) t = Some (it_pos C it) /\
    has_edge_attr td = false /\
    snd (model_fwd C (world s) (it_feed C it) (ones (size1 (it_feed C it)) edge_feat_dim))
      = it_emb C it /\
    snd (randint C
           (fst (model_fwd C (world s) (it_feed C it)
                   (ones (size1 (it_feed C it)) edge_feat_dim)))
           0 n (size1 (it_pos C it)))
      = it_neg_dst C it /\
    fst vars' = Some (attached (it_emb C it)) /\
    snd vars' = add_tensor (add_tensor (snd vars) (it_pos_loss C it)) (it_neg_loss C it) /\
    trace s' = trace s ++ iteration_events C n it.
Proof.
  unfold train_snapshot. intros H.
  bind_inv H as s0 h Hh.
  assert (Hfeed : exists feed,
             nth_error (edge_index td) (t - 1) = Some feed /\
             advance C (has_edge_attr td) feed s = (s0, inr h)).
  { destruct (Nat.eqb_spec t 0) as [-> | Hne].
    - bind_inv Hh as s1 cur Hg. apply getitem_inr in Hg. destruct Hg as [-> Hn].
      exists cur. simpl. auto.
    - bind_inv Hh as s1 prev Hg. apply getitem_inr in Hg. destruct Hg as [-> Hn].
      exists prev. auto. }
  destruct Hfeed as [feed [Hn Hadv]]. clear Hh.
  apply egcno_advance_inr in Hadv. destruct Hadv as [Hattr [out [-> [Hm Ht0]]]].
  bind_inv H as s1 pos Hg. apply getitem_inr in Hg. destruct Hg as [-> Hpos].
  bind_inv H as s2 neg_dst Hr. apply call_inr in Hr. destruct Hr as [Hr Htr].
  bind_inv H as s3 u He. apply emit_inr in He. destruct He as [_ Hte].
  bind_inv H as s4 pos_out Hp. apply egcno_link_pred_inr in Hp. destruct Hp as [_ Htp].
  bind_inv H as s5 neg_out Hq. apply egcno_link_pred_inr in Hq. destruct Hq as [_ Htn].
  bind_inv H as s6 lp Hlp. apply egcno_crit_inr in Hlp. destruct Hlp as [-> Htc].
  bind_inv H as s7 ln Hln. apply egcno_crit_inr in Hln. destruct Hln as [-> Htd].
  inversion H; subst. clear H.
  exists {| it_feed := feed; it_emb := out; it_pos := pos; it_neg_dst := neg_dst;
            it_pos_out := pos_out; it_neg_out := neg_out |}.
  simpl. repeat split; auto.
  - rewrite Hm. reflexivity.
  - rewrite Hm. simpl. rewrite Hr. reflexivity.
  - unfold iteration_events, it_pos_loss, it_neg_loss. simpl.
    rewrite Htd, Htc, Htn, Htp, Hte, Htr, Ht0.
    repeat rewrite <- app_assoc. reflexivity.
Qed.

End EgcnoSteps.

(** ** Sums of rationals *)

Lemma fold_Qplus_acc (l : list Q) (a : Q) :
  (fold_left Qplus l a == a + Qsum l)%Q.
Proof.
  unfold Qsum. revert a. induction l as [| x l IH]; intros a; simpl.
  - ring.
  - rewrite IH. rewrite (IH (0 + x)%Q). ring.
Qed.

Lemma Qsum_cons (x : Q) (l : list Q) : (Qsum (x :: l) == x + Qsum l)%Q.
Proof.
  unfold Qsum at 1. simpl. rewrite fold_Qplus_acc. ring.
Qed.

Lemma Qsum_app (l1 l2 : list Q) : (Qsum (l1 ++ l2) == Qsum l1 + Qsum l2)%Q.
Proof.
  induction l1 as [| x l1 IH]; simpl.
  - unfold Qsum at 2. simpl. ring.
  - rewrite !Qsum_cons, IH. ring.
Qed.

Lemma float_of_add_tensor (acc : pynum) (x : Q) :
  (float_of (add_tensor acc x) == float_of acc + x)%Q.
Proof. destruct acc; simpl; ring. Qed.

Lemma add_tensor_is_tensor (acc : pynum) (x : Q) :
  exists v, add_tensor acc x = Tensor0 v.
Proof. destruct acc; simpl; eauto. Qed.

(** ** The EvolveGCN-O script: the training loop *)

Section EgcnoTrain.

Import Egcno.

Variable C : collaborators.

Lemma egcno_train_loop_inr td n l : forall vars s s' vars',
  for_each l (train_snapshot C td n) vars s = (s', inr vars') ->
  exists its,
    Forall2 (shifted C td) l its /\
    trace s' = trace s ++ flat_map (iteration_events C n) its /\
    (float_of (snd vars') == float_of (snd vars) + Qsum (map (it_loss C) its))%Q /\
    (l <> [] -> exists v, snd vars' = Tensor0 v) /\
    (l = [] -> vars' = vars).
Proof.
  induction l as [| t l IH]; intros vars s s' vars' H; simpl in H.
  - inversion H; subst. exists []. simpl. rewrite app_nil_r.
    repeat split; auto.
    + unfold Qsum. simpl. ring.
    + intros Hne. congruence.
  - bind_inv H as s1 vars1 Hstep.
    apply egcno_train_snapshot_inr in Hstep.
    destruct Hstep as [it [Hf [Hp [_ [_ [_ [_ [Hl Ht]]]]]]]].
    destruct (IH _ _ _ _ H) as [its [Hall [Ht' [Hsum [Hten Hnil]]]]].
    exists (it :: its). repeat split.
    + constructor; [split; assumption | exact Hall].
    + simpl. rewrite Ht', Ht, <- app_assoc. reflexivity.
    + simpl. rewrite Hsum, Hl, Qsum_cons. rewrite !float_of_add_tensor.
      unfold it_loss. ring.
    + intros _. destruct l as [| t' l'].
      * rewrite (Hnil eq_refl). rewrite Hl. apply add_tensor_is_tensor.
      * apply Hten. discriminate.
    + discriminate.
Qed.

Lemma egcno_iterations_no_opt_step n (its : list (iteration C)) :
  count_opt_steps (flat_map (iteration_events C n) its) = 0%nat.
Proof.
  unfold count_opt_steps. induction its as [| it its IH]; simpl; auto.
Qed.

End EgcnoTrain.

(** ** The GC-LSTM script: single steps and the training loop *)

Section GclstmTrain.

Import Gclstm.

Variable C : collaborators.

Lemma gclstm_advance_inr b index h c s s' hc :
  advance C b index h c s = (s', inr hc) ->
  b = false /\
  exists out,
    hc = (attached (fst out), attached (snd out)) /\
    trace s' = trace s ++ [EvModel C index (ones (size1 index) edge_feat_dim) h c out].
Proof.
  unfold advance. intros H. destruct b; simpl in H.
  - unfold bind, raise in H. discriminate.
  - split; [reflexivity |].
    bind_inv H as s0 w Hg. inversion Hg; subst. clear Hg.
    bind_inv H as s1 out Hc. apply call_inr in Hc. destruct Hc as [Hw Ht].
    bind_inv H as s2 u He. apply emit_inr in He. destruct He as [Hw1 Ht1].
    inversion H; subst. exists out. split; [reflexivity |].
    rewrite Ht1, Ht. reflexivity.
Qed.

Lemma gclstm_advance_raises b index h c s :
  b = true -> advance C b index h c s = (s, inl NotImplementedError).
Proof. intros ->. reflexivity. Qed.

Lemma gclstm_link_pred_inr r h a b s s' out :
  link_pred C r h a b s = (s', inr out) ->
  trace s' = trace s ++ [EvLinkPred C r h a b].
Proof.
  unfold link_pred. intros H. bind_inv H as s1 u He.
  apply emit_inr in He. destruct He as [Hw Ht].
  apply call_inr in H. destruct H as [Hc Ht']. rewrite Ht', Ht. reflexivity.
Qed.

Lemma gclstm_crit_inr pred target s s' v :
  crit C pred target s = (s', inr v) ->
  v = criterion C pred target /\
  trace s' = trace s ++ [EvCriterion C pred target v].
Proof.
  unfold crit. intros H. bind_inv H as s1 u He.
  apply emit_inr in He. destruct He as [Hw Ht].
  inversion H; subst. split; [reflexivity | exact Ht].
Qed.

Lemma gclstm_train_snapshot_inr td n t vars s s' vars' :
  train_snapshot C td n t vars s = (s', inr vars') ->
  exists it,
    shifted C td t it /\
    has_edge_attr td = false /\
    tv_h C vars' = Some (attached (fst (it_out C it))) /\
    tv_loss C vars' =
      add_tensor (add_tensor (tv_loss C vars) (it_pos_loss C it)) (it_neg_loss C it) /\
    tv_total_loss C vars' =
      (tv_total_loss C vars
       + float_of (tv_loss C vars) * inject_Z (Z.of_nat (size1 (it_feed C it))))%Q /\
    trace s' = trace s ++ iteration_events C n it.
Proof.
  unfold train_snapshot. intros H.
  bind_inv H as s0 pos Hg. apply getitem_inr in Hg. destruct Hg as [-> Hpos].
  bind_inv H as s1 neg Hn. apply call_inr in Hn. destruct Hn as [_ Htn].
  bind_inv H as s2 u He. apply emit_inr in He. destruct He as [_ Hte].
  bind_inv H as s3 fhc Hb. destruct fhc as [feed [h c]].
  assert (Hfeed : nth_error (edge_index td) (t - 1) = Some feed /\
                  advance C (has_edge_attr td) feed (tv_h C vars) (tv_c C vars) s2
                  = (s3, inr (h, c))).
  { destruct (Nat.eqb_spec t 0) as [-> | Hne].
    - bind_inv Hb as s4 hc Ha. inversion Hb; subst. simpl. auto.
    - bind_inv Hb as s4 prev Hg. apply getitem_inr in Hg. destruct Hg as [-> Hprev].
      bind_inv Hb as s5 hc Ha. inversion Hb; subst. auto. }
  destruct Hfeed as [Hfd Hadv]. clear Hb.
  apply gclstm_advance_inr in Hadv. destruct Hadv as [Hattr [out [Hhc Hta]]].
  inversion Hhc; subst h c. clear Hhc.
  bind_inv H as s4 pos_out Hp. apply gclstm_link_pred_inr in Hp.
  bind_inv H as s5 neg_out Hq. apply gclstm_link_pred_inr in Hq.
  bind_inv H as s6 lp Hlp. apply gclstm_crit_inr in Hlp. destruct Hlp as [-> Htc].
  bind_inv H as s7 ln Hln. apply gclstm_crit_inr in Hln. destruct Hln as [-> Htd].
  inversion H; subst. clear H.
  exists {| it_pos := pos; it_neg_edges := neg; it_feed := feed;
            it_h_in := tv_h C vars; it_c_in := tv_c C vars; it_out := out;
            it_pos_out := pos_out; it_neg_out := neg_out |}.
  unfold shifted. simpl. repeat split; auto.
  unfold iteration_events, it_pos_loss, it_neg_loss. simpl.
  rewrite Htd, Htc, Hq, Hp, Hta, Hte, Htn.
  repeat rewrite <- app_assoc. reflexivity.
Qed.

Lemma Qsum_map_ext {A} (f g : A -> Q) (l : list A) :
  (forall x, In x l -> (f x == g x)%Q) -> (Qsum (map f l) == Qsum (map g l))%Q.
Proof.
  induction l as [| x l IH]; intros H; simpl.
  - reflexivity.
  - rewrite !Qsum_cons. rewrite (H x (or_introl eq_refl)).
    rewrite IH; [reflexivity |]. intros y Hy. apply H. right. exact Hy.
Qed.

Lemma combine_map_l {A B A'} (f : A -> A') (l : list A) (l' : list B) :
  combine (map f l) l' = map (fun p => (f (fst p), snd p)) (combine l l').
Proof.
  revert l'. induction l as [| x l IH]; intros [| y l']; simpl; auto.
  rewrite IH. reflexivity.
Qed.

Lemma total_from_cons base it its :
  (total_from C base (it :: its)
   == base * inject_Z (Z.of_nat (size1 (it_feed C it)))
      + total_from C (base + it_loss C it) its)%Q.
Proof.
  unfold total_from. simpl length. simpl seq. simpl combine. simpl map.
  rewrite Qsum_cons. simpl fst. simpl snd.
  unfold loss_through at 1. simpl firstn. simpl map.
  rewrite <- seq_shift, combine_map_l, map_map.
  assert (E : (Qsum [] == 0)%Q) by reflexivity. rewrite E.
  rewrite (Qsum_map_ext
             (fun x => ((base + loss_through C (it :: its) (fst (Datatypes.S (fst x), snd x)))
                        * inject_Z (Z.of_nat (size1 (it_feed C (snd (Datatypes.S (fst x), snd x))))))%Q)
             (fun ti => ((base + it_loss C it + loss_through C its (fst ti))
                         * inject_Z (Z.of_nat (size1 (it_feed C (snd ti)))))%Q)).
  - ring.
  - intros [t x] _. simpl. unfold loss_through. simpl. rewrite Qsum_cons. ring.
Qed.

Lemma total_from_snoc its : forall base last,
  (total_from C base (its ++ [last])
   == total_from C base its
      + (base + Qsum (map (it_loss C) its))
        * inject_Z (Z.of_nat (size1 (it_feed C last))))%Q.
Proof.
  induction its as [| it its IH]; intros base last.
  - simpl app. rewrite total_from_cons. unfold total_from. simpl.
    unfold Qsum. simpl. ring.
  - simpl app. rewrite !total_from_cons, IH. simpl map. rewrite Qsum_cons. ring.
Qed.

Lemma total_from_ext base base' its :
  (base == base')%Q -> (total_from C base its == total_from C base' its)%Q.
Proof.
  intros E. unfold total_from. apply Qsum_map_ext. intros ti _. rewrite E. reflexivity.
Qed.

Lemma total_from_zero its : (total_from C 0 its == shifted_total C its)%Q.
Proof.
  unfold total_from, shifted_total. apply Qsum_map_ext. intros ti _. ring.
Qed.

Lemma gclstm_train_loop_inr td n l : forall vars s s' vars',
  for_each l (train_snapshot C td n) vars s = (s', inr vars') ->
  exists its,
    Forall2 (shifted C td) l its /\
    trace s' = trace s ++ flat_map (iteration_events C n) its /\
    (float_of (tv_loss C vars')
     == float_of (tv_loss C vars) + Qsum (map (it_loss C) its))%Q /\
    (tv_total_loss C vars'
     == tv_total_loss C vars + total_from C (float_of (tv_loss C vars)) its)%Q /\
    (l <> [] -> exists v, tv_loss C vars' = Tensor0 v) /\
    (l = [] -> vars' = vars).
Proof.
  induction l as [| t l IH]; intros vars s s' vars' H; simpl in H.
  - inversion H; subst. exists []. simpl. rewrite app_nil_r.
    repeat split; auto.
    + unfold Qsum. simpl. ring.
    + unfold total_from, Qsum. simpl. ring.
    + intros Hne. congruence.
  - bind_inv H as s1 vars1 Hstep.
    apply gclstm_train_snapshot_inr in Hstep.
    destruct Hstep as [it [Hsh [_ [_ [Hl [Htl Ht]]]]]].
    destruct (IH _ _ _ _ H) as [its [Hall [Ht' [Hsum [Htot [Hten Hnil]]]]]].
    exists (it :: its). repeat split.
    + constructor; assumption.
    + simpl. rewrite Ht', Ht, <- app_assoc. reflexivity.
    + simpl. rewrite Hsum, Hl, Qsum_cons. rewrite !float_of_add_tensor.
      unfold it_loss. ring.
    + rewrite Htot, Htl, total_from_cons.
      rewrite (total_from_ext (float_of (tv_loss C vars1))
                 (float_of (tv_loss C vars) + it_loss C it)%Q).
      * ring.
      * rewrite Hl, !float_of_add_tensor. unfold it_loss. ring.
    + intros _. destruct l as [| t' l'].
      * rewrite (Hnil eq_refl). rewrite Hl. apply add_tensor_is_tensor.
      * apply Hten. discriminate.
    + discriminate.
Qed.

Lemma gclstm_iterations_no_opt_step n (its : list (iteration C)) :
  count_opt_steps (flat_map (iteration_events C n) its) = 0%nat.
Proof.
  unfold count_opt_steps. induction its as [| it its IH]; simpl; auto.
Qed.

End GclstmTrain.

(** ** Training epochs *)

Section TrainEpochs.

Lemma egcno_train_epoch_inr (C : Egcno.collaborators) td n s s' h :
  Egcno.train_epoch C td n s = (s', inr h) ->
  exists its total,
    Forall2 (Egcno.shifted C td) (seq 0 (Egcno.time_length td)) its /\
    (total == Qsum (map (Egcno.it_loss C) its))%Q /\
    trace s' = trace s
               ++ [Egcno.EvZeroGrad C]
               ++ flat_map (Egcno.iteration_events C n) its
               ++ [Egcno.EvBackward C total; Egcno.EvOptStep C;
                   Egcno.EvPrintLoss C
                     (total / inject_Z (Z.of_nat (Egcno.time_length td)))].
Proof.
  unfold Egcno.train_epoch. intros H.
  bind_inv H as s1 u1 H1. apply exec_inr in H1. destruct H1 as [_ T1].
  bind_inv H as s2 u2 H2. apply emit_inr in H2. destruct H2 as [_ T2].
  bind_inv H as s3 u3 H3. apply exec_inr in H3. destruct H3 as [_ T3].
  bind_inv H as s4 vars HL. destruct vars as [h' total_loss].
  apply egcno_train_loop_inr in HL.
  destruct HL as [its [Hall [TL [Hsum _]]]]. simpl in Hsum.
  destruct total_loss as [| v].
  - unfold raise in H. discriminate.
  - bind_inv H as s5 u5 H5. apply exec_inr in H5. destruct H5 as [_ T5].
    bind_inv H as s6 u6 H6. apply emit_inr in H6. destruct H6 as [_ T6].
    bind_inv H as s7 u7 H7. apply exec_inr in H7. destruct H7 as [_ T7].
    bind_inv H as s8 u8 H8. apply emit_inr in H8. destruct H8 as [_ T8].
    bind_inv H as s9 u9 H9. apply emit_inr in H9. destruct H9 as [_ T9].
    inversion H; subst. clear H.
    exists its, v. split; [exact Hall |]. split.
    + rewrite Hsum. ring.
    + rewrite T9, T8, T7, T6, T5, TL, T3, T2, T1.
      repeat rewrite <- app_assoc. reflexivity.
Qed.

Lemma gclstm_train_epoch_inr (C : Gclstm.collaborators) td n s s' h c total_loss :
  Gclstm.train_epoch C td n s = (s', inr (h, c, total_loss)) ->
  exists its loss,
    Forall2 (Gclstm.shifted C td) (seq 0 (Gclstm.time_length td)) its /\
    (loss == Qsum (map (Gclstm.it_loss C) its))%Q /\
    (total_loss == Gclstm.shifted_total C its)%Q /\
    trace s' = trace s
               ++ flat_map (Gclstm.iteration_events C n) its
               ++ [Gclstm.EvBackward C loss; Gclstm.EvOptStep C; Gclstm.EvZeroGrad C;
                   Gclstm.EvPrintLoss C (total_loss / inject_Z (Z.of_nat n))].
Proof.
  unfold Gclstm.train_epoch, Gclstm.train_loop. intros H.
  bind_inv H as s1 u1 H1. apply exec_inr in H1. destruct H1 as [_ T1].
  bind_inv H as s2 vars HL.
  apply gclstm_train_loop_inr in HL.
  destruct HL as [its [Hall [TL [Hsum [Htot _]]]]]. simpl in Hsum, Htot.
  destruct (Gclstm.tv_loss C vars) as [| v] eqn:El.
  - unfold raise in H. discriminate.
  - bind_inv H as s5 u5 H5. apply exec_inr in H5. destruct H5 as [_ T5].
    bind_inv H as s6 u6 H6. apply emit_inr in H6. destruct H6 as [_ T6].
    bind_inv H as s7 u7 H7. apply exec_inr in H7. destruct H7 as [_ T7].
    bind_inv H as s8 u8 H8. apply emit_inr in H8. destruct H8 as [_ T8].
    bind_inv H as s9 u9 H9. apply exec_inr in H9. destruct H9 as [_ T9].
    bind_inv H as s10 u10 H10. apply emit_inr in H10. destruct H10 as [_ T10].
    bind_inv H as s11 u11 H11. apply emit_inr in H11. destruct H11 as [_ T11].
    inversion H; subst. clear H.
    exists its, v. split; [exact Hall |]. split; [| split].
    + simpl in Hsum. rewrite Hsum. ring.
    + rewrite Htot, total_from_zero. ring.
    + rewrite T11, T10, T9, T8, T7, T6, T5, TL, T1.
      repeat rewrite <- app_assoc. reflexivity.
Qed.

End TrainEpochs.

(** ** Training epochs, call by call *)

Section EgcnoCalls.

Import Egcno.

Variable C : collaborators.

Lemma egcno_train_snapshot_calls td n t vars s s' vars' :
  train_snapshot C td n t vars s = (s', inr vars') ->
  exists it,
    shifted C td t it /\
    iteration_calls C n (world s) it (world s') /\
    snd vars' = add_tensor (add_tensor (snd vars) (it_pos_loss C it)) (it_neg_loss C it) /\
    trace s' = trace s ++ iteration_events C n it.
Proof.
  unfold train_snapshot. intros H.
  bind_inv H as s0 h Hh.
  assert (Hfeed : exists feed,
             nth_error (edge_index td) (t - 1) = Some feed /\
             advance C (has_edge_attr td) feed s = (s0, inr h)).
  { destruct (Nat.eqb_spec t 0) as [-> | Hne].
    - bind_inv Hh as s1 cur Hg. apply getitem_inr in Hg. destruct Hg as [-> Hn].
      exists cur. simpl. auto.
    - bind_inv Hh as s1 prev Hg. apply getitem_inr in Hg. destruct Hg as [-> Hn].
      exists prev. auto. }
  destruct Hfeed as [feed [Hn Hadv]]. clear Hh.
  apply egcno_advance_inr in Hadv. destruct Hadv as [Hattr [out [-> [Hm Ht0]]]].
  bind_inv H as s1 pos Hg. apply getitem_inr in Hg. destruct Hg as [-> Hpos].
  bind_inv H as s2 neg_dst Hr. apply call_inr in Hr. destruct Hr as [Hr Htr].
  bind_inv H as s3 u He. apply emit_inr in He. destruct He as [Hwe Hte].
  bind_inv H as s4 pos_out Hp. apply egcno_link_pred_inr in Hp. destruct Hp as [Hwp Htp].
  bind_inv H as s5 neg_out Hq. apply egcno_link_pred_inr in Hq. destruct Hq as [Hwq Htn].
  bind_inv H as s6 lp Hlp. unfold crit in Hlp.
  bind_inv Hlp as s6' u6 Hl6. apply emit_inr in Hl6. destruct Hl6 as [Hw6 Htc].
  inversion Hlp; subst s6 lp. clear Hlp.
  bind_inv H as s7 ln Hln. unfold crit in Hln.
  bind_inv Hln as s7' u7 Hl7. apply emit_inr in Hl7. destruct Hl7 as [Hw7 Htd].
  inversion Hln; subst s7 ln. clear Hln.
  inversion H; subst s7' vars'. clear H.
  exists {| it_feed := feed; it_emb := out; it_pos := pos; it_neg_dst := neg_dst;
            it_pos_out := pos_out; it_neg_out := neg_out |}.
  split; [split; assumption |]. split; [| split].
  - exists (world s0), (world s2), (world s4). simpl.
    rewrite Hwe in Hwp. rewrite Hw7, Hw6.
    repeat split; assumption.
  - reflexivity.
  - unfold iteration_events, it_pos_loss, it_neg_loss. simpl.
    rewrite Htd, Htc, Htn, Htp, Hte, Htr, Ht0.
    repeat rewrite <- app_assoc. reflexivity.
Qed.

Lemma egcno_train_loop_calls td n l : forall vars s s' vars',
  for_each l (train_snapshot C td n) vars s = (s', inr vars') ->
  exists its,
    Forall2 (shifted C td) l its /\
    iterations_calls C n (world s) its (world s') /\
    trace s' = trace s ++ flat_map (iteration_events C n) its /\
    (float_of (snd vars') == float_of (snd vars) + Qsum (map (it_loss C) its))%Q.
Proof.
  induction l as [| t l IH]; intros vars s s' vars' H; simpl in H.
  - inversion H; subst. exists []. simpl. rewrite app_nil_r.
    repeat split; auto. unfold Qsum. simpl. ring.
  - bind_inv H as s1 vars1 Hstep.
    apply egcno_train_snapshot_calls in Hstep.
    destruct Hstep as [it [Hsh [Hc [Hl Ht]]]].
    destruct (IH _ _ _ _ H) as [its [Hall [Hcs [Ht' Hsum]]]].
    exists (it :: its). split; [| split; [| split]].
    + constructor; assumption.
    + simpl. exists (world s1). split; assumption.
    + simpl. rewrite Ht', Ht, <- app_assoc. reflexivity.
    + simpl. rewrite Hsum, Hl, Qsum_cons. rewrite !float_of_add_tensor.
      unfold it_loss. ring.
Qed.

Lemma egcno_train_epoch_calls td n s s' h :
  train_epoch C td n s = (s', inr h) ->
  exists its total w_loop,
    Forall2 (shifted C td) (seq 0 (time_length td)) its /\
    iterations_calls C n (set_training C true (zero_grad C (world s))) its w_loop /\
    (total == Qsum (map (it_loss C) its))%Q /\
    trace s' = trace s
               ++ [EvZeroGrad C]
               ++ flat_map (iteration_events C n) its
               ++ [EvBackward C total; EvOptStep C;
                   EvPrintLoss C (total / inject_Z (Z.of_nat (time_length td)))] /\
    world s' = optimizer_step C (backward C total w_loop).
Proof.
  unfold train_epoch. intros H.
  bind_inv H as s1 u1 H1. apply exec_inr in H1. destruct H1 as [W1 T1].
  bind_inv H as s2 u2 H2. apply emit_inr in H2. destruct H2 as [W2 T2].
  bind_inv H as s3 u3 H3. apply exec_inr in H3. destruct H3 as [W3 T3].
  bind_inv H as s4 vars HL. destruct vars as [h' total_loss].
  apply egcno_train_loop_calls in HL.
  destruct HL as [its [Hall [Hcs [TL Hsum]]]]. simpl in Hsum.
  destruct total_loss as [| v].
  - unfold raise in H. discriminate.
  - bind_inv H as s5 u5 H5. apply exec_inr in H5. destruct H5 as [W5 T5].
    bind_inv H as s6 u6 H6. apply emit_inr in H6. destruct H6 as [W6 T6].
    bind_inv H as s7 u7 H7. apply exec_inr in H7. destruct H7 as [W7 T7].
    bind_inv H as s8 u8 H8. apply emit_inr in H8. destruct H8 as [W8 T8].
    bind_inv H as s9 u9 H9. apply emit_inr in H9. destruct H9 as [W9 T9].
    inversion H; subst s9 h'. clear H.
    exists its, v, (world s4). split; [exact Hall |]. split; [| split; [| split]].
    + rewrite W3, W2, W1 in Hcs. exact Hcs.
    + rewrite Hsum. ring.
    + rewrite T9, T8, T7, T6, T5, TL, T3, T2, T1.
      repeat rewrite <- app_assoc. reflexivity.
    + rewrite W9, W8, W7, W6, W5. reflexivity.
Qed.

End EgcnoCalls.

Section GclstmCalls.

Import Gclstm.

Variable C : collaborators.

Lemma gclstm_train_snapshot_calls td n t vars s s' vars' :
  train_snapshot C td n t vars s = (s', inr vars') ->
  exists it,
    shifted C td t it /\
    it_h_in C it = tv_h C vars /\
    it_c_in C it = tv_c C vars /\
    iteration_calls C n (world s) it (world s') /\
    tv_h C vars' = Some (attached (fst (it_out C it))) /\
    tv_c C vars' = Some (attached (snd (it_out C it))) /\
    tv_loss C vars' =
      add_tensor (add_tensor (tv_loss C vars) (it_pos_loss C it)) (it_neg_loss C it) /\
    tv_total_loss C vars' =
      (tv_total_loss C vars
       + float_of (tv_loss C vars) * inject_Z (Z.of_nat (size1 (it_feed C it))))%Q /\
    trace s' = trace s ++ iteration_events C n it.
Proof.
  unfold train_snapshot. intros H.
  bind_inv H as s0 pos Hg. apply getitem_inr in Hg. destruct Hg as [-> Hpos].
  bind_inv H as s1 neg Hn. apply call_inr in Hn. destruct Hn as [Hwn Htn].
  bind_inv H as s2 u He. apply emit_inr in He. destruct He as [Hwe Hte].
  bind_inv H as s3 fhc Hb. destruct fhc as [feed [h c]].
  assert (Hfeed : nth_error (edge_index td) (t - 1) = Some feed /\
                  advance C (has_edge_attr td) feed (tv_h C vars) (tv_c C vars) s2
                  = (s3, inr (h, c))).
  { destruct (Nat.eqb_spec t 0) as [-> | Hne].
    - bind_inv Hb as s4 hc Ha. inversion Hb; subst. simpl. auto.
    - bind_inv Hb as s4 prev Hg. apply getitem_inr in Hg. destruct Hg as [-> Hprev].
      bind_inv Hb as s5 hc Ha. inversion Hb; subst. auto. }
  destruct Hfeed as [Hfd Hadv]. clear Hb.
  assert (Hm : has_edge_attr td = false /\
               exists out,
                 model_fwd C (world s2) feed (ones (size1 feed) edge_feat_dim)
                   (option_map (@data _) (tv_h C vars)) (option_map (@data _) (tv_c C vars))
                 = (world s3, out) /\
                 (h, c) = (attached (fst out), attached (snd out)) /\
                 trace s3 = trace s2
                            ++ [EvModel C feed (ones (size1 feed) edge_feat_dim)
                                  (tv_h C vars) (tv_c C vars) out]).
  { unfold advance in Hadv. destruct (has_edge_attr td); simpl in Hadv.
    - unfold bind, raise in Hadv. discriminate.
    - split; [reflexivity |].
      bind_inv Hadv as sa w Hg. inversion Hg; subst sa w. clear Hg.
      bind_inv Hadv as sb out Hc. apply call_inr in Hc. destruct Hc as [Hw Ht].
      bind_inv Hadv as sc u' He'. apply emit_inr in He'. destruct He' as [Hw1 Ht1].
      inversion Hadv; subst. exists out. repeat split.
      + rewrite Hw1. exact Hw.
      + rewrite Ht1, Ht. reflexivity. }
  destruct Hm as [Hattr [out [Hmw [Hhc Hta]]]].
  inversion Hhc; subst h c. clear Hhc.
  bind_inv H as s4 pos_out Hp. unfold link_pred in Hp.
  bind_inv Hp as s4' u4 Hp1. apply emit_inr in Hp1. destruct Hp1 as [Hwp1 Htp1].
  apply call_inr in Hp. destruct Hp as [Hwp Htp].
  bind_inv H as s5 neg_out Hq. unfold link_pred in Hq.
  bind_inv Hq as s5' u5 Hq1. apply emit_inr in Hq1. destruct Hq1 as [Hwq1 Htq1].
  apply call_inr in Hq. destruct Hq as [Hwq Htq].
  bind_inv H as s6 lp Hlp. unfold crit in Hlp.
  bind_inv Hlp as s6' u6 Hl6. apply emit_inr in Hl6. destruct Hl6 as [Hw6 Htc].
  inversion Hlp; subst s6 lp. clear Hlp.
  bind_inv H as s7 ln Hln. unfold crit in Hln.
  bind_inv Hln as s7' u7 Hl7. apply emit_inr in Hl7. destruct Hl7 as [Hw7 Htd].
  inversion Hln; subst s7 ln. clear Hln.
  inversion H; subst s7' vars'. clear H.
  exists {| it_pos := pos; it_neg_edges := neg; it_feed := feed;
            it_h_in := tv_h C vars; it_c_in := tv_c C vars; it_out := out;
            it_pos_out := pos_out; it_neg_out := neg_out |}.
  unfold shifted. simpl.
  split; [split; assumption |].
  split; [reflexivity |]. split; [reflexivity |].
  split; [| split; [reflexivity | split; [reflexivity | split; [reflexivity | split;
    [reflexivity |]]]]].
  - exists (world s1), (world s3), (world s4). simpl.
    rewrite Hwe in Hmw. rewrite Hwp1 in Hwp. rewrite Hwq1 in Hwq. rewrite Hw7, Hw6.
    repeat split; assumption.
  - unfold iteration_events, it_pos_loss, it_neg_loss. simpl.
    rewrite Htd, Htc, Htq, Htq1, Htp, Htp1, Hta, Hte, Htn.
    repeat rewrite <- app_assoc. reflexivity.
Qed.

Lemma gclstm_train_loop_calls td n l : forall vars s s' vars',
  for_each l (train_snapshot C td n) vars s = (s', inr vars') ->
  exists its,
    Forall2 (shifted C td) l its /\
    iterations_calls C n (world s) (tv_h C vars) (tv_c C vars) its (world s') /\
    trace s' = trace s ++ flat_map (iteration_events C n) its /\
    (float_of (tv_loss C vars')
     == float_of (tv_loss C vars) + Qsum (map (it_loss C) its))%Q /\
    (tv_total_loss C vars'
     == tv_total_loss C vars + total_from C (float_of (tv_loss C vars)) its)%Q.
Proof.
  induction l as [| t l IH]; intros vars s s' vars' H; simpl in H.
  - inversion H; subst. exists []. simpl. rewrite app_nil_r.
    repeat split; auto.
    + unfold Qsum. simpl. ring.
    + unfold total_from, Qsum. simpl. ring.
  - bind_inv H as s1 vars1 Hstep.
    apply gclstm_train_snapshot_calls in Hstep.
    destruct Hstep as [it [Hsh [Hh [Hc [Hcalls [Hh' [Hc' [Hl [Htl Ht]]]]]]]]].
    destruct (IH _ _ _ _ H) as [its [Hall [Hcs [Ht' [Hsum Htot]]]]].
    exists (it :: its). split; [| split; [| split; [| split]]].
    + constructor; assumption.
    + simpl. split; [exact Hh |]. split; [exact Hc |].
      exists (world s1). split; [exact Hcalls |].
      rewrite Hh', Hc' in Hcs. exact Hcs.
    + simpl. rewrite Ht', Ht, <- app_assoc. reflexivity.
    + simpl. rewrite Hsum, Hl, Qsum_cons. rewrite !float_of_add_tensor.
      unfold it_loss. ring.
    + rewrite Htot, Htl, total_from_cons.
      rewrite (total_from_ext C (float_of (tv_loss C vars1))
                 (float_of (tv_loss C vars) + it_loss C it)%Q).
      * ring.
      * rewrite Hl, !float_of_add_tensor. unfold it_loss. ring.
Qed.

Lemma gclstm_train_epoch_calls td n s s' h c total_loss :
  train_epoch C td n s = (s', inr (h, c, total_loss)) ->
  exists its loss w_loop,
    Forall2 (shifted C td) (seq 0 (time_length td)) its /\
    iterations_calls C n (set_training C true (world s)) None None its w_loop /\
    (loss == Qsum (map (it_loss C) its))%Q /\
    (total_loss == shifted_total C its)%Q /\
    trace s' = trace s
               ++ flat_map (iteration_events C n) its
               ++ [EvBackward C loss; EvOptStep C; EvZeroGrad C;
                   EvPrintLoss C (total_loss / inject_Z (Z.of_nat n))] /\
    world s' = zero_grad C (optimizer_step C (backward C loss w_loop)).
Proof.
  unfold train_epoch, train_loop. intros H.
  bind_inv H as s1 u1 H1. apply exec_inr in H1. destruct H1 as [W1 T1].
  bind_inv H as s2 vars HL.
  apply gclstm_train_loop_calls in HL.
  destruct HL as [its [Hall [Hcs [TL [Hsum Htot]]]]]. simpl in Hsum, Htot, Hcs.
  destruct (tv_loss C vars) as [| v] eqn:El.
  - unfold raise in H. discriminate.
  - bind_inv H as s5 u5 H5. apply exec_inr in H5. destruct H5 as [W5 T5].
    bind_inv H as s6 u6 H6. apply emit_inr in H6. destruct H6 as [W6 T6].
    bind_inv H as s7 u7 H7. apply exec_inr in H7. destruct H7 as [W7 T7].
    bind_inv H as s8 u8 H8. apply emit_inr in H8. destruct H8 as [W8 T8].
    bind_inv H as s9 u9 H9. apply exec_inr in H9. destruct H9 as [W9 T9].
    bind_inv H as s10 u10 H10. apply emit_inr in H10. destruct H10 as [W10 T10].
    bind_inv H as s11 u11 H11. apply emit_inr in H11. destruct H11 as [W11 T11].
    inversion H; subst. clear H.
    exists its, v, (world s2). split; [exact Hall |].
    split; [| split; [| split; [| split]]].
    + rewrite W1 in Hcs. exact Hcs.
    + simpl in Hsum. rewrite Hsum. ring.
    + rewrite Htot, total_from_zero. ring.
    + rewrite T11, T10, T9, T8, T7, T6, T5, TL, T1.
      repeat rewrite <- app_assoc. reflexivity.
    + rewrite W11, W10, W9, W8, W7, W6, W5. reflexivity.
Qed.

End GclstmCalls.

(** C6.  In a training epoch that completes, of either script, the
    iterations over the snapshots only call the encoder, the sampler of
    negatives and the decoder, one iteration after the other from the
    world the epoch started in; every criterion term is computed from
    what the decoder returned, against targets all ones for the
    positive scores and all zeros for the negative ones; the loss is
    the sum of the terms of all iterations; and after the last
    iteration the world is changed by one backward pass of that loss
    followed by one optimizer step, and by nothing else (but the
    [zero_grad], before the loop in the EvolveGCN-O script and after the
    step in the GC-LSTM one).  The trace shows the same: no optimizer
    step within the iterations, one in the epoch. *)
Theorem C6_one_optimizer_step_per_epoch :
  (forall (C : Egcno.collaborators) td n s s' h,
      Egcno.train_epoch C td n s = (s', inr h) ->
      exists its total w_loop,
        length its = Egcno.time_length td /\
        Forall2 (Egcno.shifted C td) (seq 0 (Egcno.time_length td)) its /\
        Egcno.iterations_calls C n
          (Egcno.set_training C true (Egcno.zero_grad C (world s))) its w_loop /\
        (total == Qsum (map (Egcno.it_loss C) its))%Q /\
        world s' = Egcno.optimizer_step C (Egcno.backward C total w_loop) /\
        trace s' = trace s
                   ++ [Egcno.EvZeroGrad C]
                   ++ flat_map (Egcno.iteration_events C n) its
                   ++ [Egcno.EvBackward C total; Egcno.EvOptStep C;
                       Egcno.EvPrintLoss C
                         (total / inject_Z (Z.of_nat (Egcno.time_length td)))] /\
        Egcno.count_opt_steps (flat_map (Egcno.iteration_events C n) its) = 0%nat /\
        Egcno.count_opt_steps
          ([Egcno.EvZeroGrad C]
           ++ flat_map (Egcno.iteration_events C n) its
           ++ [Egcno.EvBackward C total; Egcno.EvOptStep C;
               Egcno.EvPrintLoss C
                 (total / inject_Z (Z.of_nat (Egcno.time_length td)))]) = 1%nat)
  /\
  (forall (C : Gclstm.collaborators) td n s s' h c total_loss,
      Gclstm.train_epoch C td n s = (s', inr (h, c, total_loss)) ->
      exists its loss w_loop,
        length its = Gclstm.time_length td /\
        Forall2 (Gclstm.shifted C td) (seq 0 (Gclstm.time_length td)) its /\
        Gclstm.iterations_calls C n (Gclstm.set_training C true (world s))
          None None its w_loop /\
        (loss == Qsum (map (Gclstm.it_loss C) its))%Q /\
        world s'
        = Gclstm.zero_grad C (Gclstm.optimizer_step C (Gclstm.backward C loss w_loop)) /\
        trace s' = trace s
                   ++ flat_map (Gclstm.iteration_events C n) its
                   ++ [Gclstm.EvBackward C loss; Gclstm.EvOptStep C; Gclstm.EvZeroGrad C;
                       Gclstm.EvPrintLoss C (total_loss / inject_Z (Z.of_nat n))] /\
        Gclstm.count_opt_steps (flat_map (Gclstm.iteration_events C n) its) = 0%nat /\
        Gclstm.count_opt_steps
          (flat_map (Gclstm.iteration_events C n) its
           ++ [Gclstm.EvBackward C loss; Gclstm.EvOptStep C; Gclstm.EvZeroGrad C;
               Gclstm.EvPrintLoss C (total_loss / inject_Z (Z.of_nat n))]) = 1%nat).
Proof.
  split.
  - intros C td n s s' h H.
    destruct (egcno_train_epoch_calls _ _ _ _ _ _ H)
      as [its [total [w_loop [Hall [Hcs [Hsum [Ht Hw]]]]]]].
    exists its, total, w_loop.
    split; [apply Forall2_length in Hall; rewrite length_seq in Hall; auto |].
    split; [exact Hall |]. split; [exact Hcs |]. split; [exact Hsum |].
    split; [exact Hw |]. split; [exact Ht |]. split.
    + apply egcno_iterations_no_opt_step.
    + unfold Egcno.count_opt_steps. rewrite !filter_app, !length_app.
      fold (Egcno.count_opt_steps (flat_map (Egcno.iteration_events C n) its)).
      rewrite egcno_iterations_no_opt_step. reflexivity.
  - intros C td n s s' h c total_loss H.
    destruct (gclstm_train_epoch_calls _ _ _ _ _ _ _ _ H)
      as [its [loss [w_loop [Hall [Hcs [Hsum [_ [Ht Hw]]]]]]]].
    exists its, loss, w_loop.
    split; [apply Forall2_length in Hall; rewrite length_seq in Hall; auto |].
    split; [exact Hall |]. split; [exact Hcs |]. split; [exact Hsum |].
    split; [exact Hw |]. split; [exact Ht |]. split.
    + apply gclstm_iterations_no_opt_step.
    + unfold Gclstm.count_opt_steps. rewrite !filter_app, !length_app.
      fold (Gclstm.count_opt_steps (flat_map (Gclstm.iteration_events C n) its)).
      rewrite gclstm_iterations_no_opt_step. reflexivity.
Qed.

Lemma C6_witness :
  (exists its total w_loop,
      length its = 3%nat /\
      Egcno.iterations_calls Demo.egcno 5 0%nat its w_loop /\
      (total == Qsum (map (Egcno.it_loss Demo.egcno) its))%Q /\
      world (fst (Egcno.train_epoch Demo.egcno Demo.egcno_train 5 Demo.egcno_init))
      = S w_loop)
  /\
  (exists its loss w_loop,
      length its = 3%nat /\
      Gclstm.iterations_calls Demo.gclstm 5 0%nat None None its w_loop /\
      (loss == Qsum (map (Gclstm.it_loss Demo.gclstm) its))%Q /\
      world (fst (Gclstm.train_epoch Demo.gclstm Demo.gclstm_train 5 Demo.gclstm_init))
      = S w_loop).
Proof.
  split.
  - pose (X := Egcno.train_epoch Demo.egcno Demo.egcno_train 5 Demo.egcno_init).
    assert (E : X = (fst X, inr (Some (attached Demo.snap1))))
      by (apply pair_of_snd; vm_compute; reflexivity).
    destruct (proj1 C6_one_optimizer_step_per_epoch Demo.egcno Demo.egcno_train 5%nat
                Demo.egcno_init (fst X) (Some (attached Demo.snap1)) E)
      as [its [total [w_loop [H1 [_ [H2 [H3 [H4 _]]]]]]]].
    exists its, total, w_loop. repeat split; assumption.
  - pose (X := Gclstm.train_epoch Demo.gclstm Demo.gclstm_train 5 Demo.gclstm_init).
    assert (E : X = (fst X, inr (Some (attached Demo.snap1), Some (attached tt),
                                 (579993600000000000000 # 163840000000000000000)%Q)))
      by (apply pair_of_snd; vm_compute; reflexivity).
    destruct (proj2 C6_one_optimizer_step_per_epoch Demo.gclstm Demo.gclstm_train 5%nat
                Demo.gclstm_init (fst X) _ _ _ E)
      as [its [loss [w_loop [H1 [_ [H2 [H3 [H4 _]]]]]]]].
    exists its, loss, w_loop. repeat split; assumption.
Defined.

(** C10.  In a training epoch of the GC-LSTM script that completes, with
    the iterations as the calls of the epoch made them (every score
    vector what the decoder returned, every loss term the criterion on
    it), the [total_loss] that is reported (divided by [num_nodes]) is
    the sum, over the iterations [t], of the loss accumulated through
    iteration [t - 1] times the number of edges fed at iteration [t],
    while the loss that is back-propagated is the sum of all terms.
    The loss terms of the last iteration do not enter [total_loss], and
    in an epoch of one snapshot it is zero. *)
Theorem C10_gclstm_total_loss_lags_one_snapshot :
  forall (C : Gclstm.collaborators) td n s s' h c total_loss,
    Gclstm.train_epoch C td n s = (s', inr (h, c, total_loss)) ->
    exists its loss w_loop,
      Forall2 (Gclstm.shifted C td) (seq 0 (Gclstm.time_length td)) its /\
      Gclstm.iterations_calls C n (Gclstm.set_training C true (world s))
        None None its w_loop /\
      trace s' = trace s
                 ++ flat_map (Gclstm.iteration_events C n) its
                 ++ [Gclstm.EvBackward C loss; Gclstm.EvOptStep C; Gclstm.EvZeroGrad C;
                     Gclstm.EvPrintLoss C (total_loss / inject_Z (Z.of_nat n))] /\
      (loss == Qsum (map (Gclstm.it_loss C) its))%Q /\
      (total_loss == Gclstm.shifted_total C its)%Q /\
      (forall front last,
          its = front ++ [last] ->
          (total_loss
           == Gclstm.shifted_total C front
              + Qsum (map (Gclstm.it_loss C) front)
                * inject_Z (Z.of_nat (size1 (Gclstm.it_feed C last))))%Q) /\
      (Gclstm.time_length td = 1%nat ->
       (total_loss == 0)%Q /\ (total_loss / inject_Z (Z.of_nat n) == 0)%Q).
Proof.
  intros C td n s s' h c total_loss H.
  destruct (gclstm_train_epoch_calls _ _ _ _ _ _ _ _ H)
    as [its [loss [w_loop [Hall [Hcs [Hsum [Htot [Ht _]]]]]]]].
  assert (Hsnoc : forall front last,
             its = front ++ [last] ->
             (total_loss
              == Gclstm.shifted_total C front
                 + Qsum (map (Gclstm.it_loss C) front)
                   * inject_Z (Z.of_nat (size1 (Gclstm.it_feed C last))))%Q).
  { intros front last ->.
    rewrite Htot, <- !total_from_zero, total_from_snoc. ring. }
  exists its, loss, w_loop.
  split; [exact Hall |]. split; [exact Hcs |]. split; [exact Ht |].
  split; [exact Hsum |]. split; [exact Htot |]. split; [exact Hsnoc |].
  intros HT. split.
  - destruct its as [| it [| it' its']];
      apply Forall2_length in Hall; rewrite length_seq, HT in Hall; try discriminate.
    rewrite (Hsnoc [] it eq_refl). unfold Gclstm.shifted_total, Qsum. simpl. ring.
  - destruct its as [| it [| it' its']];
      apply Forall2_length in Hall; rewrite length_seq, HT in Hall; try discriminate.
    rewrite (Hsnoc [] it eq_refl). unfold Gclstm.shifted_total, Qsum. simpl.
    unfold Qdiv. ring.
Qed.

Lemma C10_witness :
  exists its loss w_loop,
    Gclstm.iterations_calls Demo.gclstm 5 0%nat None None its w_loop /\
    (loss == Qsum (map (Gclstm.it_loss Demo.gclstm) its))%Q /\
    (579993600000000000000 # 163840000000000000000
     == Gclstm.shifted_total Demo.gclstm its)%Q.
Proof.
  pose (X := Gclstm.train_epoch Demo.gclstm Demo.gclstm_train 5 Demo.gclstm_init).
  assert (E : X = (fst X, inr (Some (attached Demo.snap1), Some (attached tt),
                               (579993600000000000000 # 163840000000000000000)%Q)))
    by (apply pair_of_snd; vm_compute; reflexivity).
  destruct (C10_gclstm_total_loss_lags_one_snapshot Demo.gclstm Demo.gclstm_train 5%nat
              Demo.gclstm_init (fst X) _ _ _ E)
    as [its [loss [w_loop [_ [H1 [_ [H2 [H3 _]]]]]]]].
  exists its, loss, w_loop. repeat split; assumption.
Defined.

(** ** The EvolveGCN-O script: what an epoch reports *)

Section EgcnoReports.

Import Egcno.

Variable C : collaborators.

Lemma egcno_advance_quiet b index : emits (quiet C) (advance C b index).
Proof. unfold advance. emits_auto. Qed.

Lemma egcno_link_pred_quiet r h a b : emits (quiet C) (link_pred C r h a b).
Proof. unfold link_pred. emits_auto. Qed.

Lemma egcno_crit_quiet pred target : emits (quiet C) (crit C pred target).
Proof. unfold crit. emits_auto. Qed.

#[local] Hint Resolve egcno_advance_quiet egcno_link_pred_quiet egcno_crit_quiet : emits_db.

Lemma egcno_train_epoch_quiet td n : emits (quiet C) (train_epoch C td n).
Proof. unfold train_epoch, train_snapshot. emits_auto. Qed.

Lemma egcno_score_snapshot_quiet sp h t pos perf :
  emits (quiet C) (score_snapshot C sp h t pos perf).
Proof. unfold score_snapshot, score_batch. emits_auto. Qed.

#[local] Hint Resolve egcno_score_snapshot_quiet : emits_db.

Lemma egcno_val_snapshot_quiet vd t vars : emits (quiet C) (val_snapshot C vd t vars).
Proof. unfold val_snapshot. emits_auto. Qed.

Lemma egcno_test_snapshot_quiet vd t vars : emits (quiet C) (test_snapshot C vd t vars).
Proof. unfold test_snapshot. emits_auto. Qed.

Lemma egcno_detach_var_inr h s s' h' :
  detach_var C h s = (s', inr h') -> s' = s /\ requires_grad h' = false.
Proof.
  unfold detach_var. destruct h; intros H; inversion H; subst; auto.
Qed.

Lemma egcno_val_epoch_inr vd h s s' h' v :
  val_epoch C vd h s = (s', inr (h', v)) ->
  exists pre,
    Forall (quiet C) pre /\
    trace s' = trace s ++ pre ++ [EvPrintVal C v].
Proof.
  unfold val_epoch. intros H.
  bind_inv H as s1 u1 H1. apply exec_inr in H1. destruct H1 as [_ T1].
  bind_inv H as s2 u2 H2. apply emit_inr in H2. destruct H2 as [_ T2].
  bind_inv H as s3 k H3. apply min_key_inr in H3. subst s3.
  bind_inv H as s4 hd H4. apply egcno_detach_var_inr in H4. destruct H4 as [-> _].
  bind_inv H as s5 acc H5. destruct acc as [h1 perf].
  destruct (emits_for_each (quiet C) _ _ (egcno_val_snapshot_quiet vd) _ _ _ _ H5)
    as [new [T5 Q5]].
  bind_inv H as s6 u6 H6. apply emit_inr in H6. destruct H6 as [_ T6].
  inversion H; subst. clear H.
  exists (EvLoadEvalSet C SplitVal :: new). split.
  - constructor; [reflexivity | exact Q5].
  - rewrite T6, T5, T2, T1. simpl. repeat rewrite <- app_assoc. reflexivity.
Qed.

Lemma egcno_test_epoch_inr ted h s s' tv :
  test_epoch C ted h s = (s', inr tv) ->
  exists pre,
    Forall (quiet C) pre /\
    trace s' = trace s ++ pre ++ [EvPrintTest C tv].
Proof.
  unfold test_epoch. intros H.
  bind_inv H as s1 u1 H1. apply emit_inr in H1. destruct H1 as [_ T1].
  bind_inv H as s2 u2 H2. apply emit_inr in H2. destruct H2 as [_ T2].
  bind_inv H as s3 k H3. apply min_key_inr in H3. subst s3.
  bind_inv H as s5 acc H5. destruct acc as [h1 perf].
  destruct (emits_for_each (quiet C) _ _ (egcno_test_snapshot_quiet ted) _ _ _ _ H5)
    as [new [T5 Q5]].
  bind_inv H as s6 u6 H6. apply emit_inr in H6. destruct H6 as [_ T6].
  inversion H; subst. clear H.
  exists (EvLoadEvalSet C SplitTest :: EvLoadEvalSet C SplitTest :: new). split.
  - repeat constructor. exact Q5.
  - rewrite T6, T5, T2, T1. simpl. repeat rewrite <- app_assoc. reflexivity.
Qed.

(** The branch after validation, case by case. *)
Lemma egcno_after_validation_inr a ted e h v r s s' r' brk :
  after_validation C a ted e h v r s = (s', inr (r', brk)) ->
  (gt_float v (best_val r) = false /\ s' = s /\ r' = r /\ brk = false)
  \/
  (gt_float v (best_val r) = true /\
   exists tpre tv,
     Forall (quiet C) tpre /\
     r' = {| best_val := value_of v; best_test := tv; best_epoch := e |} /\
     brk = ((Z.of_nat e - Z.of_nat (best_epoch r) >=? patience a)%Z && (1 <? e))%bool /\
     trace s' = trace s ++ tpre ++ [EvPrintTest C tv]
                ++ (if brk then [EvRunFinishes C true r'] else [])).
Proof.
  unfold after_validation. intros H.
  destruct v as [| q]; simpl.
  - left. inversion H; subst. auto.
  - destruct (Qgtb q (best_val r)) eqn:G.
    + right. split; [reflexivity |].
      unfold improved in H.
      bind_inv H as s1 tv Ht. apply egcno_test_epoch_inr in Ht.
      destruct Ht as [tpre [Qt Tt]].
      exists tpre, tv. split; [exact Qt |].
      destruct ((Z.of_nat e - Z.of_nat (best_epoch r) >=? patience a)%Z && (1 <? e))%bool.
      * bind_inv H as s2 u2 He. apply emit_inr in He. destruct He as [_ Te].
        inversion H; subst. repeat split; auto.
        rewrite Te, Tt. repeat rewrite <- app_assoc. reflexivity.
      * inversion H; subst. repeat split; auto.
    + left. inversion H; subst. auto.
Qed.

(** One epoch that completes: what it reports and what becomes of the
    run record. *)
Lemma egcno_epoch_body_inr a td vd ted e r s s' r' brk :
  epoch_body C a td vd ted e r s = (s', inr (r', brk)) ->
  exists v pre post,
    Forall (quiet C) pre /\
    trace s' = trace s ++ pre ++ [EvPrintVal C v] ++ post /\
    ((gt_float v (best_val r) = false /\ post = [] /\ r' = r /\ brk = false)
     \/
     (gt_float v (best_val r) = true /\
      exists tpre tv,
        Forall (quiet C) tpre /\
        r' = {| best_val := value_of v; best_test := tv; best_epoch := e |} /\
        brk = ((Z.of_nat e - Z.of_nat (best_epoch r) >=? patience a)%Z && (1 <? e))%bool /\
        post = tpre ++ [EvPrintTest C tv]
               ++ (if brk then [EvRunFinishes C true r'] else []))).
Proof.
  unfold epoch_body. intros H.
  bind_inv H as s1 h Htr.
  apply egcno_train_epoch_quiet in Htr. destruct Htr as [n1 [T1 Q1]].
  bind_inv H as s2 hv Hv. destruct hv as [h2 v].
  apply egcno_val_epoch_inr in Hv. destruct Hv as [n2 [Q2 T2]].
  apply egcno_after_validation_inr in H.
  exists v, (n1 ++ n2).
  destruct H as [[G [-> [-> ->]]] | [G [tpre [tv [Qt [-> [Eb Tt]]]]]]].
  - exists []. split; [apply Forall_app; auto |]. split.
    + rewrite T2, T1. rewrite app_nil_r. repeat rewrite <- app_assoc. reflexivity.
    + left. auto.
  - eexists. split; [apply Forall_app; auto |]. split.
    + rewrite Tt, T2, T1. repeat rewrite <- app_assoc. reflexivity.
    + right. split; [exact G |]. exists tpre, tv. auto.
Qed.

End EgcnoReports.

(** ** The EvolveGCN-O script: the loop over epochs *)

Section EgcnoRun.

Import Egcno.

Variable C : collaborators.

Lemma egcno_quiet_projections (l : list (event C)) :
  Forall (fun e => is_report e = false) l ->
  reports l = [] /\ vals l = [] /\ count_test l = 0%nat.
Proof.
  unfold count_test.
  induction 1 as [| e l He Hl [IH1 [IH2 IH3]]]; simpl; auto.
  rewrite IH1, IH2. destruct e; simpl in *; try discriminate; auto.
Qed.

Lemma egcno_count_test_app (l1 l2 : list (event C)) :
  count_test (l1 ++ l2) = (count_test l1 + count_test l2)%nat.
Proof. unfold count_test. rewrite filter_app, length_app. reflexivity. Qed.

(** What one completed epoch adds to the trace, as the projections see
    it, and what it does to the record. *)
Lemma egcno_epoch_summary a td vd ted e r s s' r' brk :
  epoch_body C a td vd ted e r s = (s', inr (r', brk)) ->
  exists v new,
    trace s' = trace s ++ new /\
    vals new = [v] /\
    In (EvPrintVal C v) new /\
    (if gt_float v (best_val r)
     then reports new = [RVal v; RTest] /\
          count_test new = 1%nat /\
          best_val r' = value_of v /\
          best_epoch r' = e /\
          brk = ((Z.of_nat e - Z.of_nat (best_epoch r) >=? patience a)%Z && (1 <? e))%bool
     else reports new = [RVal v] /\
          count_test new = 0%nat /\
          r' = r /\
          brk = false).
Proof.
  intros H. apply egcno_epoch_body_inr in H.
  destruct H as [v [pre [post [Qp [T Hcase]]]]].
  destruct (egcno_quiet_projections pre Qp) as [Rp [Vp Cp]].
  exists v, (pre ++ [EvPrintVal C v] ++ post).
  split; [exact T |].
  destruct Hcase as [[G [-> [-> ->]]] | [G [tpre [tv [Qt [-> [Eb ->]]]]]]].
  - rewrite G. unfold vals, reports in *.
    rewrite !flat_map_app, ?egcno_count_test_app, Rp, Vp, Cp. simpl.
    repeat split; auto. apply in_or_app. right. left. reflexivity.
  - rewrite G. destruct (egcno_quiet_projections tpre Qt) as [Rt [Vt Ct]].
    unfold vals, reports in *.
    rewrite !flat_map_app, ?egcno_count_test_app, Rp, Vp, Cp, Rt, Vt, Ct.
    split; [| split].
    + simpl. destruct brk; reflexivity.
    + apply in_or_app. right. left. reflexivity.
    + simpl. repeat split; auto; destruct brk; reflexivity.
Qed.

(** The reports of a run follow the best-tracking rule, and the record
    it ends with carries the best metric. *)
Lemma egcno_epochs_loop_reports a td vd ted l : forall r s s' r' brk,
  epochs_loop C a td vd ted l r s = (s', inr (r', brk)) ->
  exists new,
    trace s' = trace s ++ new /\
    reports new = expected_reports (best_val r) (vals new) /\
    count_test new = improvements (best_val r) (vals new) /\
    (best_val r <= best_val r')%Q.
Proof.
  unfold epochs_loop.
  induction l as [| e l IH]; intros r s s' r' brk H; simpl in H.
  - inversion H; subst. exists []. rewrite app_nil_r. simpl.
    repeat split; auto. apply Qle_refl.
  - bind_inv H as s1 rb Hb. destruct rb as [r1 b1].
    apply egcno_epoch_summary in Hb. destruct Hb as [v [n1 [T1 [V1 [_ Hcase]]]]].
    assert (Hrest : exists n2,
               trace s' = trace s1 ++ n2 /\
               reports n2 = expected_reports (best_val r1) (vals n2) /\
               count_test n2 = improvements (best_val r1) (vals n2) /\
               (best_val r1 <= best_val r')%Q).
    { destruct b1.
      - inversion H; subst. exists []. rewrite app_nil_r. simpl.
        repeat split; auto. apply Qle_refl.
      - apply IH in H. exact H. }
    destruct Hrest as [n2 [T2 [R2 [C2 L2]]]].
    exists (n1 ++ n2). split; [rewrite T2, T1, app_assoc; reflexivity |].
    unfold vals, reports in *. rewrite !flat_map_app, egcno_count_test_app, V1.
    simpl. destruct (gt_float v (best_val r)) eqn:G.
    + destruct Hcase as [R1 [C1 [Bv [Be Eb]]]].
      rewrite R1, C1, R2, C2, Bv. simpl. repeat split; auto.
      apply Qle_trans with (best_val r1); [| exact L2].
      rewrite Bv. destruct v as [| q]; simpl in G; [discriminate |].
      simpl. unfold Qgtb in G. apply negb_true_iff in G.
      destruct (Qlt_le_dec (best_val r) q) as [Hlt | Hle].
      * apply Qlt_le_weak. exact Hlt.
      * apply Qle_bool_iff in Hle. congruence.
    + destruct Hcase as [R1 [C1 [-> _]]].
      rewrite R1, C1, R2, C2. simpl. repeat split; auto.
Qed.

End EgcnoRun.

(** ** The GC-LSTM script has no test evaluation *)

Section GclstmNoTest.

Import Gclstm.

Variable C : collaborators.

Lemma gclstm_main_no_test td vd :
  emits (fun e : event C => is_test_event C e = false) (main C td vd).
Proof.
  unfold main, epoch_body, train_epoch, train_loop, train_snapshot, val_epoch,
    val_snapshot, score_snapshot, score_batch, advance, link_pred, crit, detach_var.
  emits_auto.
Qed.

End GclstmNoTest.

(** C2, as amended.  In a run of the EvolveGCN-O script that completes,
    the validation and test reports come in this order: for every epoch
    carried out, its validation report, followed by a test report
    exactly when the metric is strictly greater than [best_val], which
    is 0 at the start of the run and the greatest metric reported
    before otherwise; so the number of test evaluations is the number
    of strict-improvement epochs.  The GC-LSTM script never evaluates
    the test split. *)
Theorem C2_test_evaluation_on_strict_improvement :
  (forall (C : Egcno.collaborators) a td vd ted s s' r brk,
      Egcno.run C a td vd ted s = (s', inr (r, brk)) ->
      exists new,
        trace s' = trace s ++ new /\
        Egcno.reports new = expected_reports 0 (Egcno.vals new) /\
        Egcno.count_test new = improvements 0 (Egcno.vals new))
  /\
  (forall (C : Gclstm.collaborators) td vd s s' r,
      Gclstm.main C td vd s = (s', r) ->
      exists new,
        trace s' = trace s ++ new /\
        Gclstm.count_test new = 0%nat).
Proof.
  split.
  - intros C a td vd ted s s' r brk H. unfold Egcno.run in H.
    bind_inv H as s1 rb HL. destruct rb as [r1 b1].
    apply egcno_epochs_loop_reports in HL.
    destruct HL as [new [T [R [Ct _]]]]. simpl in R, Ct.
    bind_inv H as s2 u He. apply emit_inr in He. destruct He as [_ Te].
    inversion H; subst. clear H.
    exists (new ++ [Egcno.EvRunFinishes C false r]). split.
    + rewrite Te, T, app_assoc. reflexivity.
    + unfold Egcno.vals, Egcno.reports in *.
      rewrite !flat_map_app, egcno_count_test_app. simpl.
      rewrite !app_nil_r, R, Ct. unfold Egcno.count_test. simpl. auto.
  - intros C td vd s s' r H.
    destruct (gclstm_main_no_test C td vd _ _ _ H) as [new [T Q]].
    exists new. split; [exact T |].
    unfold Gclstm.count_test. clear T.
    induction Q as [| e l He Hl IH]; simpl; [reflexivity |].
    rewrite He. exact IH.
Qed.

Lemma C2_witness :
  exists new,
    Egcno.reports (C := Demo.egcno) new = expected_reports 0 (Egcno.vals new) /\
    Egcno.count_test new = improvements 0 (Egcno.vals new).
Proof.
  pose (X := Egcno.run Demo.egcno (Demo.egcno_args 6 100) Demo.egcno_train
               Demo.egcno_val Demo.egcno_test Demo.egcno_init).
  assert (E : X = (fst X, inr ({| Egcno.best_val := 2 # 2;
                                  Egcno.best_test := Fin (2 # 2);
                                  Egcno.best_epoch := 3 |}, false)))
    by (apply pair_of_snd; vm_compute; reflexivity).
  destruct (proj1 C2_test_evaluation_on_strict_improvement _ _ _ _ _ _ _ _ _ E)
    as [new [T [R Ct]]].
  exists new. split; [exact R | exact Ct].
Defined.

(** C2, as stated, fails on the GC-LSTM script: in the run on the small
    dataset the validation metric of epoch 0 is 1/2, above every
    earlier one, and two epochs are strict improvements, yet no test
    evaluation is carried out. *)
Lemma C2_counterexample :
  let res := Gclstm.main Demo.gclstm Demo.gclstm_train Demo.gclstm_val Demo.gclstm_init in
  snd res = inr tt /\
  nth_error (Gclstm.vals (trace (fst res))) 0 = Some (Fin (4 # 8)) /\
  improvements 0 (Gclstm.vals (trace (fst res))) = 2%nat /\
  Gclstm.count_test (trace (fst res)) = 0%nat.
Proof. vm_compute. repeat split; reflexivity. Qed.

Lemma Qgtb_lt (a b : Q) : Qgtb a b = true <-> (b < a)%Q.
Proof.
  unfold Qgtb. rewrite negb_true_iff. split.
  - intros H. apply Qnot_le_lt. intros Hle. apply Qle_bool_iff in Hle. congruence.
  - intros H. destruct (Qle_bool a b) eqn:E; [| reflexivity].
    apply Qle_bool_iff in E. exfalso. exact (Qlt_not_le _ _ H E).
Qed.

(** C7.  [best_val] is 0 when a run starts; an epoch leaves it as it is
    or replaces it by the validation metric of that epoch, which is
    then strictly greater; and the value after [i] epochs is at most
    the value after [j] epochs whenever [i <= j]. *)
Theorem C7_best_val_non_decreasing :
  forall (C : Egcno.collaborators) a td vd ted,
    Egcno.best_val Egcno.initial_record = 0%Q
    /\
    (forall e r s s' r' brk,
        Egcno.epoch_body C a td vd ted e r s = (s', inr (r', brk)) ->
        Egcno.best_val r' = Egcno.best_val r
        \/
        ((Egcno.best_val r < Egcno.best_val r')%Q /\
         exists new,
           trace s' = trace s ++ new /\
           Egcno.vals new = [Fin (Egcno.best_val r')]))
    /\
    (forall s i j si ri bi sj rj bj,
        (i <= j)%nat ->
        Egcno.epochs_loop C a td vd ted (seq 0 i) Egcno.initial_record s
          = (si, inr (ri, bi)) ->
        Egcno.epochs_loop C a td vd ted (seq 0 j) Egcno.initial_record s
          = (sj, inr (rj, bj)) ->
        (0 <= Egcno.best_val ri)%Q /\ (Egcno.best_val ri <= Egcno.best_val rj)%Q).
Proof.
  intros C a td vd ted. split; [reflexivity |]. split.
  - intros e r s s' r' brk H.
    apply egcno_epoch_summary in H.
    destruct H as [v [new [T [V [_ Hcase]]]]].
    destruct (gt_float v (Egcno.best_val r)) eqn:G.
    + right. destruct Hcase as [_ [_ [Bv _]]].
      destruct v as [| q]; simpl in G; [discriminate |].
      simpl in Bv. apply Qgtb_lt in G. rewrite Bv. split; [exact G |].
      exists new. split; [exact T | exact V].
    + left. destruct Hcase as [_ [_ [-> _]]]. reflexivity.
  - intros s i j si ri bi sj rj bj Hij Hi Hj.
    split.
    + apply egcno_epochs_loop_reports in Hi.
      destruct Hi as [new [_ [_ [_ L]]]]. exact L.
    + replace j with (i + (j - i))%nat in Hj by lia.
      rewrite seq_app in Hj. unfold Egcno.epochs_loop in Hi, Hj.
      rewrite for_each_break_app in Hj.
      unfold bind in Hj. rewrite Hi in Hj. simpl in Hj.
      destruct bi.
      * inversion Hj; subst. apply Qle_refl.
      * apply egcno_epochs_loop_reports in Hj.
        destruct Hj as [new [_ [_ [_ L]]]]. exact L.
Qed.

Lemma C7_witness :
  (0 <= 4 # 8)%Q /\ (4 # 8 <= 2 # 2)%Q.
Proof.
  pose (L := fun n => Egcno.epochs_loop Demo.egcno (Demo.egcno_args 6 100)
                        Demo.egcno_train Demo.egcno_val Demo.egcno_test
                        (seq 0 n) Egcno.initial_record Demo.egcno_init).
  assert (E2 : L 2%nat = (fst (L 2%nat),
                          inr ({| Egcno.best_val := 4 # 8;
                                  Egcno.best_test := Fin (4 # 8);
                                  Egcno.best_epoch := 0 |}, false)))
    by (apply pair_of_snd; vm_compute; reflexivity).
  assert (E5 : L 5%nat = (fst (L 5%nat),
                          inr ({| Egcno.best_val := 2 # 2;
                                  Egcno.best_test := Fin (2 # 2);
                                  Egcno.best_epoch := 3 |}, false)))
    by (apply pair_of_snd; vm_compute; reflexivity).
  destruct (C7_best_val_non_decreasing Demo.egcno (Demo.egcno_args 6 100)
              Demo.egcno_train Demo.egcno_val Demo.egcno_test) as [_ [_ H]].
  exact (H Demo.egcno_init 2%nat 5%nat _ _ _ _ _ _ (proj1 (Nat.leb_le 2 5) eq_refl) E2 E5).
Defined.

(** C3.  In an epoch that completes, the loop over epochs is left by
    [break] exactly when the validation metric of the epoch is a strict
    improvement, the epoch index is greater than 1 and the epoch is at
    least [patience] past [best_epoch]; the run then goes through no
    further epoch.  After a strict improvement [best_epoch] is the
    current epoch, and when the loop is not left the run goes on with
    the next epoch; without an improvement the record is unchanged. *)
Theorem C3_patience_check :
  forall (C : Egcno.collaborators) a td vd ted e r s s' r' brk rest,
    Egcno.epoch_body C a td vd ted e r s = (s', inr (r', brk)) ->
    exists v new,
      trace s' = trace s ++ new /\
      Egcno.vals new = [v] /\
      (brk = true <->
       gt_float v (Egcno.best_val r) = true /\
       (1 < e)%nat /\
       (Egcno.patience a <= Z.of_nat e - Z.of_nat (Egcno.best_epoch r))%Z) /\
      (gt_float v (Egcno.best_val r) = true -> Egcno.best_epoch r' = e) /\
      (gt_float v (Egcno.best_val r) = false -> r' = r) /\
      Egcno.epochs_loop C a td vd ted (e :: rest) r s
      = (if brk
         then (s', inr (r', true))
         else Egcno.epochs_loop C a td vd ted rest r' s').
Proof.
  intros C a td vd ted e r s s' r' brk rest H.
  assert (Hloop : Egcno.epochs_loop C a td vd ted (e :: rest) r s
                  = (if brk
                     then (s', inr (r', true))
                     else Egcno.epochs_loop C a td vd ted rest r' s')).
  { unfold Egcno.epochs_loop. simpl. unfold bind. rewrite H.
    destruct brk; reflexivity. }
  apply egcno_epoch_summary in H.
  destruct H as [v [new [T [V [_ Hcase]]]]].
  exists v, new. split; [exact T |]. split; [exact V |].
  destruct (gt_float v (Egcno.best_val r)) eqn:G.
  - destruct Hcase as [_ [_ [_ [Be Eb]]]].
    split; [| split; [| split]]; auto.
    + rewrite Eb, andb_true_iff, Z.geb_le, Nat.ltb_lt. tauto.
    + discriminate.
  - destruct Hcase as [_ [_ [Er Eb]]].
    split; [| split; [| split]]; auto.
    + rewrite Eb. split; [discriminate | intros [D _]; discriminate].
    + discriminate.
Qed.

Lemma C3_witness :
  exists v : pyfloat, gt_float v (4 # 8) = true /\ (1 < 3)%nat /\ (2 <= 3 - 0)%Z.
Proof.
  pose (s3 := fst (Egcno.epochs_loop Demo.egcno (Demo.egcno_args 6 2)
                     Demo.egcno_train Demo.egcno_val Demo.egcno_test
                     (seq 0 3) Egcno.initial_record Demo.egcno_init)).
  pose (r3 := {| Egcno.best_val := 4 # 8;
                 Egcno.best_test := Fin (4 # 8);
                 Egcno.best_epoch := 0 |}).
  pose (X := Egcno.epoch_body Demo.egcno (Demo.egcno_args 6 2)
               Demo.egcno_train Demo.egcno_val Demo.egcno_test 3 r3 s3).
  assert (E : X = (fst X, inr ({| Egcno.best_val := 2 # 2;
                                  Egcno.best_test := Fin (2 # 2);
                                  Egcno.best_epoch := 3 |}, true)))
    by (apply pair_of_snd; vm_compute; reflexivity).
  destruct (C3_patience_check Demo.egcno (Demo.egcno_args 6 2) Demo.egcno_train
              Demo.egcno_val Demo.egcno_test 3%nat r3 s3 _ _ _ [] E)
    as [v [new [_ [_ [Hb _]]]]].
  exists v. exact (proj1 Hb eq_refl).
Defined.

(** ** Early stopping, read off the validation metrics *)

Lemma track_snoc (p : list pyfloat) (v : pyfloat) :
  track (p ++ [v]) = track_step (track p) v.
Proof. unfold track. rewrite fold_left_app. reflexivity. Qed.

Lemma firstn_length_app {A} (p l : list A) : firstn (length p) (p ++ l) = p.
Proof.
  rewrite firstn_app, Nat.sub_diag, firstn_all. simpl. apply app_nil_r.
Qed.

Lemma nth_error_length_app {A} (p l : list A) (x : A) :
  nth_error (p ++ x :: l) (length p) = Some x.
Proof.
  rewrite nth_error_app2 by lia. rewrite Nat.sub_diag. reflexivity.
Qed.

(** The epochs of a run are all carried out, with no [break], as long
    as no strict improvement past epoch 1 comes [patience] or more
    epochs after the one before it. *)
Lemma egcno_epochs_loop_no_break (C : Egcno.collaborators) a td vd ted n :
  forall k r s s' r' brk prefix new,
    Egcno.epochs_loop C a td vd ted (seq k n) r s = (s', inr (r', brk)) ->
    trace s' = trace s ++ new ->
    length prefix = k ->
    track prefix = (Egcno.best_val r, Egcno.best_epoch r, k) ->
    (forall e, (1 < e)%nat ->
               improved_at (prefix ++ Egcno.vals new) e = true ->
               (Z.of_nat e - Z.of_nat (last_improvement (prefix ++ Egcno.vals new) e)
                < Egcno.patience a)%Z) ->
    brk = false /\ length (Egcno.vals new) = n.
Proof.
  unfold Egcno.epochs_loop.
  induction n as [| n IH]; intros k r s s' r' brk prefix new H T Hlen Htr Hgap;
    simpl in H.
  - inversion H; subst.
    rewrite <- (app_nil_r (trace s')) in T at 1. apply app_inv_head in T. subst new.
    auto.
  - bind_inv H as s1 rb Hb. destruct rb as [r1 b1].
    apply egcno_epoch_summary in Hb.
    destruct Hb as [v [n1 [T1 [V1 [_ Hcase]]]]].
    assert (Hk : improved_at (prefix ++ v :: nil) k = gt_float v (Egcno.best_val r) /\
                 last_improvement (prefix ++ v :: nil) k = Egcno.best_epoch r).
    { unfold improved_at, best_before, last_improvement. subst k.
      rewrite nth_error_length_app, firstn_length_app, Htr. auto. }
    destruct b1.
    + (* the epoch broke out: the gap condition fails at [k] *)
      inversion H; subst s1 r1 brk. clear H.
      rewrite T1 in T. apply app_inv_head in T. subst new.
      exfalso.
      destruct (gt_float v (Egcno.best_val r)) eqn:G.
      * destruct Hcase as [_ [_ [_ [_ Eb]]]].
        symmetry in Eb. apply andb_true_iff in Eb. destruct Eb as [Eg El].
        apply Z.geb_le in Eg. apply Nat.ltb_lt in El.
        rewrite V1 in Hgap. destruct Hk as [Hi Hl].
        specialize (Hgap k El). rewrite Hi, Hl in Hgap.
        specialize (Hgap eq_refl). lia.
      * destruct Hcase as [_ [_ [_ Eb]]]. discriminate.
    + assert (Hsplit : exists n2, new = n1 ++ n2 /\ trace s' = trace s1 ++ n2).
      { assert (Hext : exists n2, trace s' = trace s1 ++ n2).
        { clear - H. revert r1 s1 H. generalize (Datatypes.S k).
          induction n as [| m IHm]; intros k0 r1 s1 H; simpl in H.
          - inversion H; subst. exists []. rewrite app_nil_r. reflexivity.
          - bind_inv H as s2 rb Hb. destruct rb as [r2 b2].
            apply egcno_epoch_summary in Hb. destruct Hb as [v2 [m1 [Tm _]]].
            destruct b2.
            + inversion H; subst. exists m1. exact Tm.
            + apply IHm in H. destruct H as [m2 Tm2].
              exists (m1 ++ m2). rewrite Tm2, Tm, app_assoc. reflexivity. }
        destruct Hext as [n2 T2]. exists n2. split; [| exact T2].
        rewrite T2, T1, <- app_assoc in T. apply app_inv_head in T. auto. }
      destruct Hsplit as [n2 [-> T2]].
      assert (Hv : Egcno.vals (n1 ++ n2) = v :: Egcno.vals n2).
      { unfold Egcno.vals in *. rewrite flat_map_app, V1. reflexivity. }
      rewrite Hv in Hgap |- *.
      replace (prefix ++ v :: Egcno.vals n2)
        with ((prefix ++ [v]) ++ Egcno.vals n2) in Hgap
        by (rewrite <- app_assoc; reflexivity).
      destruct (IH (Datatypes.S k) r1 s1 s' r' brk (prefix ++ [v]) n2 H T2) as [Hb Hn].
      * rewrite length_app. simpl. lia.
      * rewrite track_snoc, Htr. simpl.
        destruct (gt_float v (Egcno.best_val r)) eqn:G.
        -- destruct Hcase as [_ [_ [Bv [Be _]]]]. rewrite Bv, Be. reflexivity.
        -- destruct Hcase as [_ [_ [-> _]]]. reflexivity.
      * exact Hgap.
      * split; [exact Hb | simpl; rewrite Hn; reflexivity].
Qed.

(** Conversely, when the loop over epochs is left by [break], the last
    epoch carried out is a strict improvement past epoch 1 that comes
    [patience] or more epochs after the one before it. *)
Lemma egcno_epochs_loop_break (C : Egcno.collaborators) a td vd ted n :
  forall k r s s' r' prefix new,
    Egcno.epochs_loop C a td vd ted (seq k n) r s = (s', inr (r', true)) ->
    trace s' = trace s ++ new ->
    length prefix = k ->
    track prefix = (Egcno.best_val r, Egcno.best_epoch r, k) ->
    exists e,
      S e = length (prefix ++ Egcno.vals new) /\
      (1 < e)%nat /\
      improved_at (prefix ++ Egcno.vals new) e = true /\
      (Egcno.patience a
       <= Z.of_nat e - Z.of_nat (last_improvement (prefix ++ Egcno.vals new) e))%Z.
Proof.
  unfold Egcno.epochs_loop.
  induction n as [| n IH]; intros k r s s' r' prefix new H T Hlen Htr; simpl in H.
  - inversion H.
  - bind_inv H as s1 rb Hb. destruct rb as [r1 b1].
    apply egcno_epoch_summary in Hb.
    destruct Hb as [v [n1 [T1 [V1 [_ Hcase]]]]].
    destruct b1.
    + inversion H; subst s1 r1. clear H.
      rewrite T1 in T. apply app_inv_head in T. subst new.
      rewrite V1. exists k.
      unfold improved_at, best_before, last_improvement. subst k.
      rewrite nth_error_length_app, firstn_length_app, Htr. simpl.
      destruct (gt_float v (Egcno.best_val r)) eqn:G.
      * destruct Hcase as [_ [_ [_ [_ Eb]]]].
        symmetry in Eb. apply andb_true_iff in Eb. destruct Eb as [Eg El].
        apply Z.geb_le in Eg. apply Nat.ltb_lt in El.
        repeat split; auto. rewrite length_app. simpl. lia.
      * destruct Hcase as [_ [_ [_ Eb]]]. discriminate.
    + assert (Hext : exists n2, trace s' = trace s1 ++ n2).
      { apply egcno_epochs_loop_reports in H. destruct H as [n2 [T2 _]].
        exists n2. exact T2. }
      destruct Hext as [n2 T2].
      assert (En : new = n1 ++ n2).
      { rewrite T2, T1, <- app_assoc in T. apply app_inv_head in T. auto. }
      subst new.
      assert (Hv : Egcno.vals (n1 ++ n2) = v :: Egcno.vals n2).
      { unfold Egcno.vals in *. rewrite flat_map_app, V1. reflexivity. }
      rewrite Hv.
      replace (prefix ++ v :: Egcno.vals n2)
        with ((prefix ++ [v]) ++ Egcno.vals n2)
        by (rewrite <- app_assoc; reflexivity).
      apply (IH (Datatypes.S k) r1 s1 s' r' (prefix ++ [v]) n2 H T2).
      * rewrite length_app. simpl. lia.
      * rewrite track_snoc, Htr. simpl.
        destruct (gt_float v (Egcno.best_val r)) eqn:G.
        -- destruct Hcase as [_ [_ [Bv [Be _]]]]. rewrite Bv, Be. reflexivity.
        -- destruct Hcase as [_ [_ [-> _]]]. reflexivity.
Qed.

(** C4, as amended.  A run that completes goes through all its epochs,
    never taking the early-stop [break], provided that no
    strict-improvement epoch past epoch 1 comes [patience] or more
    epochs after the strict-improvement epoch before it (after epoch 0
    when there was none). *)
Theorem C4_no_break_without_a_long_gap :
  forall (C : Egcno.collaborators) a td vd ted s s' r brk new,
    Egcno.run C a td vd ted s = (s', inr (r, brk)) ->
    trace s' = trace s ++ new ->
    (forall e, (1 < e)%nat ->
               improved_at (Egcno.vals new) e = true ->
               (Z.of_nat e - Z.of_nat (last_improvement (Egcno.vals new) e)
                < Egcno.patience a)%Z) ->
    brk = false /\ length (Egcno.vals new) = Egcno.max_epoch a.
Proof.
  intros C a td vd ted s s' r brk new H T Hgap.
  unfold Egcno.run in H.
  bind_inv H as s1 rb HL. destruct rb as [r1 b1].
  bind_inv H as s2 u He. apply emit_inr in He. destruct He as [_ Te].
  inversion H; subst s2 r1 b1. clear H.
  pose proof HL as HR. apply egcno_epochs_loop_reports in HR.
  destruct HR as [n1 [T1 _]].
  assert (En : new = n1 ++ [Egcno.EvRunFinishes C false r]).
  { rewrite Te, T1, <- app_assoc in T. apply app_inv_head in T. auto. }
  assert (Ev : Egcno.vals new = Egcno.vals n1).
  { subst new. unfold Egcno.vals. rewrite flat_map_app. simpl. apply app_nil_r. }
  rewrite Ev in *.
  apply (egcno_epochs_loop_no_break C a td vd ted (Egcno.max_epoch a)
           0%nat Egcno.initial_record s s1 r brk [] n1 HL T1 eq_refl eq_refl).
  exact Hgap.
Qed.

Lemma demo_gaps_below_100 :
  forall e, (1 < e)%nat ->
    improved_at [Fin (4 # 8); Fin (6 # 18); Fin (6 # 18);
                 Fin (2 # 2); Fin (2 # 2); Fin (2 # 2)] e = true ->
    (Z.of_nat e
     - Z.of_nat (last_improvement [Fin (4 # 8); Fin (6 # 18); Fin (6 # 18);
                                   Fin (2 # 2); Fin (2 # 2); Fin (2 # 2)] e)
     < 100)%Z.
Proof.
  intros e He Hi.
  destruct e as [| [| [| [| [| [| [| e]]]]]]];
    vm_compute in Hi; try discriminate; vm_compute; reflexivity.
Defined.

Lemma C4_witness :
  exists new : list (Egcno.event Demo.egcno),
    Egcno.vals new = [Fin (4 # 8); Fin (6 # 18); Fin (6 # 18);
                      Fin (2 # 2); Fin (2 # 2); Fin (2 # 2)] /\
    length (Egcno.vals new) = 6%nat.
Proof.
  pose (X := Egcno.run Demo.egcno (Demo.egcno_args 6 100) Demo.egcno_train
               Demo.egcno_val Demo.egcno_test Demo.egcno_init).
  assert (E : X = (fst X, inr ({| Egcno.best_val := 2 # 2;
                                  Egcno.best_test := Fin (2 # 2);
                                  Egcno.best_epoch := 3 |}, false)))
    by (apply pair_of_snd; vm_compute; reflexivity).
  assert (Ev : Egcno.vals (trace (fst X))
               = [Fin (4 # 8); Fin (6 # 18); Fin (6 # 18);
                  Fin (2 # 2); Fin (2 # 2); Fin (2 # 2)])
    by (vm_compute; reflexivity).
  exists (trace (fst X)). split; [exact Ev |].
  refine (proj2 (C4_no_break_without_a_long_gap Demo.egcno (Demo.egcno_args 6 100)
                   Demo.egcno_train Demo.egcno_val Demo.egcno_test Demo.egcno_init
                   (fst X) _ false (trace (fst X)) E
                   (eq_sym (app_nil_l (trace (fst X)))) _)).
  rewrite Ev. exact demo_gaps_below_100.
Defined.

(** C4, as stated, fails: with [patience = 2] and six epochs at most,
    the run on the small dataset goes through the epochs 0, 1, 2, 3 in
    turn, and epoch 3, the first strict improvement since epoch 0,
    takes the [break]. *)
Lemma C4_counterexample :
  let res := Egcno.run Demo.egcno (Demo.egcno_args 6 2) Demo.egcno_train
               Demo.egcno_val Demo.egcno_test Demo.egcno_init in
  snd res = inr ({| Egcno.best_val := 2 # 2;
                    Egcno.best_test := Fin (2 # 2);
                    Egcno.best_epoch := 3 |}, true) /\
  Egcno.vals (trace (fst res))
  = [Fin (4 # 8); Fin (6 # 18); Fin (6 # 18); Fin (2 # 2)].
Proof. vm_compute. split; reflexivity. Qed.

(** ** State advancement and the ['edge_attr'] guard *)

Lemma egcno_advance_eq (C : Egcno.collaborators) b index s :
  Egcno.advance C b index s
  = if b
    then (s, inl NotImplementedError)
    else let wo := Egcno.model_fwd C (world s) index (repeat [1%Q] (length index)) in
         (mkState (fst wo)
                  (trace s ++ [Egcno.EvModel C index (repeat [1%Q] (length index)) (snd wo)]),
          inr (attached (snd wo))).
Proof.
  unfold Egcno.advance, bind, call, emit, ret, raise. destruct b; simpl; [reflexivity |].
  change (ones (size1 index) edge_feat_dim) with (repeat [1%Q] (length index)).
  destruct (Egcno.model_fwd C (world s) index (repeat [1%Q] (length index))) as [w out].
  reflexivity.
Qed.

Lemma gclstm_advance_eq (C : Gclstm.collaborators) b index h c s :
  Gclstm.advance C b index h c s
  = if b
    then (s, inl NotImplementedError)
    else let wo := Gclstm.model_fwd C (world s) index (repeat [1%Q] (length index))
                     (option_map data h) (option_map data c) in
         (mkState (fst wo)
                  (trace s ++ [Gclstm.EvModel C index (repeat [1%Q] (length index))
                                 h c (snd wo)]),
          inr (attached (fst (snd wo)), attached (snd (snd wo)))).
Proof.
  unfold Gclstm.advance, bind, call, emit, ret, raise. destruct b; simpl; [reflexivity |].
  change (ones (size1 index) edge_feat_dim) with (repeat [1%Q] (length index)).
  destruct (Gclstm.model_fwd C (world s) index (repeat [1%Q] (length index))
              (option_map data h) (option_map data c)) as [w out].
  reflexivity.
Qed.

Section EdgeAttrGuard.

(** [NotImplementedError] comes from the guard of the split [flag]
    belongs to, and from nowhere else. *)
Let from_guard (flag : bool) : exn -> Prop :=
  fun e => e = NotImplementedError -> flag = true.

Lemma egcno_train_epoch_guard (C : Egcno.collaborators) td n :
  raises_only (from_guard (Egcno.has_edge_attr td)) (Egcno.train_epoch C td n).
Proof.
  unfold from_guard, Egcno.train_epoch, Egcno.train_snapshot, Egcno.advance,
    Egcno.link_pred, Egcno.crit.
  raises_auto.
Qed.

Lemma egcno_val_epoch_guard (C : Egcno.collaborators) vd h :
  raises_only (from_guard (Egcno.ev_has_edge_attr vd)) (Egcno.val_epoch C vd h).
Proof.
  unfold from_guard, Egcno.val_epoch, Egcno.val_snapshot, Egcno.detach_var,
    Egcno.score_snapshot, Egcno.score_batch, Egcno.advance, Egcno.link_pred.
  raises_auto.
Qed.

Lemma egcno_test_epoch_guard (C : Egcno.collaborators) ted h :
  raises_only (from_guard (Egcno.ev_has_edge_attr ted)) (Egcno.test_epoch C ted h).
Proof.
  unfold from_guard, Egcno.test_epoch, Egcno.test_snapshot,
    Egcno.score_snapshot, Egcno.score_batch, Egcno.advance, Egcno.link_pred.
  raises_auto.
Qed.

Lemma gclstm_train_epoch_guard (C : Gclstm.collaborators) td n :
  raises_only (from_guard (Gclstm.has_edge_attr td)) (Gclstm.train_epoch C td n).
Proof.
  unfold from_guard, Gclstm.train_epoch, Gclstm.train_loop, Gclstm.train_snapshot,
    Gclstm.advance, Gclstm.link_pred, Gclstm.crit.
  raises_auto.
Qed.

Lemma gclstm_val_epoch_guard (C : Gclstm.collaborators) vd epoch h c :
  raises_only (from_guard (Gclstm.ev_has_edge_attr vd)) (Gclstm.val_epoch C vd epoch h c).
Proof.
  unfold from_guard, Gclstm.val_epoch, Gclstm.val_snapshot, Gclstm.detach_var,
    Gclstm.score_snapshot, Gclstm.score_batch, Gclstm.advance, Gclstm.link_pred.
  raises_auto.
Qed.

End EdgeAttrGuard.

Lemma dict_get_found {S A} (d : list (nat * A)) k x (s : S) :
  lookup d k = Some x -> dict_get d k s = (s, inr x).
Proof. unfold dict_get. intros ->. reflexivity. Qed.

Lemma getitem_found {S A} (l : list A) i x (s : S) :
  nth_error l i = Some x -> getitem l i s = (s, inr x).
Proof. unfold getitem. intros ->. reflexivity. Qed.



(** ** Negative destinations in EvolveGCN-O training *)

Lemma egcno_epoch_body_train_part (C : Egcno.collaborators) a td vd ted e r s s' res :
  Egcno.epoch_body C a td vd ted e r s = (s', inr res) ->
  exists its rest,
    length its = Egcno.time_length td /\
    trace s' = trace s
               ++ [Egcno.EvZeroGrad C]
               ++ flat_map (Egcno.iteration_events C (Egcno.num_nodes td + 1)) its
               ++ rest.
Proof.
  unfold Egcno.epoch_body. intros H.
  bind_inv H as s1 h Htr.
  apply egcno_train_epoch_inr in Htr. destruct Htr as [its [total [Hall [_ T1]]]].
  bind_inv H as s2 hv Hv. destruct hv as [h2 v].
  apply egcno_val_epoch_inr in Hv. destruct Hv as [n2 [_ T2]].
  destruct res as [r' brk].
  apply egcno_after_validation_inr in H.
  assert (T3 : exists n3, trace s' = trace s2 ++ n3).
  { destruct H as [[_ [-> _]] | [_ [tpre [tv [_ [_ [_ T]]]]]]].
    - exists []. rewrite app_nil_r. reflexivity.
    - eexists. exact T. }
  destruct T3 as [n3 T3].
  exists its. eexists. split.
  - apply Forall2_length in Hall. rewrite length_seq in Hall. auto.
  - rewrite T3, T2, T1. repeat rewrite <- app_assoc. simpl. reflexivity.
Qed.

(** C9.  In an iteration of the EvolveGCN-O training loop the negative
    destinations are what [torch.randint] returns for the bounds [0]
    and [n_nodes] and one draw per positive edge, and they go to the
    decoder as drawn, next to the sources of the positive edges; within
    an epoch [n_nodes] is the node count of the data plus one.  Nothing
    keeps a draw away from the positive destination or from the
    additional node id: with draws 1 and 3 the first iteration on the
    small dataset scores its two positive edges as negatives, and with
    draws 4 and 4 it scores the additional node 4 of a four-node
    dataset. *)
Theorem C9_negative_destinations_unfiltered :
  (forall (C : Egcno.collaborators) td n t vars s s' vars',
      Egcno.train_snapshot C td n t vars s = (s', inr vars') ->
      exists it,
        nth_error (Egcno.edge_index td) t = Some (Egcno.it_pos C it) /\
        Egcno.it_neg_dst C it
        = snd (Egcno.randint C
                 (fst (Egcno.model_fwd C (world s) (Egcno.it_feed C it)
                         (ones (size1 (Egcno.it_feed C it)) edge_feat_dim)))
                 0 n (size1 (Egcno.it_pos C it))) /\
        trace s' = trace s ++ Egcno.iteration_events C n it /\
        Egcno.neg_scored (Egcno.iteration_events C n it)
        = [(row0 (Egcno.it_pos C it), Egcno.it_neg_dst C it)])
  /\
  (forall (C : Egcno.collaborators) a td vd ted e r s s' res,
      Egcno.epoch_body C a td vd ted e r s = (s', inr res) ->
      exists its rest,
        length its = Egcno.time_length td /\
        trace s' = trace s
                   ++ [Egcno.EvZeroGrad C]
                   ++ flat_map (Egcno.iteration_events C (Egcno.num_nodes td + 1)) its
                   ++ rest)
  /\
  (let tr := trace (fst (Egcno.train_epoch (Demo.egcno_of [1; 3]%nat) Demo.egcno_train
                           (Egcno.num_nodes Demo.egcno_train + 1)
                           (Demo.egcno_init_of [1; 3]%nat))) in
   Forall (fun d => (d < Egcno.num_nodes Demo.egcno_train + 1)%nat)
     (Demo.tape_randint [1; 3]%nat 0 (Egcno.num_nodes Demo.egcno_train + 1) 2) /\
   nth_error (Egcno.neg_scored tr) 0 = Some (row0 Demo.snap0, row1 Demo.snap0))
  /\
  (let tr := trace (fst (Egcno.train_epoch (Demo.egcno_of [4; 4]%nat) Demo.egcno_train
                           (Egcno.num_nodes Demo.egcno_train + 1)
                           (Demo.egcno_init_of [4; 4]%nat))) in
   Forall (fun d => (d < Egcno.num_nodes Demo.egcno_train + 1)%nat)
     (Demo.tape_randint [4; 4]%nat 0 (Egcno.num_nodes Demo.egcno_train + 1) 2) /\
   nth_error (Egcno.neg_scored tr) 0
   = Some (row0 Demo.snap0, [Egcno.num_nodes Demo.egcno_train;
                             Egcno.num_nodes Demo.egcno_train])).
Proof.
  split; [| split; [| split]].
  - intros C td n t vars s s' vars' H.
    apply egcno_train_snapshot_inr in H.
    destruct H as [it [_ [Hp [_ [_ [Hr [_ [_ Ht]]]]]]]].
    exists it. repeat split; auto.
  - intros C a td vd ted e r s s' res H.
    eapply egcno_epoch_body_train_part. exact H.
  - vm_compute. split; [| reflexivity].
    repeat constructor.
  - vm_compute. split; [| reflexivity].
    repeat constructor.
Qed.

Lemma C9_witness :
  exists it,
    nth_error (Egcno.edge_index Demo.egcno_train) 0
    = Some (Egcno.it_pos Demo.egcno it) /\
    Egcno.it_neg_dst Demo.egcno it = [4; 4]%nat.
Proof.
  pose (X := Egcno.train_snapshot Demo.egcno Demo.egcno_train 5 0 (None, PyInt0)
               Demo.egcno_init).
  assert (E : X = (fst X, inr (Some (attached Demo.snap0),
                               Tensor0 ((164 # 800) + (7200 # 20000)))))
    by (apply pair_of_snd; vm_compute; reflexivity).
  destruct (proj1 C9_negative_destinations_unfiltered Demo.egcno Demo.egcno_train
              5%nat 0%nat (None, PyInt0) Demo.egcno_init (fst X) _ E)
    as [it [Hp [Hr _]]].
  exists it. split; [exact Hp |].
  simpl in Hp. inversion Hp as [Hpos]. rewrite Hr, <- Hpos. reflexivity.
Defined.

(** ** The feed shift in training *)

Lemma combine_rows (e : edges) : combine (row0 e) (row1 e) = e.
Proof.
  unfold row0, row1. induction e as [| [a b] e IH]; simpl; [| rewrite IH]; reflexivity.
Qed.

(** In the EvolveGCN-O script the embedding that scores the positive
    edges of snapshot [t] is the one the encoder returned for snapshot
    [t - 1] (snapshot [0] at [t = 0]). *)
Lemma egcno_feed_shift (C : Egcno.collaborators) td n s s' h :
  Egcno.train_epoch C td n s = (s', inr h) ->
  exists its new,
    trace s' = trace s ++ new /\
    Forall2 (Egcno.shifted C td) (seq 0 (Egcno.time_length td)) its /\
    Egcno.model_calls new = map (fun it => (Egcno.it_feed C it, Egcno.it_emb C it)) its /\
    Egcno.pos_scored new
    = map (fun it => (attached (Egcno.it_emb C it), Egcno.it_pos C it)) its.
Proof.
  intros H. apply egcno_train_epoch_inr in H.
  destruct H as [its [total [Hall [_ T]]]].
  exists its. eexists. split; [exact T |]. split; [exact Hall |].
  unfold Egcno.model_calls, Egcno.pos_scored.
  rewrite !flat_map_app. simpl. rewrite !app_nil_r.
  clear. split; induction its as [| it its IH]; simpl; auto.
  - rewrite IH. reflexivity.
  - rewrite IH, combine_rows. reflexivity.
Qed.

(** In the GC-LSTM script the positives scored at iteration [t] are the
    edges that were fed to the encoder at that iteration, those of
    snapshot [t - 1], and not those of snapshot [t]. *)
Lemma gclstm_scores_the_feed (C : Gclstm.collaborators) td n s s' res :
  Gclstm.train_epoch C td n s = (s', inr res) ->
  exists its new,
    trace s' = trace s ++ new /\
    Forall2 (Gclstm.shifted C td) (seq 0 (Gclstm.time_length td)) its /\
    Gclstm.model_calls new
    = map (fun it => (Gclstm.it_feed C it, fst (Gclstm.it_out C it))) its /\
    Gclstm.pos_scored new
    = map (fun it => (attached (fst (Gclstm.it_out C it)), Gclstm.it_feed C it)) its.
Proof.
  intros H. destruct res as [[h c] total_loss].
  apply gclstm_train_epoch_inr in H.
  destruct H as [its [loss [Hall [_ [_ T]]]]].
  exists its. eexists. split; [exact T |]. split; [exact Hall |].
  unfold Gclstm.model_calls, Gclstm.pos_scored.
  rewrite !flat_map_app. simpl. rewrite !app_nil_r.
  clear. split; induction its as [| it its IH]; simpl; auto.
  - rewrite IH. reflexivity.
  - rewrite IH, combine_rows. reflexivity.
Qed.

(** C1 at its failing input: the GC-LSTM training loop over three
    snapshots.  The encoder of the small dataset returns the edges it
    was fed, so each pair below reads "embedding made from these edges,
    scoring those edges".  At the third iteration the embedding made
    from snapshot 1 scores the edges of snapshot 1 itself, and the
    edges of snapshot 2 are never scored; on the same data the
    EvolveGCN-O loop scores snapshot [t] with the embedding made from
    snapshot [t - 1]. *)
Theorem C1_gclstm_scores_a_snapshot_with_its_own_embedding :
  Gclstm.pos_scored
    (trace (fst (Gclstm.train_epoch Demo.gclstm Demo.gclstm_train 5 Demo.gclstm_init)))
  = [(attached Demo.snap0, Demo.snap0);
     (attached Demo.snap0, Demo.snap0);
     (attached Demo.snap1, Demo.snap1)]
  /\
  Egcno.pos_scored
    (trace (fst (Egcno.train_epoch Demo.egcno Demo.egcno_train 5 Demo.egcno_init)))
  = [(attached Demo.snap0, Demo.snap0);
     (attached Demo.snap0, Demo.snap1);
     (attached Demo.snap1, Demo.snap2)].
Proof. vm_compute. split; reflexivity. Qed.

(** ** Gradient history during evaluation *)

(** The validation loop of the EvolveGCN-O script hands on a detached
    state, its test loop an attached one. *)
Lemma egcno_val_snapshot_detached (C : Egcno.collaborators) vd t vars s s' h' perf :
  Egcno.val_snapshot C vd t vars s = (s', inr (h', perf)) ->
  requires_grad h' = false.
Proof.
  unfold Egcno.val_snapshot. destruct vars as [h perf0]. intros H.
  bind_inv H as s1 pos H1. bind_inv H as s2 p H2. bind_inv H as s3 prev H3.
  bind_inv H as s4 h4 H4. inversion H; subst. reflexivity.
Qed.

Lemma egcno_test_snapshot_attached (C : Egcno.collaborators) ted t vars s s' h' perf :
  Egcno.test_snapshot C ted t vars s = (s', inr (h', perf)) ->
  requires_grad h' = true.
Proof.
  unfold Egcno.test_snapshot. destruct vars as [h perf0]. intros H.
  bind_inv H as s1 pos H1. bind_inv H as s2 p H2. bind_inv H as s3 prev H3.
  bind_inv H as s4 h4 H4. inversion H; subst.
  apply egcno_advance_inr in H4. destruct H4 as [_ [out [-> _]]]. reflexivity.
Qed.

(** Past its first snapshot, the validation loop of the GC-LSTM script
    scores with, and hands on, the state as the encoder returned it. *)
Lemma gclstm_val_snapshot_attached (C : Gclstm.collaborators) vd ts_min t vars
    s s' h' c' perf :
  (ts_min < t)%nat ->
  Gclstm.val_snapshot C vd ts_min t vars s = (s', inr (h', c', perf)) ->
  requires_grad h' = true /\ requires_grad c' = true.
Proof.
  unfold Gclstm.val_snapshot. destruct vars as [[h c] perf0]. intros Hlt H.
  apply Nat.ltb_lt in Hlt. rewrite Hlt in H.
  bind_inv H as s1 pos H1. bind_inv H as s2 hc H2. destruct hc as [h2 c2].
  bind_inv H2 as s3 prev H3.
  apply gclstm_advance_inr in H2. destruct H2 as [_ [out [Hhc _]]].
  inversion Hhc; subst h2 c2. clear Hhc.
  bind_inv H as s4 p H4. inversion H; subst. split; reflexivity.
Qed.

(** C5 at its failing inputs.  One epoch of the EvolveGCN-O script on
    the small dataset: the four scoring calls of validation and of the
    first test snapshot get a detached embedding, the scoring call of
    the second test snapshot gets the embedding as the encoder returned
    it, attached.  One epoch of the GC-LSTM script: the scoring call of
    the second validation snapshot gets an attached hidden state. *)
Theorem C5_evaluation_state_keeps_gradient_history :
  Egcno.eval_uses
    (trace (fst (Egcno.run Demo.egcno (Demo.egcno_args 1 100) Demo.egcno_train
                   Demo.egcno_val Demo.egcno_test Demo.egcno_init)))
  = [(SplitVal, false); (SplitVal, false); (SplitTest, false); (SplitTest, true)]
  /\
  Gclstm.eval_uses
    (trace (fst (Gclstm.epoch_body Demo.gclstm Demo.gclstm_train Demo.gclstm_val
                   0 tt Demo.gclstm_init)))
  = [false; true].
Proof. vm_compute. split; reflexivity. Qed.

(** ** Training epochs on well-formed data return *)

Section Succeeds.

Context {W E : Type}.

Lemma succeeds_ret {A} (a : A) : succeeds (ret a : M (state W E) A).
Proof. intros s. exists s, a. reflexivity. Qed.

Lemma succeeds_bind {A B} (m : M (state W E) A) (k : A -> M (state W E) B) :
  succeeds m -> (forall a, succeeds (k a)) -> succeeds (bind m k).
Proof.
  intros Hm Hk s. destruct (Hm s) as [s1 [a E1]].
  destruct (Hk a s1) as [s2 [b E2]].
  exists s2, b. unfold bind. rewrite E1. exact E2.
Qed.

Lemma succeeds_call {A} (f : W -> W * A) : succeeds (call f : M (state W E) A).
Proof.
  intros s. unfold call. destruct (f (world s)) as [w a]. eexists. eexists. reflexivity.
Qed.

Lemma succeeds_exec (f : W -> W) : succeeds (exec f : M (state W E) unit).
Proof. intros s. eexists. eexists. reflexivity. Qed.

Lemma succeeds_emit (e : E) : succeeds (emit e : M (state W E) unit).
Proof. intros s. eexists. eexists. reflexivity. Qed.

Lemma succeeds_getitem {A} (l : list A) i :
  (i < length l)%nat -> succeeds (getitem l i : M (state W E) A).
Proof.
  intros H. unfold getitem. destruct (nth_error l i) eqn:En.
  - apply succeeds_ret.
  - apply nth_error_None in En. lia.
Qed.

Lemma succeeds_for_each {A B} (xs : list A) (body : A -> B -> M (state W E) B) :
  (forall x acc, In x xs -> succeeds (body x acc)) ->
  forall acc, succeeds (for_each xs body acc).
Proof.
  induction xs as [| x xs IH]; intros Hb acc; simpl.
  - apply succeeds_ret.
  - apply succeeds_bind.
    + apply Hb. left. reflexivity.
    + intros a. apply IH. intros y acc' Hy. apply Hb. right. exact Hy.
Qed.

End Succeeds.

Create HintDb succeeds_db.

#[export] Hint Resolve succeeds_ret succeeds_call succeeds_exec succeeds_emit : succeeds_db.

Ltac succeeds_step :=
  cbv beta zeta;
  match goal with
  | |- succeeds (bind _ _) => apply succeeds_bind; [| intros ?]
  | |- succeeds (getitem _ _) => apply succeeds_getitem; lia
  | |- succeeds (match ?x with _ => _ end) => destruct x
  | |- succeeds _ => solve [auto with succeeds_db]
  end.

Lemma egcno_train_snapshot_succeeds (C : Egcno.collaborators) td n t vars :
  Egcno.has_edge_attr td = false ->
  (t < length (Egcno.edge_index td))%nat ->
  succeeds (Egcno.train_snapshot C td n t vars).
Proof.
  intros Ha Ht. unfold Egcno.train_snapshot, Egcno.advance, Egcno.link_pred, Egcno.crit.
  rewrite Ha. simpl negb. cbv iota.
  destruct (Nat.eqb t 0); repeat succeeds_step.
Qed.

(** An EvolveGCN-O training epoch returns when the data has no
    ['edge_attr'] key and [time_length] is positive and within the list
    of snapshots. *)
Lemma egcno_train_epoch_succeeds (C : Egcno.collaborators) td n :
  Egcno.has_edge_attr td = false ->
  (0 < Egcno.time_length td <= length (Egcno.edge_index td))%nat ->
  succeeds (Egcno.train_epoch C td n).
Proof.
  intros Ha Ht s. unfold Egcno.train_epoch.
  assert (Hbody : forall t acc, In t (seq 0 (Egcno.time_length td)) ->
                                succeeds (Egcno.train_snapshot C td n t acc)).
  { intros t acc Hin. apply in_seq in Hin.
    apply egcno_train_snapshot_succeeds; [exact Ha | lia]. }
  do 3 (erewrite bind_eq; [| reflexivity]).
  match goal with
  | |- context [bind (for_each ?l ?b ?acc) _ ?st] =>
      destruct (succeeds_for_each l b Hbody acc st) as [s1 [[h tl] E1]]
  end.
  erewrite bind_eq; [| exact E1].
  apply egcno_train_loop_inr in E1.
  destruct E1 as [its [_ [_ [_ [Hten _]]]]].
  destruct Hten as [v Hv].
  { destruct (Egcno.time_length td); [lia | discriminate]. }
  simpl in Hv. subst tl. eexists. eexists. reflexivity.
Qed.

Lemma gclstm_train_snapshot_succeeds (C : Gclstm.collaborators) td n t vars :
  Gclstm.has_edge_attr td = false ->
  (t < length (Gclstm.edge_index td))%nat ->
  succeeds (Gclstm.train_snapshot C td n t vars).
Proof.
  intros Ha Ht.
  unfold Gclstm.train_snapshot, Gclstm.advance, Gclstm.link_pred, Gclstm.crit.
  rewrite Ha. simpl negb. cbv iota.
  destruct (Nat.eqb t 0); repeat succeeds_step.
Qed.

(** The same for a GC-LSTM training epoch. *)
Lemma gclstm_train_epoch_succeeds (C : Gclstm.collaborators) td n :
  Gclstm.has_edge_attr td = false ->
  (0 < Gclstm.time_length td <= length (Gclstm.edge_index td))%nat ->
  succeeds (Gclstm.train_epoch C td n).
Proof.
  intros Ha Ht s. unfold Gclstm.train_epoch, Gclstm.train_loop.
  assert (Hbody : forall t acc, In t (seq 0 (Gclstm.time_length td)) ->
                                succeeds (Gclstm.train_snapshot C td n t acc)).
  { intros t acc Hin. apply in_seq in Hin.
    apply gclstm_train_snapshot_succeeds; [exact Ha | lia]. }
  erewrite bind_eq; [| reflexivity].
  match goal with
  | |- context [bind (for_each ?l ?b ?acc) _ ?st] =>
      destruct (succeeds_for_each l b Hbody acc st) as [s1 [vars E1]]
  end.
  erewrite bind_eq; [| exact E1].
  apply gclstm_train_loop_inr in E1.
  destruct E1 as [its [_ [_ [_ [_ [Hten _]]]]]].
  destruct Hten as [v Hv].
  { destruct (Gclstm.time_length td); [lia | discriminate]. }
  rewrite Hv. eexists. eexists. reflexivity.
Qed.

(** * Further properties of the scripts *)

(** ** Empty and short training sequences *)



Lemma for_each_raises {S A B} (l1 : list A) (x : A) (l2 : list A)
    (body : A -> B -> M S B) (e : exn) :
  (forall y acc, In y l1 -> succeeds (body y acc)) ->
  (forall acc s, exists s', body x acc s = (s', inl e)) ->
  forall acc s, exists s', for_each (l1 ++ x :: l2) body acc s = (s', inl e).
Proof.
  induction l1 as [| y l1 IH]; intros Hok Hx acc s; simpl.
  - destruct (Hx acc s) as [s' E]. exists s'. unfold bind. rewrite E. reflexivity.
  - destruct (Hok y acc (or_introl eq_refl) s) as [s1 [acc1 E1]].
    destruct (IH (fun z a Hz => Hok z a (or_intror Hz)) Hx acc1 s1) as [s' E'].
    exists s'. unfold bind. rewrite E1. exact E'.
Qed.

Lemma egcno_train_snapshot_past_end (C : Egcno.collaborators) td n :
  Egcno.has_edge_attr td = false ->
  forall vars s, exists s',
    Egcno.train_snapshot C td n (length (Egcno.edge_index td)) vars s
    = (s', inl IndexError).
Proof.
  intros Ha vars s. unfold Egcno.train_snapshot.
  destruct (Egcno.edge_index td) as [| e0 rest] eqn:El.
  - simpl. eexists. reflexivity.
  - set (t := length (e0 :: rest)).
    assert (Hfeed : exists s1 h,
               (if Nat.eqb t 0
                then bind (getitem (e0 :: rest) t) (Egcno.advance C (Egcno.has_edge_attr td))
                else bind (getitem (e0 :: rest) (t - 1))
                          (Egcno.advance C (Egcno.has_edge_attr td))) s
               = (s1, inr h)).
    { assert (Hs : succeeds (bind (getitem (e0 :: rest) (t - 1))
                               (Egcno.advance C (Egcno.has_edge_attr td))
                             : M (Egcno.St C) (Egcno.htensor C))).
      { apply succeeds_bind.
        - apply succeeds_getitem. subst t. simpl. lia.
        - intros a. unfold Egcno.advance. rewrite Ha. simpl negb. cbv iota.
          repeat succeeds_step. }
      subst t. simpl Nat.eqb. cbv iota. apply Hs. }
    destruct Hfeed as [s1 [h Hf]].
    exists s1. erewrite bind_eq; [| exact Hf].
    erewrite bind_raise; [reflexivity |].
    unfold getitem.
    replace (nth_error (e0 :: rest) t) with (@None edges)
      by (symmetry; apply nth_error_None; subst t; lia).
    reflexivity.
Qed.

Lemma gclstm_train_snapshot_past_end (C : Gclstm.collaborators) td n :
  forall vars s,
    Gclstm.train_snapshot C td n (length (Gclstm.edge_index td)) vars s
    = (s, inl IndexError).
Proof.
  intros vars s. unfold Gclstm.train_snapshot, bind at 1, getitem.
  replace (nth_error (Gclstm.edge_index td) (length (Gclstm.edge_index td)))
    with (@None edges) by (symmetry; apply nth_error_None; lia).
  reflexivity.
Qed.

Lemma seq_split_at (len T : nat) :
  (len < T)%nat -> seq 0 T = seq 0 len ++ len :: seq (S len) (T - S len).
Proof.
  intros H. replace T with (len + S (T - S len))%nat at 1 by lia.
  rewrite seq_app. reflexivity.
Qed.



(** ** The validation pass of the EvolveGCN-O script *)

Section EgcnoValidation.

Import Egcno.

Variable C : collaborators.

Lemma egcno_score_batch_inr sp h src dst nb perf s s' perf' :
  score_batch C sp h src dst nb perf s = (s', inr perf') ->
  trace s' = trace s
             ++ [EvLinkPred C (QueryOf sp) h (repeat src (length nb + 1)) (dst :: nb)] /\
  length perf' = S (length perf).
Proof.
  unfold score_batch. intros H.
  bind_inv H as s1 y Hy. apply egcno_link_pred_inr in Hy. destruct Hy as [_ T].
  destruct y as [| y_pos y_neg]; inversion H; subst. split; [exact T |].
  rewrite length_app. simpl. lia.
Qed.

Lemma egcno_score_batches_inr sp h src dst nbs : forall perf s s' perf',
  for_each nbs (score_batch C sp h src dst) perf s = (s', inr perf') ->
  trace s' = trace s
             ++ map (fun nb => EvLinkPred C (QueryOf sp) h
                                 (repeat src (length nb + 1)) (dst :: nb)) nbs /\
  length perf' = (length perf + length nbs)%nat.
Proof.
  induction nbs as [| nb nbs IH]; intros perf s s' perf' H; simpl in H.
  - inversion H; subst. simpl. rewrite app_nil_r. auto.
  - bind_inv H as s1 p1 H1. apply egcno_score_batch_inr in H1. destruct H1 as [T1 L1].
    apply IH in H. destruct H as [T L]. split.
    + rewrite T, T1, <- app_assoc. reflexivity.
    + rewrite L, L1. simpl. lia.
Qed.

(** The events of the positives of one snapshot are its queries, and
    nothing else; each adds one value to [perf_list]. *)
Lemma egcno_score_snapshot_inr sp h t pos : forall perf s s' perf',
  score_snapshot C sp h t pos perf s = (s', inr perf') ->
  exists new,
    trace s' = trace s ++ new /\
    queries new = expected_queries C sp h t pos /\
    model_calls new = [] /\
    length perf' = (length perf + length (queries new))%nat.
Proof.
  unfold score_snapshot.
  induction pos as [| e pos IH]; intros perf s s' perf' H; simpl in H.
  - inversion H; subst. exists []. rewrite app_nil_r. simpl. auto.
  - bind_inv H as s1 p1 H1. apply egcno_score_batches_inr in H1. destruct H1 as [T1 L1].
    apply IH in H. destruct H as [new [T [Q [Mc L]]]].
    eexists. split; [rewrite T, T1, <- app_assoc; reflexivity |].
    unfold queries, model_calls in *. rewrite !flat_map_app, Q, Mc.
    assert (Hq : forall nbs,
               flat_map (fun e0 : event C =>
                           match e0 with
                           | EvLinkPred _ (QueryOf sp0) h0 a b => [(sp0, h0, a, b)]
                           | _ => []
                           end)
                 (map (fun nb => EvLinkPred C (QueryOf sp) h
                                   (repeat (fst e) (length nb + 1)) (snd e :: nb)) nbs)
               = map (fun nb => (sp, h, repeat (fst e) (length nb + 1), snd e :: nb)) nbs).
    { induction nbs as [| nb nbs IHn]; simpl; [| rewrite IHn]; reflexivity. }
    assert (Hm : forall nbs,
               flat_map (fun e0 : event C =>
                           match e0 with
                           | EvModel _ index _ out => [(index, out)]
                           | _ => []
                           end)
                 (map (fun nb => EvLinkPred C (QueryOf sp) h
                                   (repeat (fst e) (length nb + 1)) (snd e :: nb)) nbs)
               = []).
    { induction nbs as [| nb nbs IHn]; simpl; auto. }
    rewrite Hq, Hm. simpl. repeat split; auto.
    rewrite length_app, length_map. rewrite L, L1.
    unfold queries. rewrite Q. lia.
Qed.

(** One validation snapshot that completes. *)
Lemma egcno_val_snapshot_inr vd t h perf s s' h' perf' :
  val_snapshot C vd t (h, perf) s = (s', inr (h', perf')) ->
  exists pos own out new,
    lookup (original_edges vd) t = Some pos /\
    lookup (ev_edge_index vd) t = Some own /\
    h' = detach (attached out) /\
    trace s' = trace s ++ new /\
    queries new = expected_queries C SplitVal h t pos /\
    model_calls new = [(own, out)] /\
    length perf' = (length perf + length (queries new))%nat.
Proof.
  unfold val_snapshot. intros H.
  bind_inv H as s1 pos H1. apply dict_get_inr in H1. destruct H1 as [-> Lp].
  bind_inv H as s2 p2 H2. apply egcno_score_snapshot_inr in H2.
  destruct H2 as [n2 [T2 [Q2 [M2 L2]]]].
  bind_inv H as s3 own H3. apply dict_get_inr in H3. destruct H3 as [-> Lo].
  bind_inv H as s4 h4 H4. apply egcno_advance_inr in H4.
  destruct H4 as [_ [out [-> [_ T4]]]].
  inversion H; subst. clear H.
  exists pos, own, out. eexists. repeat split; auto.
  - rewrite T4, T2, <- app_assoc. reflexivity.
  - unfold queries in *. rewrite flat_map_app, Q2. simpl. apply app_nil_r.
  - unfold model_calls in *. rewrite flat_map_app, M2. reflexivity.
  - unfold queries in *. rewrite flat_map_app. simpl. rewrite app_nil_r. exact L2.
Qed.

Lemma last_cons_default {A} (l : list A) : forall (x d d' : A),
  last (x :: l) d = last (x :: l) d'.
Proof.
  induction l as [| y l IH]; intros x d d'; [reflexivity |].
  change (last (y :: l) d = last (y :: l) d'). apply IH.
Qed.

(** The loop over the validation snapshots. *)
Lemma egcno_val_loop_inr vd keys : forall h perf s s' h' perf',
  for_each keys (val_snapshot C vd) (h, perf) s = (s', inr (h', perf')) ->
  exists outs new,
    length outs = length keys /\
    trace s' = trace s ++ new /\
    map (fun io => Some (fst io)) (model_calls new)
    = map (lookup (ev_edge_index vd)) keys /\
    map snd (model_calls new) = outs /\
    queries new = expected_val_queries C vd h keys outs /\
    h' = last (map (fun o => detach (attached o)) outs) h /\
    length perf' = (length perf + length (queries new))%nat.
Proof.
  induction keys as [| k keys IH]; intros h perf s s' h' perf' H; simpl in H.
  - inversion H; subst. exists [], []. rewrite app_nil_r. simpl. repeat split; auto.
  - bind_inv H as s1 acc H1. destruct acc as [h1 perf1].
    apply egcno_val_snapshot_inr in H1.
    destruct H1 as [pos [own [out [n1 [Lp [Lo [-> [T1 [Q1 [M1 L1]]]]]]]]]].
    apply IH in H. destruct H as [outs [n2 [Ho [T2 [Mf [Ms [Q2 [Hl L2]]]]]]]].
    exists (out :: outs), (n1 ++ n2). split; [simpl; lia |].
    split; [rewrite T2, T1, <- app_assoc; reflexivity |].
    unfold queries, model_calls in *.
    rewrite !flat_map_app, M1, Q1, Q2. simpl.
    rewrite Lp, Lo, Mf, Ms. repeat split; auto.
    + rewrite Hl. destruct outs as [| o outs]; [reflexivity |].
      simpl map. apply last_cons_default.
    + rewrite length_app, <- Q1, <- Q2, L2, L1. lia.
Qed.

End EgcnoValidation.

Lemma lookup_own_key {A} (d : list (nat * A)) :
  NoDup (map fst d) ->
  map (lookup d) (map fst d) = map (fun kv => Some (snd kv)) d.
Proof.
  induction d as [| [k v] d IH]; intros Hnd; simpl; [reflexivity |].
  inversion Hnd as [| k0 ks Hnotin Hnd']; subst.
  rewrite Nat.eqb_refl. f_equal.
  rewrite <- (IH Hnd'). apply map_ext_in. intros k' Hin.
  destruct (Nat.eqb_spec k k') as [-> | Hne]; [contradiction | reflexivity].
Qed.

Section EgcnoValidationEpoch.

Import Egcno.

Variable C : collaborators.

(** The validation part of an epoch that completes, in full. *)
Lemma egcno_val_epoch_full vd h0 s s' h' v :
  val_epoch C vd (Some h0) s = (s', inr (h', v)) ->
  exists outs new perf,
    length outs = length (ev_edge_index vd) /\
    trace s' = trace s ++ [EvLoadEvalSet C SplitVal] ++ new ++ [EvPrintVal C v] /\
    map (fun io => Some (fst io)) (model_calls new)
    = map (lookup (ev_edge_index vd)) (map fst (ev_edge_index vd)) /\
    map snd (model_calls new) = outs /\
    queries new = expected_val_queries C vd (detach h0) (map fst (ev_edge_index vd)) outs /\
    h' = last (map (fun o => detach (attached o)) outs) (detach h0) /\
    v = np_mean perf /\
    length perf = length (queries new).
Proof.
  unfold val_epoch. intros H.
  bind_inv H as s1 u1 H1. apply exec_inr in H1. destruct H1 as [_ T1].
  bind_inv H as s2 u2 H2. apply emit_inr in H2. destruct H2 as [_ T2].
  bind_inv H as s3 k H3. apply min_key_inr in H3. subst s3.
  bind_inv H as s4 hd H4. simpl in H4. inversion H4; subst s4 hd. clear H4.
  bind_inv H as s5 acc H5. destruct acc as [h1 perf].
  apply egcno_val_loop_inr in H5.
  destruct H5 as [outs [new [Ho [T5 [Mf [Ms [Q [Hl L]]]]]]]].
  bind_inv H as s6 u6 H6. apply emit_inr in H6. destruct H6 as [_ T6].
  inversion H; subst. clear H.
  exists (map snd (model_calls new)), new, perf. repeat split; auto.
  - rewrite Ho, length_map. reflexivity.
  - rewrite T6, T5, T2, T1. repeat rewrite <- app_assoc. reflexivity.
Qed.

Lemma egcno_expected_queries_shape sp h t pos :
  Forall (fun q => exists e nb,
                     In e pos /\
                     In nb (query_batch C sp (fst e) (snd e) t) /\
                     q = (sp, h, repeat (fst e) (S (length nb)), snd e :: nb))
         (expected_queries C sp h t pos).
Proof.
  unfold expected_queries. apply Forall_forall. intros q Hq.
  apply in_flat_map in Hq. destruct Hq as [e [He Hq]].
  apply in_map_iff in Hq. destruct Hq as [nb [<- Hnb]].
  exists e, nb. replace (length nb + 1)%nat with (S (length nb)) by lia. auto.
Qed.

Lemma egcno_expected_val_queries_detached vd keys : forall h outs,
  requires_grad h = false ->
  Forall (fun q => fst (fst (fst q)) = SplitVal /\
                   requires_grad (snd (fst (fst q))) = false /\
                   length (snd (fst q)) = length (snd q) /\
                   snd q <> [])
         (expected_val_queries C vd h keys outs).
Proof.
  induction keys as [| k keys IH]; intros h outs Hh; simpl; [constructor |].
  destruct outs as [| o outs]; [constructor |].
  apply Forall_app. split.
  - eapply Forall_impl; [| apply egcno_expected_queries_shape].
    intros q [e [nb [_ [_ ->]]]]. simpl. rewrite repeat_length.
    repeat split; auto. discriminate.
  - apply IH. reflexivity.
Qed.

End EgcnoValidationEpoch.

(** X3.  A validation pass of the EvolveGCN-O script that completes
    calls the encoder exactly once per validation snapshot, in the
    order of the snapshots and each time on that snapshot's own edges;
    the embedding it hands on is the detached result of the last of
    these calls. *)
Theorem X3_egcno_validation_feeds_each_snapshot_once :
  forall (C : Egcno.collaborators) vd h0 s s' h' v new,
    NoDup (map fst (Egcno.ev_edge_index vd)) ->
    Egcno.val_epoch C vd (Some h0) s = (s', inr (h', v)) ->
    trace s' = trace s ++ new ->
    map fst (Egcno.model_calls new) = map snd (Egcno.ev_edge_index vd) /\
    h' = last (map (fun io => detach (attached (snd io))) (Egcno.model_calls new))
              (detach h0) /\
    requires_grad h' = false.
Proof.
  intros C vd h0 s s' h' v new Hnd H T.
  apply egcno_val_epoch_full in H.
  destruct H as [outs [n1 [perf [Ho [T1 [Mf [Ms [Q [Hl _]]]]]]]]].
  rewrite T1 in T. apply app_inv_head in T. subst new.
  assert (Hm : Egcno.model_calls
                 ([Egcno.EvLoadEvalSet C SplitVal] ++ n1 ++ [Egcno.EvPrintVal C v])
               = Egcno.model_calls n1).
  { unfold Egcno.model_calls. simpl. rewrite flat_map_app. simpl. apply app_nil_r. }
  rewrite Hm. split; [| split].
  - rewrite (lookup_own_key _ Hnd) in Mf.
    assert (Hinj : forall (l1 : list (edges * Egcno.Emb C)) (l2 : list (nat * edges)),
               map (fun io => Some (fst io)) l1 = map (fun kv => Some (snd kv)) l2 ->
               map fst l1 = map snd l2).
    { induction l1 as [| a l1 IH]; intros [| b l2] E; simpl in *;
        try discriminate; [reflexivity |].
      inversion E. f_equal. apply IH. assumption. }
    apply Hinj. exact Mf.
  - rewrite Hl, <- Ms, map_map. reflexivity.
  - rewrite Hl. destruct outs as [| o outs]; [reflexivity |].
    simpl map.
    assert (Hd : forall (l : list (Egcno.htensor C)) (x d : Egcno.htensor C),
               requires_grad x = false ->
               Forall (fun y => requires_grad y = false) l ->
               requires_grad (last (x :: l) d) = false).
    { induction l as [| y l IH]; intros x d Hx Hall; [exact Hx |].
      inversion Hall; subst. change (requires_grad (last (y :: l) d) = false).
      apply IH; assumption. }
    apply Hd; [reflexivity |].
    apply Forall_forall. intros y Hy. apply in_map_iff in Hy.
    destruct Hy as [o' [<- _]]. reflexivity.
Qed.

Lemma X3_witness :
  map fst (Egcno.model_calls
             (trace (fst (Egcno.val_epoch Demo.egcno Demo.egcno_val
                            (Some (attached Demo.snap1)) Demo.egcno_init))))
  = [Demo.snap0; Demo.snap1].
Proof.
  pose (X := Egcno.val_epoch Demo.egcno Demo.egcno_val
               (Some (attached Demo.snap1)) Demo.egcno_init).
  assert (E : X = (fst X, inr (mkTracked Demo.snap1 false, Fin (6 # 18))))
    by (apply pair_of_snd; vm_compute; reflexivity).
  assert (Hnd : NoDup (map fst (Egcno.ev_edge_index Demo.egcno_val))).
  { simpl. repeat constructor; simpl; intuition discriminate. }
  exact (proj1 (X3_egcno_validation_feeds_each_snapshot_once Demo.egcno Demo.egcno_val
                  (attached Demo.snap1) Demo.egcno_init (fst X) _ _ (trace (fst X))
                  Hnd E (eq_sym (app_nil_l (trace (fst X)))))).
Defined.

(** X4.  The queries of a validation pass of the EvolveGCN-O script
    that completes are, snapshot after snapshot, one query per positive
    edge and negative batch: the source repeated, against the positive
    destination followed by the negatives of the batch.  The first
    snapshot is queried with the detached embedding left by training,
    every later one with the detached embedding the encoder returned
    for the snapshot before it; so every query is in validation mode,
    on a detached embedding, with as many sources as destinations. *)
Theorem X4_egcno_validation_queries :
  forall (C : Egcno.collaborators) vd h0 s s' h' v new,
    Egcno.val_epoch C vd (Some h0) s = (s', inr (h', v)) ->
    trace s' = trace s ++ new ->
    Egcno.queries new
    = Egcno.expected_val_queries C vd (detach h0)
        (map fst (Egcno.ev_edge_index vd)) (map snd (Egcno.model_calls new)) /\
    Forall (fun q => fst (fst (fst q)) = SplitVal /\
                     requires_grad (snd (fst (fst q))) = false /\
                     length (snd (fst q)) = length (snd q) /\
                     snd q <> [])
           (Egcno.queries new).
Proof.
  intros C vd h0 s s' h' v new H T.
  apply egcno_val_epoch_full in H.
  destruct H as [outs [n1 [perf [Ho [T1 [Mf [Ms [Q _]]]]]]]].
  rewrite T1 in T. apply app_inv_head in T. subst new.
  assert (Hm : Egcno.model_calls
                 ([Egcno.EvLoadEvalSet C SplitVal] ++ n1 ++ [Egcno.EvPrintVal C v])
               = Egcno.model_calls n1).
  { unfold Egcno.model_calls. simpl. rewrite flat_map_app. simpl. apply app_nil_r. }
  assert (Hq : Egcno.queries
                 ([Egcno.EvLoadEvalSet C SplitVal] ++ n1 ++ [Egcno.EvPrintVal C v])
               = Egcno.queries n1).
  { unfold Egcno.queries. simpl. rewrite flat_map_app. simpl. apply app_nil_r. }
  rewrite Hm, Hq, Ms, Q. split; [reflexivity |].
  apply egcno_expected_val_queries_detached. reflexivity.
Qed.

Lemma X4_witness :
  Egcno.queries
    (trace (fst (Egcno.val_epoch Demo.egcno Demo.egcno_val
                   (Some (attached Demo.snap1)) Demo.egcno_init)))
  = Egcno.expected_val_queries Demo.egcno Demo.egcno_val (detach (attached Demo.snap1))
      [3; 4]%nat
      (map snd (Egcno.model_calls
                  (trace (fst (Egcno.val_epoch Demo.egcno Demo.egcno_val
                                 (Some (attached Demo.snap1)) Demo.egcno_init))))).
Proof.
  pose (X := Egcno.val_epoch Demo.egcno Demo.egcno_val
               (Some (attached Demo.snap1)) Demo.egcno_init).
  assert (E : X = (fst X, inr (mkTracked Demo.snap1 false, Fin (6 # 18))))
    by (apply pair_of_snd; vm_compute; reflexivity).
  exact (proj1 (X4_egcno_validation_queries Demo.egcno Demo.egcno_val
                  (attached Demo.snap1) Demo.egcno_init (fst X) _ _ (trace (fst X))
                  E (eq_sym (app_nil_l (trace (fst X)))))).
Defined.

Lemma np_mean_nan (l : list Q) : np_mean l = NaN <-> l = [].
Proof.
  destruct l; simpl; split; intros H; auto; discriminate.
Qed.

(** X5.  The validation metric of the EvolveGCN-O script is the mean of
    a list that holds one value per query, and it is [nan] exactly when
    the pass made no query (no positive edge, or no negative batch for
    any of them).  After a [nan] the record is left as it is, with no
    test evaluation and no [break]. *)
Theorem X5_egcno_validation_metric :
  forall (C : Egcno.collaborators) vd h0 s s' h' v new,
    Egcno.val_epoch C vd (Some h0) s = (s', inr (h', v)) ->
    trace s' = trace s ++ new ->
    (exists perf_list,
        v = np_mean perf_list /\
        length perf_list = length (Egcno.queries new)) /\
    (v = NaN <-> Egcno.queries new = []) /\
    (v = NaN ->
     forall a ted epoch r,
       Egcno.after_validation C a ted epoch h' v r s' = (s', inr (r, false))).
Proof.
  intros C vd h0 s s' h' v new H T.
  apply egcno_val_epoch_full in H.
  destruct H as [outs [n1 [perf [Ho [T1 [Mf [Ms [Q [Hl [Hv L]]]]]]]]]].
  rewrite T1 in T. apply app_inv_head in T. subst new.
  assert (Hq : Egcno.queries
                 ([Egcno.EvLoadEvalSet C SplitVal] ++ n1 ++ [Egcno.EvPrintVal C v])
               = Egcno.queries n1).
  { unfold Egcno.queries. simpl. rewrite flat_map_app. simpl. apply app_nil_r. }
  rewrite Hq. split; [| split].
  - exists perf. auto.
  - rewrite Hv, np_mean_nan. rewrite <- !length_zero_iff_nil, L. reflexivity.
  - intros Hn a ted epoch r. rewrite Hn. reflexivity.
Qed.

Lemma X5_witness :
  Fin (6 # 18) = NaN
  <-> Egcno.queries
        (trace (fst (Egcno.val_epoch Demo.egcno Demo.egcno_val
                       (Some (attached Demo.snap1)) Demo.egcno_init))) = [].
Proof.
  pose (X := Egcno.val_epoch Demo.egcno Demo.egcno_val
               (Some (attached Demo.snap1)) Demo.egcno_init).
  assert (E : X = (fst X, inr (mkTracked Demo.snap1 false, Fin (6 # 18))))
    by (apply pair_of_snd; vm_compute; reflexivity).
  exact (proj1 (proj2 (X5_egcno_validation_metric Demo.egcno Demo.egcno_val
                         (attached Demo.snap1) Demo.egcno_init (fst X) _ _
                         (trace (fst X)) E (eq_sym (app_nil_l (trace (fst X))))))).
Defined.

(** ** The record a run ends with *)

Lemma Qgtb_false_le (a b : Q) : Qgtb a b = false -> (a <= b)%Q.
Proof.
  unfold Qgtb. intros H. apply negb_false_iff in H. apply Qle_bool_iff. exact H.
Qed.

(** What the best-tracking rule computes over a sequence of metrics:
    an upper bound of the start value and of every metric that is a
    number, which is either the start value, with no improvement in
    the sequence, or the metric of the epoch recorded with it. *)
Lemma track_fold_spec (vs : list pyfloat) : forall best0 last0 e0,
  let res := fold_left track_step vs (best0, last0, e0) in
  (best0 <= fst (fst res))%Q /\
  snd res = (e0 + length vs)%nat /\
  (forall i v, nth_error vs i = Some (Fin v) -> (v <= fst (fst res))%Q) /\
  ((improvements best0 vs = 0%nat /\ fst (fst res) = best0 /\ snd (fst res) = last0)
   \/
   (exists i, snd (fst res) = (e0 + i)%nat /\
              nth_error vs i = Some (Fin (fst (fst res))))).
Proof.
  induction vs as [| v vs IH]; intros best0 last0 e0; simpl.
  - split; [apply Qle_refl |]. split; [lia |]. split.
    + intros [| i] w H; discriminate.
    + left. auto.
  - destruct (gt_float v best0) eqn:G.
    + destruct v as [| q]; [discriminate |]. simpl in G. apply Qgtb_lt in G. simpl value_of.
      destruct (IH q e0 (S e0)) as [Hb [He [Hall Hwho]]].
      split; [apply Qle_trans with q; [apply Qlt_le_weak; exact G | exact Hb] |].
      split; [rewrite He; lia |]. split.
      * intros [| i] w H; simpl in H.
        -- inversion H; subst. exact Hb.
        -- apply (Hall i w H).
      * right. destruct Hwho as [[_ [Eb El]] | [i [El En]]].
        -- exists 0%nat. rewrite El, Eb. split; [lia | reflexivity].
        -- exists (S i). split; [rewrite El; lia | exact En].
    + destruct (IH best0 last0 (S e0)) as [Hb [He [Hall Hwho]]].
      split; [exact Hb |]. split; [rewrite He; lia |]. split.
      * intros [| i] w H; simpl in H.
        -- inversion H; subst. simpl in G. apply Qgtb_false_le in G.
           apply Qle_trans with best0; assumption.
        -- apply (Hall i w H).
      * destruct Hwho as [Hsame | [i [El En]]].
        -- left. exact Hsame.
        -- right. exists (S i). split; [rewrite El; lia | exact En].
Qed.

Section EgcnoRecord.

Import Egcno.

Variable C : collaborators.

Lemma egcno_quiet_more (l : list (event C)) :
  Forall (quiet C) l -> tests l = [] /\ finishes l = [].
Proof.
  induction 1 as [| e l He Hl [IH1 IH2]]; simpl; auto.
  rewrite IH1, IH2. unfold quiet in He.
  destruct e; simpl in *; try discriminate; auto.
Qed.

(** One completed epoch, for the record and the remaining reports. *)
Lemma egcno_epoch_record a td vd ted e r s s' r' brk :
  epoch_body C a td vd ted e r s = (s', inr (r', brk)) ->
  exists v new,
    trace s' = trace s ++ new /\
    vals new = [v] /\
    finishes new = (if brk then [true] else []) /\
    (if gt_float v (best_val r)
     then exists tv,
            tests new = [tv] /\
            r' = {| best_val := value_of v; best_test := tv; best_epoch := e |}
     else tests new = [] /\ r' = r /\ brk = false).
Proof.
  intros H. apply egcno_epoch_body_inr in H.
  destruct H as [v [pre [post [Qp [T Hcase]]]]].
  destruct (egcno_quiet_projections C pre Qp) as [_ [Vp _]].
  destruct (egcno_quiet_more pre Qp) as [Tp Fp].
  exists v, (pre ++ [EvPrintVal C v] ++ post). split; [exact T |].
  unfold vals, tests, finishes in *.
  rewrite !flat_map_app, Vp, Tp, Fp. simpl.
  destruct Hcase as [[G [-> [-> ->]]] | [G [tpre [tv [Qt [-> [Eb ->]]]]]]].
  - rewrite G. simpl. auto.
  - rewrite G.
    destruct (egcno_quiet_projections C tpre Qt) as [_ [Vt _]].
    destruct (egcno_quiet_more tpre Qt) as [Tt Ft].
    unfold vals, tests, finishes in *.
    rewrite !flat_map_app, Vt, Tt, Ft. simpl.
    split; [destruct brk; reflexivity |].
    split; [destruct brk; reflexivity |].
    exists tv. split; [destruct brk; reflexivity | reflexivity].
Qed.

(** The loop over epochs, for the record and the number of epochs. *)
Lemma egcno_epochs_loop_record a td vd ted n :
  forall k r s s' r' brk,
    epochs_loop C a td vd ted (seq k n) r s = (s', inr (r', brk)) ->
    exists new,
      trace s' = trace s ++ new /\
      fold_left track_step (vals new) (best_val r, best_epoch r, k)
      = (best_val r', best_epoch r', (k + length (vals new))%nat) /\
      best_test r' = last (tests new) (best_test r) /\
      length (tests new) = improvements (best_val r) (vals new) /\
      (length (vals new) <= n)%nat /\
      (brk = false -> length (vals new) = n) /\
      (brk = true -> S (best_epoch r') = (k + length (vals new))%nat) /\
      finishes new = (if brk then [true] else []).
Proof.
  unfold epochs_loop.
  induction n as [| n IH]; intros k r s s' r' brk H; simpl in H.
  - inversion H; subst. exists []. rewrite app_nil_r. simpl.
    rewrite Nat.add_0_r. repeat split; auto. discriminate.
  - bind_inv H as s1 rb Hb. destruct rb as [r1 b1].
    apply egcno_epoch_record in Hb.
    destruct Hb as [v [n1 [T1 [V1 [F1 Hcase]]]]].
    destruct b1.
    + inversion H; subst s1 r1 brk. clear H.
      exists n1. split; [exact T1 |]. rewrite V1, F1. simpl.
      destruct (gt_float v (best_val r)) eqn:G.
      * destruct Hcase as [tv [Tt ->]]. rewrite Tt. simpl.
        split; [f_equal; lia |].
        repeat split; auto; try lia; intros Hf; discriminate.
      * destruct Hcase as [_ [_ Hb]]. discriminate.
    + apply IH in H.
      destruct H as [n2 [T2 [Tr [Bt [Ti [Ln [Lf [Lb F2]]]]]]]].
      exists (n1 ++ n2). split; [rewrite T2, T1, app_assoc; reflexivity |].
      unfold vals, tests, finishes in *. rewrite !flat_map_app, V1, F1. simpl.
      destruct (gt_float v (best_val r)) eqn:G.
      * destruct Hcase as [tv [Tt ->]]. rewrite Tt. simpl in *.
        rewrite Tr. repeat split; auto; try lia.
        -- rewrite Bt. destruct (flat_map _ n2) as [| t0 ts];
             [reflexivity | apply last_cons_default].
        -- intros Hf. rewrite (Lb Hf). lia.
      * destruct Hcase as [Tt [-> _]]. rewrite Tt. simpl in *.
        rewrite Tr. repeat split; auto; try lia.
        intros Hf. rewrite (Lb Hf). lia.
Qed.

End EgcnoRecord.

Lemma egcno_run_record (C : Egcno.collaborators) a td vd ted s s' r brk new :
  Egcno.run C a td vd ted s = (s', inr (r, brk)) ->
  trace s' = trace s ++ new ->
  track (Egcno.vals new)
  = (Egcno.best_val r, Egcno.best_epoch r, length (Egcno.vals new)) /\
  Egcno.best_test r = last (Egcno.tests new) (Fin 0) /\
  length (Egcno.tests new) = improvements 0 (Egcno.vals new) /\
  (length (Egcno.vals new) <= Egcno.max_epoch a)%nat /\
  (brk = false -> length (Egcno.vals new) = Egcno.max_epoch a) /\
  (brk = true -> S (Egcno.best_epoch r) = length (Egcno.vals new)) /\
  Egcno.finishes new = (if brk then [true; false] else [false]).
Proof.
  intros H T. unfold Egcno.run in H.
  bind_inv H as s1 rb HL. destruct rb as [r1 b1].
  bind_inv H as s2 u He. apply emit_inr in He. destruct He as [_ Te].
  inversion H; subst s2 r1 b1. clear H.
  apply egcno_epochs_loop_record in HL.
  destruct HL as [n1 [T1 [Tr [Bt [Ti [Ln [Lf [Lb F]]]]]]]].
  assert (En : new = n1 ++ [Egcno.EvRunFinishes C false r]).
  { rewrite Te, T1, <- app_assoc in T. apply app_inv_head in T. auto. }
  subst new. unfold Egcno.vals, Egcno.tests, Egcno.finishes, track in *.
  rewrite !flat_map_app. simpl. rewrite !app_nil_r.
  simpl in Tr, Bt, Ti. rewrite Tr, F. repeat split; auto.
  destruct brk; reflexivity.
Qed.

(** X6.  The record a run of the EvolveGCN-O script ends with:
    [best_val] is at least every validation metric of the run that is
    a number; either no epoch was a strict improvement and the record
    is the initial one, or [best_val] is the metric of epoch
    [best_epoch]; and [best_test] is the last test metric measured,
    there being one test metric per strict improvement. *)
Theorem X6_egcno_run_record :
  forall (C : Egcno.collaborators) a td vd ted s s' r brk new,
    Egcno.run C a td vd ted s = (s', inr (r, brk)) ->
    trace s' = trace s ++ new ->
    (forall e v, nth_error (Egcno.vals new) e = Some (Fin v) ->
                 (v <= Egcno.best_val r)%Q) /\
    ((improvements 0 (Egcno.vals new) = 0%nat /\ r = Egcno.initial_record)
     \/
     nth_error (Egcno.vals new) (Egcno.best_epoch r) = Some (Fin (Egcno.best_val r))) /\
    Egcno.best_test r = last (Egcno.tests new) (Fin 0) /\
    length (Egcno.tests new) = improvements 0 (Egcno.vals new).
Proof.
  intros C a td vd ted s s' r brk new H T.
  destruct (egcno_run_record _ _ _ _ _ _ _ _ _ _ H T) as [Tr [Bt [Ti _]]].
  pose proof (track_fold_spec (Egcno.vals new) 0%Q 0%nat 0%nat) as Hs.
  unfold track in Tr. rewrite Tr in Hs. simpl in Hs.
  destruct Hs as [_ [_ [Hall Hwho]]].
  split; [exact Hall |]. split; [| split; assumption].
  destruct Hwho as [[Hi [Hb He]] | [i [Hl Hn]]].
  - left. split; [exact Hi |].
    rewrite Hi in Ti. apply length_zero_iff_nil in Ti. rewrite Ti in Bt. simpl in Bt.
    destruct r as [bv bt be]. simpl in *. subst. reflexivity.
  - right. rewrite Hl. exact Hn.
Qed.

Lemma X6_witness :
  Fin (2 # 2)
  = last (Egcno.tests
            (trace (fst (Egcno.run Demo.egcno (Demo.egcno_args 6 100) Demo.egcno_train
                           Demo.egcno_val Demo.egcno_test Demo.egcno_init))))
         (Fin 0).
Proof.
  pose (X := Egcno.run Demo.egcno (Demo.egcno_args 6 100) Demo.egcno_train
               Demo.egcno_val Demo.egcno_test Demo.egcno_init).
  assert (E : X = (fst X, inr ({| Egcno.best_val := 2 # 2;
                                  Egcno.best_test := Fin (2 # 2);
                                  Egcno.best_epoch := 3 |}, false)))
    by (apply pair_of_snd; vm_compute; reflexivity).
  exact (proj1 (proj2 (proj2 (X6_egcno_run_record Demo.egcno (Demo.egcno_args 6 100)
                                Demo.egcno_train Demo.egcno_val Demo.egcno_test
                                Demo.egcno_init (fst X) _ _ (trace (fst X)) E
                                (eq_sym (app_nil_l (trace (fst X)))))))).
Defined.

(** X7.  A run of the EvolveGCN-O script that completes carries out at
    most [max_epoch] epochs, and exactly [max_epoch] when the loop is
    not left by [break]; when it is, the last epoch carried out is
    [best_epoch].  The "run finishes" block is printed once, after the
    loop, and once more before it when the loop is left by [break]. *)
Theorem X7_egcno_epochs_carried_out :
  forall (C : Egcno.collaborators) a td vd ted s s' r brk new,
    Egcno.run C a td vd ted s = (s', inr (r, brk)) ->
    trace s' = trace s ++ new ->
    (length (Egcno.vals new) <= Egcno.max_epoch a)%nat /\
    (brk = false -> length (Egcno.vals new) = Egcno.max_epoch a) /\
    (brk = true -> S (Egcno.best_epoch r) = length (Egcno.vals new)) /\
    Egcno.finishes new = (if brk then [true; false] else [false]).
Proof.
  intros C a td vd ted s s' r brk new H T.
  destruct (egcno_run_record _ _ _ _ _ _ _ _ _ _ H T) as [_ [_ [_ Hrest]]].
  exact Hrest.
Qed.

Lemma X7_witness :
  Egcno.finishes
    (trace (fst (Egcno.run Demo.egcno (Demo.egcno_args 6 2) Demo.egcno_train
                   Demo.egcno_val Demo.egcno_test Demo.egcno_init)))
  = [true; false].
Proof.
  pose (X := Egcno.run Demo.egcno (Demo.egcno_args 6 2) Demo.egcno_train
               Demo.egcno_val Demo.egcno_test Demo.egcno_init).
  assert (E : X = (fst X, inr ({| Egcno.best_val := 2 # 2;
                                  Egcno.best_test := Fin (2 # 2);
                                  Egcno.best_epoch := 3 |}, true)))
    by (apply pair_of_snd; vm_compute; reflexivity).
  exact (proj2 (proj2 (proj2 (X7_egcno_epochs_carried_out Demo.egcno (Demo.egcno_args 6 2)
                                Demo.egcno_train Demo.egcno_val Demo.egcno_test
                                Demo.egcno_init (fst X) _ _ (trace (fst X)) E
                                (eq_sym (app_nil_l (trace (fst X)))))))).
Defined.

(** ** What the training loops feed to the encoder *)

Lemma Forall2_nth_firstn {A} (l : list A) : forall m k xs,
  Forall2 (fun i x => nth_error l i = Some x) (seq k m) xs ->
  xs = firstn m (skipn k l).
Proof.
  induction m as [| m IH]; intros k xs H; simpl in H.
  - inversion H; subst. reflexivity.
  - inversion H as [| i x js xs' Hn Hrest]; subst.
    apply IH in Hrest. subst xs'.
    clear - Hn. revert l Hn. induction k as [| k IHk]; intros l Hn.
    + destruct l as [| y l]; simpl in *; [discriminate |]. inversion Hn; subst. reflexivity.
    + destruct l as [| y l]; simpl in *; [discriminate |]. apply IHk. exact Hn.
Qed.

Lemma shifted_feeds {A I} (l : list A) (feed : I -> A) :
  forall T (its : list I),
    Forall2 (fun t it => nth_error l (t - 1) = Some (feed it)) (seq 0 T) its ->
    match its with
    | [] => T = 0%nat
    | it0 :: _ => map feed its = feed it0 :: firstn (T - 1) l /\ hd_error l = Some (feed it0)
    end.
Proof.
  intros T its H. destruct T as [| T]; simpl in H.
  - inversion H; subst. reflexivity.
  - inversion H as [| t it0 ts its' H0 Hrest]; subst. simpl in H0.
    split.
    + simpl. f_equal. rewrite Nat.sub_0_r.
      rewrite <- seq_shift in Hrest.
      assert (Hr : Forall2 (fun i x => nth_error l i = Some x) (seq 0 T) (map feed its')).
      { clear - Hrest. revert Hrest. generalize (seq 0 T). intros js.
        revert js. induction its' as [| it its IH]; intros js H.
        - inversion H as [E1 E2 |]. symmetry in E1. apply map_eq_nil in E1. subst.
          constructor.
        - destruct js as [| j js]; inversion H; subst. simpl.
          constructor.
          + simpl in H3. rewrite Nat.sub_0_r in H3. exact H3.
          + apply IH. assumption. }
      apply Forall2_nth_firstn in Hr. exact Hr.
    + destruct l; simpl in *; [discriminate | exact H0].
Qed.

Section EgcnoHandOver.

Import Egcno.

Variable C : collaborators.

Lemma egcno_iterations_model_calls n (its : list (iteration C)) :
  model_calls (flat_map (iteration_events C n) its)
  = map (fun it => (it_feed C it, it_emb C it)) its.
Proof.
  unfold model_calls. induction its as [| it its IH]; simpl; [| rewrite IH]; reflexivity.
Qed.

(** The embedding the training loop leaves behind is that of its last
    iteration. *)
Lemma egcno_train_loop_last td n l : forall vars s s' vars',
  for_each l (train_snapshot C td n) vars s = (s', inr vars') ->
  exists its,
    Forall2 (shifted C td) l its /\
    trace s' = trace s ++ flat_map (iteration_events C n) its /\
    fst vars' = last (map (fun it => Some (attached (it_emb C it))) its) (fst vars).
Proof.
  induction l as [| t l IH]; intros vars s s' vars' H; simpl in H.
  - inversion H; subst. exists []. simpl. rewrite app_nil_r. auto.
  - bind_inv H as s1 vars1 Hstep.
    apply egcno_train_snapshot_inr in Hstep.
    destruct Hstep as [it [Hf [Hp [_ [_ [_ [Hh [_ Ht]]]]]]]].
    destruct (IH _ _ _ _ H) as [its [Hall [Ht' Hl]]].
    exists (it :: its). split; [constructor; [split; assumption | exact Hall] |].
    split; [simpl; rewrite Ht', Ht, <- app_assoc; reflexivity |].
    rewrite Hl, Hh. destruct its as [| it' its']; [reflexivity |].
    simpl map. exact (last_cons_default _ _ _ (fst vars)).
Qed.

End EgcnoHandOver.

Lemma Forall2_seq_nth {A} (R : nat -> A -> Prop) (xs : list A) : forall k m,
  Forall2 R (seq k m) xs ->
  forall i, (i < m)%nat -> exists x, nth_error xs i = Some x /\ R (k + i)%nat x.
Proof.
  induction xs as [| x xs IH]; intros k m H i Hi.
  - inversion H as [E |]. destruct m; [lia | discriminate].
  - destruct m as [| m]; [lia |]. simpl in H.
    inversion H as [| t y ts ys Hx Hrest]; subst.
    destruct i as [| i].
    + exists x. rewrite Nat.add_0_r. auto.
    + destruct (IH (S k) m Hrest i) as [y [Hy Ry]]; [lia |].
      exists y. split; [exact Hy |].
      replace (k + S i)%nat with (S k + i)%nat by lia. exact Ry.
Qed.

(** X8.  A training epoch of the EvolveGCN-O script that completes
    calls the encoder [time_length] times, call [t] on the snapshot of
    index [t - 1] and call 0 on snapshot 0: first snapshot 0, then the
    first [time_length - 1] snapshots in order.  With two snapshots or
    more, calls 0 and 1 are so both on snapshot 0 and no call is on the
    index [time_length - 1]; with one snapshot there is the one call on
    snapshot 0.  The embedding handed to validation is what the encoder
    returned at its last call. *)
Theorem X8_egcno_training_feeds :
  forall (C : Egcno.collaborators) td n s s' h new,
    Egcno.train_epoch C td n s = (s', inr h) ->
    trace s' = trace s ++ new ->
    length (Egcno.model_calls new) = Egcno.time_length td /\
    hd_error (map fst (Egcno.model_calls new)) = hd_error (Egcno.edge_index td) /\
    tl (map fst (Egcno.model_calls new))
    = firstn (Egcno.time_length td - 1) (Egcno.edge_index td) /\
    h = last (map (fun io => Some (attached (snd io))) (Egcno.model_calls new)) None /\
    (forall t, (t < Egcno.time_length td)%nat ->
       exists feed,
         nth_error (map fst (Egcno.model_calls new)) t = Some feed /\
         nth_error (Egcno.edge_index td) (t - 1) = Some feed) /\
    ((2 <= Egcno.time_length td)%nat ->
       nth_error (map fst (Egcno.model_calls new)) 1
       = nth_error (map fst (Egcno.model_calls new)) 0).
Proof.
  intros C td n s s' h new H T.
  unfold Egcno.train_epoch in H.
  bind_inv H as s1 u1 H1. apply exec_inr in H1. destruct H1 as [_ T1].
  bind_inv H as s2 u2 H2. apply emit_inr in H2. destruct H2 as [_ T2].
  bind_inv H as s3 u3 H3. apply exec_inr in H3. destruct H3 as [_ T3].
  bind_inv H as s4 vars HL. destruct vars as [h4 total_loss].
  pose proof HL as HL'. apply egcno_train_loop_inr in HL'.
  destruct HL' as [_ [_ [_ [_ [_ Hnil]]]]].
  apply egcno_train_loop_last in HL.
  destruct HL as [its [Hall [TL Hlast]]]. simpl in Hlast.
  destruct total_loss as [| v]; [unfold raise in H; discriminate |].
  bind_inv H as s5 u5 H5. apply exec_inr in H5. destruct H5 as [_ T5].
  bind_inv H as s6 u6 H6. apply emit_inr in H6. destruct H6 as [_ T6].
  bind_inv H as s7 u7 H7. apply exec_inr in H7. destruct H7 as [_ T7].
  bind_inv H as s8 u8 H8. apply emit_inr in H8. destruct H8 as [_ T8].
  bind_inv H as s9 u9 H9. apply emit_inr in H9. destruct H9 as [_ T9].
  inversion H; subst s9 h. clear H.
  assert (En : new = [Egcno.EvZeroGrad C]
                     ++ flat_map (Egcno.iteration_events C n) its
                     ++ [Egcno.EvBackward C v; Egcno.EvOptStep C;
                         Egcno.EvPrintLoss C
                           (v / inject_Z (Z.of_nat (Egcno.time_length td)))]).
  { rewrite T9, T8, T7, T6, T5, TL, T3, T2, T1 in T.
    repeat rewrite <- app_assoc in T. apply app_inv_head in T. rewrite <- T. reflexivity. }
  assert (Hm : Egcno.model_calls new
               = map (fun it => (Egcno.it_feed C it, Egcno.it_emb C it)) its).
  { subst new. unfold Egcno.model_calls. simpl. rewrite flat_map_app. simpl.
    rewrite app_nil_r. apply egcno_iterations_model_calls. }
  rewrite Hm, !map_map. simpl.
  assert (Hlen : length its = Egcno.time_length td).
  { apply Forall2_length in Hall. rewrite length_seq in Hall. auto. }
  assert (Hsh : Forall2 (fun t it => nth_error (Egcno.edge_index td) (t - 1)
                                     = Some (Egcno.it_feed C it))
                  (seq 0 (Egcno.time_length td)) its).
  { eapply Forall2_impl; [| exact Hall]. intros t it [Hf _]. exact Hf. }
  assert (Hnth : forall t, (t < Egcno.time_length td)%nat ->
             exists feed,
               nth_error (map (fun x => Egcno.it_feed C x) its) t = Some feed /\
               nth_error (Egcno.edge_index td) (t - 1) = Some feed).
  { intros t Ht. destruct (Forall2_seq_nth _ _ _ _ Hsh t Ht) as [it [Hit Hf]].
    exists (Egcno.it_feed C it). split; [| exact Hf].
    rewrite nth_error_map, Hit. reflexivity. }
  apply shifted_feeds in Hsh.
  split; [rewrite length_map; exact Hlen |].
  destruct its as [| it0 its'].
  - exfalso. simpl in Hlen.
    rewrite <- Hlen in Hnil. specialize (Hnil eq_refl). discriminate.
  - destruct Hsh as [Hfeeds Hhd]. simpl. split; [| split; [| split; [| split]]].
    + rewrite Hhd. reflexivity.
    + simpl in Hfeeds. inversion Hfeeds. reflexivity.
    + rewrite Hlast. simpl. reflexivity.
    + exact Hnth.
    + intros H2.
      destruct (Hnth 0%nat) as [f0 [E0 D0]]; [lia |].
      destruct (Hnth 1%nat) as [f1 [E1 D1]]; [lia |].
      simpl in D0, D1. simpl in E0, E1.
      change (nth_error (Egcno.it_feed C it0
                         :: map (fun x => Egcno.it_feed C x) its') 1) with
        (nth_error (map (fun x => Egcno.it_feed C x) its') 0).
      rewrite E1. simpl. congruence.
Qed.

Lemma X8_witness :
  tl (map fst (Egcno.model_calls
                 (trace (fst (Egcno.train_epoch Demo.egcno Demo.egcno_train 5
                                Demo.egcno_init)))))
  = firstn (3 - 1) (Egcno.edge_index Demo.egcno_train).
Proof.
  pose (X := Egcno.train_epoch Demo.egcno Demo.egcno_train 5 Demo.egcno_init).
  assert (E : X = (fst X, inr (Some (attached Demo.snap1))))
    by (apply pair_of_snd; vm_compute; reflexivity).
  exact (proj1 (proj2 (proj2 (X8_egcno_training_feeds Demo.egcno Demo.egcno_train 5%nat
                                Demo.egcno_init (fst X) _ (trace (fst X)) E
                                (eq_sym (app_nil_l (trace (fst X)))))))).
Defined.

(** ** The recurrent state of the GC-LSTM script *)

Section GclstmState.

Import Gclstm.

Variable C : collaborators.

Lemma gclstm_train_snapshot_io td n t vars s s' vars' :
  train_snapshot C td n t vars s = (s', inr vars') ->
  exists feed out new,
    nth_error (edge_index td) (t - 1) = Some feed /\
    trace s' = trace s ++ new /\
    model_io new = [(feed, tv_h C vars, tv_c C vars, out)] /\
    tv_h C vars' = Some (attached (fst out)) /\
    tv_c C vars' = Some (attached (snd out)).
Proof.
  unfold train_snapshot. intros H.
  bind_inv H as s0 pos Hg. apply getitem_inr in Hg. destruct Hg as [-> Hpos].
  bind_inv H as s1 neg Hn. apply call_inr in Hn. destruct Hn as [_ Htn].
  bind_inv H as s2 u He. apply emit_inr in He. destruct He as [_ Hte].
  bind_inv H as s3 fhc Hb. destruct fhc as [feed [h c]].
  assert (Hfeed : nth_error (edge_index td) (t - 1) = Some feed /\
                  advance C (has_edge_attr td) feed (tv_h C vars) (tv_c C vars) s2
                  = (s3, inr (h, c))).
  { destruct (Nat.eqb_spec t 0) as [-> | Hne].
    - bind_inv Hb as s4 hc Ha. inversion Hb; subst. simpl. auto.
    - bind_inv Hb as s4 prev Hg. apply getitem_inr in Hg. destruct Hg as [-> Hprev].
      bind_inv Hb as s5 hc Ha. inversion Hb; subst. auto. }
  destruct Hfeed as [Hfd Hadv]. clear Hb.
  apply gclstm_advance_inr in Hadv. destruct Hadv as [Hattr [out [Hhc Hta]]].
  inversion Hhc; subst h c. clear Hhc.
  bind_inv H as s4 pos_out Hp. apply gclstm_link_pred_inr in Hp.
  bind_inv H as s5 neg_out Hq. apply gclstm_link_pred_inr in Hq.
  bind_inv H as s6 lp Hlp. apply gclstm_crit_inr in Hlp. destruct Hlp as [-> Htc].
  bind_inv H as s7 ln Hln. apply gclstm_crit_inr in Hln. destruct Hln as [-> Htd].
  inversion H; subst. clear H.
  exists feed, out. eexists. split; [exact Hfd |]. split.
  - rewrite Htd, Htc, Hq, Hp, Hta, Hte, Htn. repeat rewrite <- app_assoc. reflexivity.
  - simpl. auto.
Qed.

Lemma gclstm_train_loop_io td n l : forall vars s s' vars',
  for_each l (train_snapshot C td n) vars s = (s', inr vars') ->
  exists new,
    trace s' = trace s ++ new /\
    Forall2 (fun t io => nth_error (edge_index td) (t - 1) = Some (fst (fst (fst io))))
            l (model_io new) /\
    threaded C (tv_h C vars) (tv_c C vars) (model_io new) /\
    (tv_h C vars', tv_c C vars')
    = final_state C (tv_h C vars) (tv_c C vars) (model_io new).
Proof.
  induction l as [| t l IH]; intros vars s s' vars' H; simpl in H.
  - inversion H; subst. exists []. rewrite app_nil_r. simpl.
    split; [reflexivity |]. split; [constructor |]. split; [exact I | reflexivity].
  - bind_inv H as s1 vars1 Hstep.
    apply gclstm_train_snapshot_io in Hstep.
    destruct Hstep as [feed [out [n1 [Hf [T1 [M1 [Hh Hc]]]]]]].
    apply IH in H. destruct H as [n2 [T2 [Hall [Hth Hfin]]]].
    exists (n1 ++ n2). split; [rewrite T2, T1, app_assoc; reflexivity |].
    unfold model_io in *. rewrite flat_map_app, M1. simpl.
    split; [constructor; [exact Hf | exact Hall] |].
    rewrite Hh, Hc in Hth, Hfin. split; [auto |].
    rewrite Hfin. unfold final_state. simpl map.
    destruct (flat_map _ n2) as [| io ios]; [reflexivity |].
    simpl map. exact (last_cons_default _ _ _ _).
Qed.

End GclstmState.

(** X9.  In a training epoch of the GC-LSTM script that completes, the
    encoder is called [time_length] times, on snapshot 0 and then on
    the first [time_length - 1] snapshots in order; the first call gets
    no hidden and no cell state, every later call gets the hidden and
    cell state the call before it returned, and the state handed to
    validation is what the last call returned. *)
Theorem X9_gclstm_training_threads_the_state :
  forall (C : Gclstm.collaborators) td n s s' h c total_loss new,
    Gclstm.train_epoch C td n s = (s', inr (h, c, total_loss)) ->
    trace s' = trace s ++ new ->
    length (Gclstm.model_io new) = Gclstm.time_length td /\
    hd_error (map (fun io => fst (fst (fst io))) (Gclstm.model_io new))
    = hd_error (Gclstm.edge_index td) /\
    tl (map (fun io => fst (fst (fst io))) (Gclstm.model_io new))
    = firstn (Gclstm.time_length td - 1) (Gclstm.edge_index td) /\
    Gclstm.threaded C None None (Gclstm.model_io new) /\
    (h, c) = Gclstm.final_state C None None (Gclstm.model_io new).
Proof.
  intros C td n s s' h c total_loss new H T.
  unfold Gclstm.train_epoch, Gclstm.train_loop in H.
  bind_inv H as s1 u1 H1. apply exec_inr in H1. destruct H1 as [_ T1].
  bind_inv H as s2 vars HL.
  pose proof HL as HL'. apply gclstm_train_loop_inr in HL'.
  destruct HL' as [_ [_ [_ [_ [_ [_ Hnil]]]]]].
  apply gclstm_train_loop_io in HL. destruct HL as [n1 [TL [Hall [Hth Hfin]]]].
  simpl in Hth, Hfin.
  destruct (Gclstm.tv_loss C vars) as [| v] eqn:El; [unfold raise in H; discriminate |].
  bind_inv H as s5 u5 H5. apply exec_inr in H5. destruct H5 as [_ T5].
  bind_inv H as s6 u6 H6. apply emit_inr in H6. destruct H6 as [_ T6].
  bind_inv H as s7 u7 H7. apply exec_inr in H7. destruct H7 as [_ T7].
  bind_inv H as s8 u8 H8. apply emit_inr in H8. destruct H8 as [_ T8].
  bind_inv H as s9 u9 H9. apply exec_inr in H9. destruct H9 as [_ T9].
  bind_inv H as s10 u10 H10. apply emit_inr in H10. destruct H10 as [_ T10].
  bind_inv H as s11 u11 H11. apply emit_inr in H11. destruct H11 as [_ T11].
  inversion H; subst s11 h c total_loss. clear H.
  assert (Hm : Gclstm.model_io new = Gclstm.model_io n1).
  { rewrite T11, T10, T9, T8, T7, T6, T5, TL, T1 in T.
    repeat rewrite <- app_assoc in T. apply app_inv_head in T. subst new.
    unfold Gclstm.model_io. rewrite flat_map_app. simpl. apply app_nil_r. }
  rewrite Hm.
  assert (Hlen : length (Gclstm.model_io n1) = Gclstm.time_length td).
  { apply Forall2_length in Hall. rewrite length_seq in Hall. auto. }
  apply (shifted_feeds (Gclstm.edge_index td) (fun io => fst (fst (fst io)))) in Hall.
  split; [exact Hlen |].
  destruct (Gclstm.model_io n1) as [| io0 ios].
  - exfalso. simpl in Hlen. rewrite <- Hlen in Hnil. specialize (Hnil eq_refl).
    rewrite Hnil in El. discriminate.
  - destruct Hall as [Hfeeds Hhd]. split; [| split; [| split]].
    + simpl. rewrite Hhd. reflexivity.
    + simpl in Hfeeds. inversion Hfeeds. reflexivity.
    + exact Hth.
    + exact Hfin.
Qed.

Lemma X9_witness :
  Gclstm.threaded Demo.gclstm None None
    (Gclstm.model_io
       (trace (fst (Gclstm.train_epoch Demo.gclstm Demo.gclstm_train 5
                      Demo.gclstm_init)))).
Proof.
  pose (X := Gclstm.train_epoch Demo.gclstm Demo.gclstm_train 5 Demo.gclstm_init).
  assert (E : X = (fst X, inr (Some (attached Demo.snap1), Some (attached tt),
                               (579993600000000000000 # 163840000000000000000)%Q)))
    by (apply pair_of_snd; vm_compute; reflexivity).
  exact (proj1 (proj2 (proj2 (proj2
           (X9_gclstm_training_threads_the_state Demo.gclstm Demo.gclstm_train 5%nat
              Demo.gclstm_init (fst X) _ _ _ (trace (fst X)) E
              (eq_sym (app_nil_l (trace (fst X))))))))).
Defined.

(** ** The validation loop of the GC-LSTM script *)

Lemma fold_min_spec (ks : list nat) : forall k,
  In (fold_left Nat.min ks k) (k :: ks) /\
  forall j, In j (k :: ks) -> (fold_left Nat.min ks k <= j)%nat.
Proof.
  induction ks as [| k' ks IH]; intros k; simpl.
  - split; [auto |]. intros j [<- | []]. lia.
  - destruct (IH (Nat.min k k')) as [Hin Hle]. split.
    + destruct Hin as [Hm | Hin]; [| auto].
      rewrite <- Hm. destruct (Nat.min_spec k k') as [[_ ->] | [_ ->]]; auto.
    + intros j [<- | [<- | Hj]].
      * etransitivity; [apply Hle; left; reflexivity | apply Nat.le_min_l].
      * etransitivity; [apply Hle; left; reflexivity | apply Nat.le_min_r].
      * apply Hle. right. exact Hj.
Qed.

Lemma lookup_some_in {A} (d : list (nat * A)) k x :
  lookup d k = Some x -> In k (map fst d).
Proof.
  induction d as [| [k' v] d IH]; simpl; [discriminate |].
  destruct (Nat.eqb_spec k' k) as [-> | Hne]; auto.
Qed.

Section GclstmValidation.

Import Gclstm.

Variable C : collaborators.

Lemma gclstm_score_snapshot_quiet h t pos perf :
  emits (fun e => @model_io C [e] = []) (score_snapshot C h t pos perf).
Proof.
  unfold score_snapshot. apply emits_for_each. intros row acc.
  apply emits_bind; [apply emits_getitem |]. intros a.
  apply emits_bind; [apply emits_getitem |]. intros b.
  apply emits_for_each. intros batch acc'. unfold score_batch.
  apply emits_bind.
  - unfold link_pred. apply emits_bind; [apply emits_emit; reflexivity |].
    intros u. apply emits_call.
  - intros [| y ys]; [apply emits_raise | apply emits_ret].
Qed.

Lemma gclstm_model_io_quiet (new : list (event C)) :
  Forall (fun e => @model_io C [e] = []) new -> model_io new = [].
Proof.
  induction 1 as [| e new He _ IH]; [reflexivity |].
  change (e :: new) with ([e] ++ new). unfold model_io in *.
  rewrite flat_map_app, He, IH. reflexivity.
Qed.

Lemma gclstm_val_snapshot_io vd ts t h c perf s s' h' c' perf' :
  val_snapshot C vd ts t (h, c, perf) s = (s', inr (h', c', perf')) ->
  exists new,
    trace s' = trace s ++ new /\
    if Nat.ltb ts t
    then exists prev out,
           lookup (ev_edge_index vd) (t - 1) = Some prev /\
           model_io new = [(prev, Some h, Some c, out)] /\
           h' = attached (fst out) /\ c' = attached (snd out)
    else model_io new = [] /\ h' = h /\ c' = c.
Proof.
  unfold val_snapshot. intros H.
  bind_inv H as s1 pos H1. apply dict_get_inr in H1. destruct H1 as [-> _].
  bind_inv H as s2 hc H2. destruct hc as [h2 c2].
  bind_inv H as s3 perf3 H3. inversion H; subst s3 h2 c2 perf3. clear H.
  destruct (gclstm_score_snapshot_quiet _ _ _ _ _ _ _ H3) as [n3 [T3 Q3]].
  apply gclstm_model_io_quiet in Q3.
  destruct (Nat.ltb ts t).
  - bind_inv H2 as s4 prev H4. apply dict_get_inr in H4. destruct H4 as [-> Hprev].
    apply gclstm_advance_inr in H2. destruct H2 as [_ [out [Hhc T2]]].
    inversion Hhc; subst h' c'. clear Hhc.
    eexists. split; [rewrite T3, T2, <- app_assoc; reflexivity |].
    exists prev, out. unfold model_io in *. rewrite flat_map_app, Q3. simpl. auto.
  - inversion H2; subst s2 h' c'. exists n3. auto.
Qed.

Lemma gclstm_val_loop_io vd ts l : forall h c perf s s' h' c' perf',
  for_each l (val_snapshot C vd ts) (h, c, perf) s = (s', inr (h', c', perf')) ->
  exists new,
    trace s' = trace s ++ new /\
    Forall2 (fun k io => lookup (ev_edge_index vd) (k - 1) = Some (fst (fst (fst io))))
            (filter (Nat.ltb ts) l) (model_io new) /\
    threaded C (Some h) (Some c) (model_io new) /\
    (Some h', Some c') = final_state C (Some h) (Some c) (model_io new).
Proof.
  induction l as [| t l IH]; intros h c perf s s' h' c' perf' H; simpl in H.
  - inversion H; subst. exists []. rewrite app_nil_r. simpl.
    split; [reflexivity |]. split; [constructor |]. split; [exact I | reflexivity].
  - bind_inv H as s1 vars1 Hstep. destruct vars1 as [[h1 c1] perf1].
    apply gclstm_val_snapshot_io in Hstep. destruct Hstep as [n1 [T1 Hio]].
    apply IH in H. destruct H as [n2 [T2 [Hall [Hth Hfin]]]].
    exists (n1 ++ n2). split; [rewrite T2, T1, app_assoc; reflexivity |].
    unfold model_io in *. rewrite flat_map_app. simpl filter.
    destruct (Nat.ltb ts t).
    + destruct Hio as [prev [out [Hprev [M1 [-> ->]]]]]. rewrite M1. simpl.
      split; [constructor; [exact Hprev | exact Hall] |].
      split; [auto |].
      rewrite Hfin. unfold final_state. simpl map.
      destruct (flat_map _ n2) as [| io ios]; [reflexivity |].
      simpl map. exact (last_cons_default _ _ _ _).
    + destruct Hio as [M1 [-> ->]]. rewrite M1. simpl. auto.
Qed.

Lemma gclstm_val_epoch_io vd epoch h0 c0 s s' v new :
  val_epoch C vd epoch h0 c0 s = (s', inr v) ->
  trace s' = trace s ++ new ->
  exists k ks hd cd,
    map fst (ev_edge_index vd) = k :: ks /\
    h0 = Some hd /\ c0 = Some cd /\
    Forall2 (fun k io => lookup (ev_edge_index vd) (k - 1) = Some (fst (fst (fst io))))
            (filter (Nat.ltb (fold_left Nat.min ks k)) (k :: ks)) (model_io new) /\
    threaded C (Some (detach hd)) (Some (detach cd)) (model_io new).
Proof.
  unfold val_epoch. intros H T.
  bind_inv H as s1 u1 H1. apply exec_inr in H1. destruct H1 as [_ T1].
  bind_inv H as s2 u2 H2. apply emit_inr in H2. destruct H2 as [_ T2].
  bind_inv H as s3 ts H3. pose proof (min_key_inr _ _ _ _ H3) as ->.
  unfold min_key in H3.
  destruct (map fst (ev_edge_index vd)) as [| k ks] eqn:Ek;
    [unfold raise in H3; discriminate |].
  inversion H3; subst ts. clear H3.
  bind_inv H as s4 hd H4. destruct h0 as [hd0 |]; [| unfold detach_var, raise in H4; discriminate].
  inversion H4; subst s4 hd. clear H4.
  bind_inv H as s5 cd H5. destruct c0 as [cd0 |]; [| unfold detach_var, raise in H5; discriminate].
  inversion H5; subst s5 cd. clear H5.
  bind_inv H as s6 res H6. destruct res as [[h' c'] perf].
  apply gclstm_val_loop_io in H6. destruct H6 as [n6 [T6 [Hall [Hth _]]]].
  bind_inv H as s7 u7 H7. apply emit_inr in H7. destruct H7 as [_ T7].
  inversion H; subst s7 v. clear H.
  assert (Hm : model_io new = model_io n6).
  { rewrite T7, T6, T2, T1 in T. repeat rewrite <- app_assoc in T.
    apply app_inv_head in T. subst new.
    unfold model_io. simpl. rewrite flat_map_app. simpl. apply app_nil_r. }
  rewrite Hm. exists k, ks, hd0, cd0. auto.
Qed.

End GclstmValidation.

(** X10.  In a validation pass of the GC-LSTM script that completes,
    the encoder is called once for every snapshot key above the
    smallest one, on the snapshot stored under the key before it
    ([val_snapshots[snapshot_idx-1]]); the first of these calls gets the
    detached state that training ended with and every later one the
    state returned by the call before it.  So a pass only completes
    when the keys of [val_data['edge_index']] fill a range without
    gaps. *)
Theorem X10_gclstm_validation_feeds_by_key :
  forall (C : Gclstm.collaborators) vd epoch h0 c0 s s' v new,
    Gclstm.val_epoch C vd epoch (Some h0) (Some c0) s = (s', inr v) ->
    trace s' = trace s ++ new ->
    exists ts_min,
      In ts_min (map fst (Gclstm.ev_edge_index vd)) /\
      (forall k, In k (map fst (Gclstm.ev_edge_index vd)) -> (ts_min <= k)%nat) /\
      Forall2 (fun k io => lookup (Gclstm.ev_edge_index vd) (k - 1)
                           = Some (fst (fst (fst io))))
              (filter (Nat.ltb ts_min) (map fst (Gclstm.ev_edge_index vd)))
              (Gclstm.model_io new) /\
      Gclstm.threaded C (Some (detach h0)) (Some (detach c0)) (Gclstm.model_io new) /\
      (forall k j, In k (map fst (Gclstm.ev_edge_index vd)) ->
                   (ts_min <= j <= k)%nat ->
                   In j (map fst (Gclstm.ev_edge_index vd))).
Proof.
  intros C vd epoch h0 c0 s s' v new H T.
  destruct (gclstm_val_epoch_io C _ _ _ _ _ _ _ _ H T)
    as [k [ks [hd [cd [Ek [Eh [Ec [Hall Hth]]]]]]]].
  inversion Eh; subst hd. inversion Ec; subst cd. clear Eh Ec.
  destruct (fold_min_spec ks k) as [Hin Hle].
  exists (fold_left Nat.min ks k). rewrite Ek.
  split; [exact Hin |]. split; [exact Hle |]. split; [exact Hall |].
  split; [exact Hth |].
  assert (Hpred : forall x, In x (k :: ks) -> (fold_left Nat.min ks k < x)%nat ->
                            In (x - 1)%nat (k :: ks)).
  { intros x Hx Hlt.
    assert (Hf : In x (filter (Nat.ltb (fold_left Nat.min ks k)) (k :: ks))).
    { apply filter_In. split; [exact Hx | apply Nat.ltb_lt; exact Hlt]. }
    clear - Hall Hf Ek. revert Hf. induction Hall as [| y io ys ios Hy _ IH].
    - intros [].
    - intros [<- | Hf]; [| exact (IH Hf)].
      rewrite <- Ek. exact (lookup_some_in _ _ _ Hy). }
  intros x j Hx [Hlo Hhi].
  remember (x - j)%nat as d eqn:Ed. revert x Hx Hhi Ed.
  induction d as [| d IHd]; intros x Hx Hhi Ed.
  - assert (j = x) by lia. subst. exact Hx.
  - apply (IHd (x - 1)%nat); [apply Hpred; [exact Hx | lia] | lia | lia].
Qed.

Lemma X10_witness :
  exists ts_min,
    In ts_min (map fst (Gclstm.ev_edge_index Demo.gclstm_val)) /\
    (forall k, In k (map fst (Gclstm.ev_edge_index Demo.gclstm_val)) -> (ts_min <= k)%nat).
Proof.
  pose (X := Gclstm.val_epoch Demo.gclstm Demo.gclstm_val 0
               (Some (attached Demo.snap1)) (Some (attached tt)) Demo.gclstm_init).
  assert (E : X = (fst X, inr (Fin (6 # 18)%Q)))
    by (apply pair_of_snd; vm_compute; reflexivity).
  destruct (X10_gclstm_validation_feeds_by_key Demo.gclstm Demo.gclstm_val 0%nat
              (attached Demo.snap1) (attached tt) Demo.gclstm_init (fst X) _
              (trace (fst X)) E (eq_sym (app_nil_l (trace (fst X)))))
    as [ts [Hin [Hle _]]].
  exists ts. split; [exact Hin | exact Hle].
Defined.

Lemma lookup_seq {A} (d : list (nat * A)) : forall a i,
  map fst d = seq a (length d) ->
  (i < length d)%nat ->
  lookup d (a + i) = nth_error (map snd d) i.
Proof.
  induction d as [| [k v] d IH]; intros a i Hk Hi; simpl in *; [lia |].
  inversion Hk as [[Ha Hrest]]. destruct i as [| i].
  - rewrite Nat.add_0_r, Nat.eqb_refl. reflexivity.
  - destruct (Nat.eqb_spec a (a + S i)) as [E | _]; [lia |].
    replace (a + S i)%nat with (S a + i)%nat by lia.
    simpl nth_error. apply (IH (S a) i); [exact Hrest | lia].
Qed.

Lemma fold_min_seq a m : fold_left Nat.min (seq (S a) m) a = a.
Proof.
  destruct (fold_min_spec (seq (S a) m) a) as [Hin Hle].
  specialize (Hle a (or_introl eq_refl)).
  change (a :: seq (S a) m) with (seq a (S m)) in Hin.
  apply in_seq in Hin. lia.
Qed.

Lemma filter_above_seq a m : filter (Nat.ltb a) (seq a (S m)) = seq (S a) m.
Proof.
  simpl. rewrite Nat.ltb_irrefl.
  assert (H : forall x, In x (seq (S a) m) -> Nat.ltb a x = true).
  { intros x Hx. apply in_seq in Hx. apply Nat.ltb_lt. lia. }
  revert H. generalize (seq (S a) m). intros l.
  induction l as [| x l IH]; intros H; simpl; [reflexivity |].
  rewrite (H x (or_introl eq_refl)). f_equal. apply IH.
  intros y Hy. apply H. right. exact Hy.
Qed.

Lemma lookup_feeds {A I} (d : list (nat * A)) (feed : I -> A) a :
  map fst d = seq a (length d) ->
  forall m b (ios : list I),
    (b + m <= length d)%nat ->
    Forall2 (fun k io => lookup d (k - 1) = Some (feed io)) (seq (S (a + b)) m) ios ->
    Forall2 (fun i x => nth_error (map snd d) i = Some x) (seq b m) (map feed ios).
Proof.
  intros Hk. induction m as [| m IH]; intros b ios Hb H; simpl in H.
  - inversion H; subst. constructor.
  - inversion H as [| k io ks ios' Hio Hrest]; subst. simpl. constructor.
    + rewrite <- (lookup_seq d a b Hk) by lia.
      replace (a + b)%nat with (S (a + b) - 1)%nat by lia. exact Hio.
    + apply IH; [lia |]. replace (a + S b)%nat with (S (a + b)) by lia. exact Hrest.
Qed.

(** X11.  When the keys of [val_data['edge_index']] are consecutive and
    in ascending order, a validation pass of the GC-LSTM script that
    completes feeds the encoder every validation snapshot but the last,
    in order: the snapshot with the smallest key is scored with the
    state training ended with, and the edges of the last snapshot never
    reach the encoder. *)
Theorem X11_gclstm_validation_feeds_all_but_the_last :
  forall (C : Gclstm.collaborators) vd a epoch h0 c0 s s' v new,
    map fst (Gclstm.ev_edge_index vd) = seq a (length (Gclstm.ev_edge_index vd)) ->
    Gclstm.val_epoch C vd epoch (Some h0) (Some c0) s = (s', inr v) ->
    trace s' = trace s ++ new ->
    map (fun io => fst (fst (fst io))) (Gclstm.model_io new)
    = removelast (map snd (Gclstm.ev_edge_index vd)) /\
    S (length (Gclstm.model_io new)) = length (Gclstm.ev_edge_index vd).
Proof.
  intros C vd a epoch h0 c0 s s' v new Hk H T.
  destruct (gclstm_val_epoch_io C _ _ _ _ _ _ _ _ H T)
    as [k [ks [hd [cd [Ek [_ [_ [Hall _]]]]]]]].
  destruct (length (Gclstm.ev_edge_index vd)) as [| m] eqn:El;
    [rewrite Hk in Ek; discriminate |].
  rewrite Hk in Ek. simpl in Ek. inversion Ek; subst k ks. clear Ek.
  rewrite fold_min_seq in Hall.
  change (a :: seq (S a) m) with (seq a (S m)) in Hall.
  rewrite filter_above_seq in Hall.
  assert (Hlen : length (Gclstm.model_io new) = m).
  { apply Forall2_length in Hall. rewrite length_seq in Hall. auto. }
  split; [| rewrite Hlen; reflexivity].
  rewrite <- El in Hk.
  replace (S a) with (S (a + 0)) in Hall by (f_equal; lia).
  apply (lookup_feeds _ (fun io => fst (fst (fst io))) a Hk) in Hall; [| lia].
  apply Forall2_nth_firstn in Hall. rewrite Hall. simpl skipn.
  rewrite removelast_firstn_len, length_map, El. reflexivity.
Qed.

Lemma X11_witness :
  map (fun io => fst (fst (fst io)))
      (Gclstm.model_io
         (trace (fst (Gclstm.val_epoch Demo.gclstm Demo.gclstm_val 0
                        (Some (attached Demo.snap1)) (Some (attached tt))
                        Demo.gclstm_init))))
  = removelast (map snd (Gclstm.ev_edge_index Demo.gclstm_val)).
Proof.
  pose (X := Gclstm.val_epoch Demo.gclstm Demo.gclstm_val 0
               (Some (attached Demo.snap1)) (Some (attached tt)) Demo.gclstm_init).
  assert (E : X = (fst X, inr (Fin (6 # 18)%Q)))
    by (apply pair_of_snd; vm_compute; reflexivity).
  exact (proj1 (X11_gclstm_validation_feeds_all_but_the_last Demo.gclstm
                  Demo.gclstm_val 3%nat 0%nat (attached Demo.snap1) (attached tt)
                  Demo.gclstm_init (fst X) _ (trace (fst X)) eq_refl E
                  (eq_sym (app_nil_l (trace (fst X)))))).
Defined.

(** ** Evaluation leaves the parameters alone *)

Section EgcnoFrozen.

Import Egcno.

Variable C : collaborators.

Let frozen : event C -> Prop := fun e => updates e = false.

Lemma egcno_score_snapshot_frozen sp h t pos perf :
  emits frozen (score_snapshot C sp h t pos perf).
Proof. unfold score_snapshot, score_batch, link_pred. emits_auto. Qed.

Lemma egcno_advance_frozen b index : emits frozen (advance C b index).
Proof. unfold advance. emits_auto. Qed.

#[local] Hint Resolve egcno_score_snapshot_frozen egcno_advance_frozen : emits_db.

Lemma egcno_val_epoch_frozen vd h : emits frozen (val_epoch C vd h).
Proof. unfold val_epoch, val_snapshot, detach_var. emits_auto. Qed.

Lemma egcno_test_epoch_frozen ted h : emits frozen (test_epoch C ted h).
Proof. unfold test_epoch, test_snapshot. emits_auto. Qed.

#[local] Hint Resolve egcno_test_epoch_frozen : emits_db.

Lemma egcno_after_validation_frozen a ted e h v r :
  emits frozen (after_validation C a ted e h v r).
Proof. unfold after_validation, improved. emits_auto. Qed.

Lemma egcno_frozen_count (l : list (event C)) :
  Forall frozen l -> count_opt_steps l = 0%nat /\ filter is_backward l = [].
Proof.
  unfold count_opt_steps, frozen, updates.
  induction 1 as [| e l He _ [IH1 IH2]]; simpl; [auto |].
  apply orb_false_iff in He. destruct He as [-> ->]. auto.
Qed.

End EgcnoFrozen.

Section GclstmFrozen.

Import Gclstm.

Variable C : collaborators.

Let frozen : event C -> Prop := fun e => updates e = false.

Lemma gclstm_val_epoch_frozen vd epoch h c : emits frozen (val_epoch C vd epoch h c).
Proof.
  unfold val_epoch, val_snapshot, detach_var, score_snapshot, score_batch,
    advance, link_pred.
  emits_auto.
Qed.

Lemma gclstm_frozen_count (l : list (event C)) :
  Forall frozen l -> count_opt_steps l = 0%nat /\ filter is_backward l = [].
Proof.
  unfold count_opt_steps, frozen, updates.
  induction 1 as [| e l He _ [IH1 IH2]]; simpl; [auto |].
  apply orb_false_iff in He. destruct He as [-> ->]. auto.
Qed.

End GclstmFrozen.

Section EgcnoKeeps.

Import Egcno.

Variable C : collaborators.
Context {X : Type}.
Variable obs : World C -> X.
Hypothesis forward : forward_keeps C obs.

Lemma egcno_val_epoch_keeps vd h : keeps obs (val_epoch C vd h).
Proof.
  pose proof (keeps_model C obs forward) as Hm.
  pose proof (keeps_link_pred C obs forward) as Hl.
  pose proof (keeps_set_training C obs forward) as Hs.
  unfold val_epoch, val_snapshot, detach_var, score_snapshot, score_batch,
    advance, link_pred.
  keeps_auto.
Qed.

Lemma egcno_test_epoch_keeps ted h : keeps obs (test_epoch C ted h).
Proof.
  pose proof (keeps_model C obs forward) as Hm.
  pose proof (keeps_link_pred C obs forward) as Hl.
  unfold test_epoch, test_snapshot, score_snapshot, score_batch, advance, link_pred.
  keeps_auto.
Qed.

Lemma egcno_after_validation_keeps a ted e h v r :
  keeps obs (after_validation C a ted e h v r).
Proof.
  pose proof egcno_test_epoch_keeps as Ht.
  unfold after_validation, improved.
  repeat (cbv beta zeta;
          match goal with
          | |- keeps _ (bind (test_epoch _ _ _) _) => apply keeps_bind; [apply Ht | intros ?]
          | _ => keeps_step
          end).
Qed.

End EgcnoKeeps.

Section GclstmKeeps.

Import Gclstm.

Variable C : collaborators.
Context {X : Type}.
Variable obs : World C -> X.
Hypothesis forward : forward_keeps C obs.

Lemma gclstm_val_epoch_keeps vd epoch h c : keeps obs (val_epoch C vd epoch h c).
Proof.
  pose proof (keeps_model C obs forward) as Hm.
  pose proof (keeps_link_pred C obs forward) as Hl.
  pose proof (keeps_set_training C obs forward) as Hs.
  unfold val_epoch, val_snapshot, detach_var, score_snapshot, score_batch,
    advance, link_pred.
  keeps_auto.
Qed.

End GclstmKeeps.

(** X12.  Evaluation never trains.  Take any part of the world that the
    forward calls of the encoder and of the decoder and the switch
    between training and evaluation mode leave as it is (the
    parameters, the state of the optimizer, the gradients): a
    validation pass of either script, a test pass of the EvolveGCN-O
    script and the block that follows a validation (test pass, record
    update, patience check) leave it as it is too, whether they
    complete or raise; nothing is assumed of [backward], of the
    optimizer step and of [zero_grad].  In the trace, these passes show
    no backward pass and no optimizer step. *)
Theorem X12_evaluation_never_updates :
  forall (C : Egcno.collaborators) (G : Gclstm.collaborators) (X Y : Type)
         (obs : Egcno.World C -> X) (obs' : Gclstm.World G -> Y),
    Egcno.forward_keeps C obs ->
    Gclstm.forward_keeps G obs' ->
    (forall vd h,
        keeps obs (Egcno.val_epoch C vd h) /\
        emits (fun e => Egcno.updates e = false) (Egcno.val_epoch C vd h)) /\
    (forall ted h,
        keeps obs (Egcno.test_epoch C ted h) /\
        emits (fun e => Egcno.updates e = false) (Egcno.test_epoch C ted h)) /\
    (forall a ted epoch h v r,
        keeps obs (Egcno.after_validation C a ted epoch h v r) /\
        emits (fun e => Egcno.updates e = false)
              (Egcno.after_validation C a ted epoch h v r)) /\
    (forall vd epoch h c,
        keeps obs' (Gclstm.val_epoch G vd epoch h c) /\
        emits (fun e => Gclstm.updates e = false) (Gclstm.val_epoch G vd epoch h c)).
Proof.
  intros C G X Y obs obs' HC HG. split; [| split; [| split]].
  - intros vd h. split; [apply egcno_val_epoch_keeps; exact HC |].
    apply egcno_val_epoch_frozen.
  - intros ted h. split; [apply egcno_test_epoch_keeps; exact HC |].
    apply egcno_test_epoch_frozen.
  - intros a ted epoch h v r. split; [apply egcno_after_validation_keeps; exact HC |].
    apply egcno_after_validation_frozen.
  - intros vd epoch h c. split; [apply gclstm_val_epoch_keeps; exact HG |].
    apply gclstm_val_epoch_frozen.
Qed.

Lemma demo_egcno_forward_keeps :
  Egcno.forward_keeps Demo.egcno (fun w : Egcno.World Demo.egcno => w).
Proof. constructor; reflexivity. Qed.

Lemma demo_gclstm_forward_keeps :
  Gclstm.forward_keeps Demo.gclstm (fun w : Gclstm.World Demo.gclstm => w).
Proof. constructor; reflexivity. Qed.

Lemma X12_witness :
  world (fst (Egcno.val_epoch Demo.egcno Demo.egcno_val (Some (attached Demo.snap1))
                (mkState (1%nat : Egcno.World Demo.egcno) [])))
  = 1%nat.
Proof.
  pose (X := Egcno.val_epoch Demo.egcno Demo.egcno_val (Some (attached Demo.snap1))
               (mkState (1%nat : Egcno.World Demo.egcno) [])).
  exact (proj1 (proj1 (X12_evaluation_never_updates Demo.egcno Demo.gclstm _ _
                         (fun w => w) (fun w => w)
                         demo_egcno_forward_keeps demo_gclstm_forward_keeps)
                  Demo.egcno_val (Some (attached Demo.snap1)))
           (mkState (1%nat : Egcno.World Demo.egcno) []) (fst X) (snd X)
           (surjective_pairing X)).
Defined.

(** ** Optimizer steps over a whole run *)

Section EgcnoRunCount.

Import Egcno.

Variable C : collaborators.

Lemma egcno_epoch_steps a td vd ted e r s s' r' brk :
  epoch_body C a td vd ted e r s = (s', inr (r', brk)) ->
  exists new,
    trace s' = trace s ++ new /\
    length (vals new) = 1%nat /\
    count_opt_steps new = 1%nat /\
    length (filter is_backward new) = 1%nat.
Proof.
  intros H. pose proof H as H0. apply egcno_epoch_summary in H0.
  destruct H0 as [v [new [T [V _]]]].
  exists new. split; [exact T |]. split; [rewrite V; reflexivity |].
  unfold epoch_body in H.
  bind_inv H as s1 h Htr. apply egcno_train_epoch_inr in Htr.
  destruct Htr as [its [total [_ [_ T1]]]].
  bind_inv H as s2 hv Hv. destruct hv as [h2 v2].
  destruct (egcno_val_epoch_frozen C _ _ _ _ _ Hv) as [n2 [T2 F2]].
  destruct (egcno_after_validation_frozen C _ _ _ _ _ _ _ _ _ H) as [n3 [T3 F3]].
  apply egcno_frozen_count in F2. destruct F2 as [O2 B2].
  apply egcno_frozen_count in F3. destruct F3 as [O3 B3].
  rewrite T3, T2, T1 in T. repeat rewrite <- app_assoc in T.
  apply app_inv_head in T. subst new.
  pose proof (egcno_iterations_no_opt_step C (num_nodes td + 1) its) as Oi.
  assert (Bi : filter is_backward (flat_map (iteration_events C (num_nodes td + 1)) its) = []).
  { clear. induction its as [| it its IH]; simpl; auto. }
  unfold count_opt_steps in *.
  repeat rewrite filter_app. repeat rewrite length_app.
  rewrite B2, B3, Bi, Oi, O2, O3. simpl. auto.
Qed.

Lemma egcno_epochs_loop_steps a td vd ted l :
  forall r s s' r' brk,
    epochs_loop C a td vd ted l r s = (s', inr (r', brk)) ->
    exists new,
      trace s' = trace s ++ new /\
      count_opt_steps new = length (vals new) /\
      length (filter is_backward new) = length (vals new).
Proof.
  unfold epochs_loop.
  induction l as [| e l IH]; intros r s s' r' brk H; simpl in H.
  - inversion H; subst. exists []. rewrite app_nil_r. auto.
  - bind_inv H as s1 rb Hb. destruct rb as [r1 b1].
    apply egcno_epoch_steps in Hb. destruct Hb as [n1 [T1 [V1 [O1 B1]]]].
    destruct b1.
    + inversion H; subst. exists n1. rewrite V1, O1, B1. auto.
    + apply IH in H. destruct H as [n2 [T2 [O2 B2]]].
      exists (n1 ++ n2). split; [rewrite T2, T1, app_assoc; reflexivity |].
      unfold count_opt_steps, vals in *.
      rewrite flat_map_app, !filter_app, !length_app. lia.
Qed.

End EgcnoRunCount.

Section EgcnoRunCounts.

Import Egcno.

Variable C : collaborators.
Variable counts : World C -> nat * nat.
Hypothesis discipline : counts_updates C counts.

Lemma egcno_iterations_calls_counts n its : forall w w',
  iterations_calls C n w its w' -> counts w' = counts w.
Proof.
  pose proof (counts_forward C counts discipline) as Hf.
  induction its as [| it its IH]; intros w w' H; simpl in H.
  - subst. reflexivity.
  - destruct H as [w1 [[wa [wb [wc [Hm [Hr [Hp Hq]]]]]] Hrest]].
    rewrite (IH _ _ Hrest).
    pose proof (keeps_link_pred C counts Hf wc (it_emb C it) (row0 (it_pos C it))
                  (it_neg_dst C it)) as E4. rewrite Hq in E4. simpl in E4.
    pose proof (keeps_link_pred C counts Hf wb (it_emb C it) (row0 (it_pos C it))
                  (row1 (it_pos C it))) as E3. rewrite Hp in E3. simpl in E3.
    pose proof (counts_randint C counts discipline wa 0%nat n (size1 (it_pos C it))) as E2.
    rewrite Hr in E2. simpl in E2.
    pose proof (keeps_model C counts Hf w (it_feed C it)
                  (ones (size1 (it_feed C it)) edge_feat_dim)) as E1.
    rewrite Hm in E1. simpl in E1.
    congruence.
Qed.

Lemma egcno_epoch_counts a td vd ted e r s s' res :
  epoch_body C a td vd ted e r s = (s', inr res) ->
  counts (world s') = (S (fst (counts (world s))), S (snd (counts (world s)))).
Proof.
  pose proof (counts_forward C counts discipline) as Hf.
  unfold epoch_body. intros H.
  bind_inv H as s1 h Htr. apply egcno_train_epoch_calls in Htr.
  destruct Htr as [its [total [w_loop [_ [Hcs [_ [_ Hw]]]]]]].
  apply egcno_iterations_calls_counts in Hcs.
  bind_inv H as s2 hv Hv. destruct hv as [h2 v2].
  apply (egcno_val_epoch_keeps C counts Hf) in Hv.
  apply (egcno_after_validation_keeps C counts Hf) in H.
  rewrite H, Hv, Hw.
  rewrite (counts_step C counts discipline), (counts_backward C counts discipline).
  rewrite Hcs, (keeps_set_training C counts Hf), (counts_zero_grad C counts discipline).
  reflexivity.
Qed.

Lemma egcno_epochs_loop_counts a td vd ted l :
  forall r s s' res,
    epochs_loop C a td vd ted l r s = (s', inr res) ->
    exists new,
      trace s' = trace s ++ new /\
      counts (world s')
      = ((fst (counts (world s)) + length (vals new))%nat,
         (snd (counts (world s)) + length (vals new))%nat) /\
      count_opt_steps new = length (vals new) /\
      length (filter is_backward new) = length (vals new).
Proof.
  unfold epochs_loop.
  induction l as [| e l IH]; intros r s s' res H; simpl in H.
  - inversion H; subst. exists []. rewrite app_nil_r. simpl.
    rewrite !Nat.add_0_r. split; [reflexivity |]. split; [| auto].
    match goal with |- context [counts (world ?x)] => destruct (counts (world x)) end.
    reflexivity.
  - bind_inv H as s1 rb Hb. destruct rb as [r1 b1].
    pose proof (egcno_epoch_counts _ _ _ _ _ _ _ _ _ Hb) as Hc1.
    apply egcno_epoch_steps in Hb. destruct Hb as [n1 [T1 [V1 [O1 B1]]]].
    destruct b1.
    + inversion H; subst. exists n1. rewrite V1, O1, B1, Hc1.
      split; [exact T1 |]. split; [| auto]. f_equal; lia.
    + apply IH in H. destruct H as [n2 [T2 [Hc2 [O2 B2]]]].
      exists (n1 ++ n2). split; [rewrite T2, T1, app_assoc; reflexivity |].
      split.
      * rewrite Hc2, Hc1. unfold vals in *. rewrite flat_map_app, length_app, V1.
        simpl. f_equal; lia.
      * unfold count_opt_steps, vals in *.
        rewrite flat_map_app, !filter_app, !length_app. lia.
Qed.

End EgcnoRunCounts.

(** X13.  In a run of the EvolveGCN-O script that completes, the
    optimizer takes exactly one step and the loss is back-propagated
    exactly once for every epoch carried out (every validation metric
    reported), however many test passes the run made and whether or not
    it stopped early.  This is said of the world: for any reading of the
    world that counts the optimizer steps and the backward passes, the
    run raises both counts by the number of epochs carried out; the
    trace shows as many steps and backward passes. *)
Theorem X13_egcno_one_update_per_epoch_of_a_run :
  forall (C : Egcno.collaborators) (counts : Egcno.World C -> nat * nat)
         a td vd ted s s' r brk new,
    Egcno.counts_updates C counts ->
    Egcno.run C a td vd ted s = (s', inr (r, brk)) ->
    trace s' = trace s ++ new ->
    counts (world s')
    = ((fst (counts (world s)) + length (Egcno.vals new))%nat,
       (snd (counts (world s)) + length (Egcno.vals new))%nat) /\
    Egcno.count_opt_steps new = length (Egcno.vals new) /\
    length (filter Egcno.is_backward new) = length (Egcno.vals new) /\
    (length (Egcno.vals new) <= Egcno.max_epoch a)%nat.
Proof.
  intros C counts a td vd ted s s' r brk new Hd H T.
  unfold Egcno.run in H.
  bind_inv H as s1 rb HL. destruct rb as [r1 b1].
  pose proof HL as HR. apply egcno_epochs_loop_record in HR.
  destruct HR as [n0 [T0 [_ [_ [_ [Hle _]]]]]].
  apply (egcno_epochs_loop_counts C counts Hd) in HL.
  destruct HL as [n1 [T1 [Hc [O1 B1]]]].
  rewrite T1 in T0. apply app_inv_head in T0. subst n0.
  bind_inv H as s2 u2 He. apply emit_inr in He. destruct He as [W2 T2].
  inversion H; subst s2 r1 b1. clear H.
  rewrite T2, T1, <- app_assoc in T. apply app_inv_head in T. subst new.
  assert (Ev : Egcno.vals (n1 ++ [Egcno.EvRunFinishes C false r]) = Egcno.vals n1).
  { unfold Egcno.vals. rewrite flat_map_app. simpl. apply app_nil_r. }
  rewrite Ev, W2. split; [exact Hc |].
  unfold Egcno.count_opt_steps in *.
  rewrite !filter_app, !length_app. simpl. lia.
Qed.

Lemma demo_egcno_counts :
  Egcno.counts_updates Demo.egcno_counting
    (fun w : Egcno.World Demo.egcno_counting => w).
Proof.
  constructor; try reflexivity.
  constructor; reflexivity.
Qed.

Lemma X13_witness :
  world (fst (Egcno.run Demo.egcno_counting (Demo.egcno_args 6 2) Demo.egcno_train
                Demo.egcno_val Demo.egcno_test Demo.egcno_counting_init))
  = ((0 + length (Egcno.vals
        (trace (fst (Egcno.run Demo.egcno_counting (Demo.egcno_args 6 2) Demo.egcno_train
                       Demo.egcno_val Demo.egcno_test Demo.egcno_counting_init)))))%nat,
     (0 + length (Egcno.vals
        (trace (fst (Egcno.run Demo.egcno_counting (Demo.egcno_args 6 2) Demo.egcno_train
                       Demo.egcno_val Demo.egcno_test Demo.egcno_counting_init)))))%nat).
Proof.
  pose (X := Egcno.run Demo.egcno_counting (Demo.egcno_args 6 2) Demo.egcno_train
               Demo.egcno_val Demo.egcno_test Demo.egcno_counting_init).
  assert (E : X = (fst X, inr ({| Egcno.best_val := 2 # 2;
                                  Egcno.best_test := Fin (2 # 2);
                                  Egcno.best_epoch := 3 |}, true)))
    by (apply pair_of_snd; vm_compute; reflexivity).
  exact (proj1 (X13_egcno_one_update_per_epoch_of_a_run Demo.egcno_counting
                  (fun w => w) (Demo.egcno_args 6 2)
                  Demo.egcno_train Demo.egcno_val Demo.egcno_test
                  Demo.egcno_counting_init (fst X) _ _ (trace (fst X))
                  demo_egcno_counts E
                  (eq_sym (app_nil_l (trace (fst X)))))).
Defined.

Section GclstmRunCount.

Import Gclstm.

Variable C : collaborators.

Lemma gclstm_val_snapshot_silent vd ts t vars :
  emits (fun e : event C => vals [e] = []) (val_snapshot C vd ts t vars).
Proof.
  unfold val_snapshot, score_snapshot, score_batch, advance, link_pred.
  destruct vars as [[h c] perf]. emits_auto.
Qed.

Lemma gclstm_silent_vals (l : list (event C)) :
  Forall (fun e => vals [e] = []) l -> vals l = [].
Proof.
  induction 1 as [| e l He _ IH]; [reflexivity |].
  change (e :: l) with ([e] ++ l). unfold vals in *.
  rewrite flat_map_app, He, IH. reflexivity.
Qed.

Lemma gclstm_val_epoch_vals vd epoch h c s s' v :
  val_epoch C vd epoch h c s = (s', inr v) ->
  exists new,
    trace s' = trace s ++ new /\
    vals new = [v] /\
    count_opt_steps new = 0%nat /\
    filter is_backward new = [].
Proof.
  intros H.
  destruct (gclstm_val_epoch_frozen C _ _ _ _ _ _ _ H) as [new [T F]].
  apply gclstm_frozen_count in F. destruct F as [O B].
  exists new. split; [exact T |]. split; [| auto].
  unfold val_epoch in H.
  bind_inv H as s1 u1 H1. apply exec_inr in H1. destruct H1 as [_ T1].
  bind_inv H as s2 u2 H2. apply emit_inr in H2. destruct H2 as [_ T2].
  bind_inv H as s3 ts H3. apply min_key_inr in H3. subst s3.
  bind_inv H as s4 hd H4. destruct h as [h0 |]; [| unfold detach_var, raise in H4; discriminate].
  inversion H4; subst s4 hd. clear H4.
  bind_inv H as s5 cd H5. destruct c as [c0 |]; [| unfold detach_var, raise in H5; discriminate].
  inversion H5; subst s5 cd. clear H5.
  bind_inv H as s6 res H6. destruct res as [[h' c'] perf].
  destruct (emits_for_each _ _ _ (gclstm_val_snapshot_silent vd ts) _ _ _ _ H6)
    as [n6 [T6 Q6]].
  apply gclstm_silent_vals in Q6.
  bind_inv H as s7 u7 H7. apply emit_inr in H7. destruct H7 as [_ T7].
  inversion H; subst s7 v. clear H.
  rewrite T7, T6, T2, T1 in T. repeat rewrite <- app_assoc in T.
  apply app_inv_head in T. subst new.
  unfold vals in *. simpl. rewrite flat_map_app, Q6. reflexivity.
Qed.

Lemma gclstm_epoch_steps td vd e u s s' u' :
  epoch_body C td vd e u s = (s', inr u') ->
  exists new,
    trace s' = trace s ++ new /\
    length (vals new) = 1%nat /\
    count_opt_steps new = 1%nat /\
    length (filter is_backward new) = 1%nat.
Proof.
  unfold epoch_body. intros H.
  bind_inv H as s1 res Htr. destruct res as [[h c] total].
  apply gclstm_train_epoch_inr in Htr.
  destruct Htr as [its [loss [_ [_ [_ T1]]]]].
  bind_inv H as s2 v Hv. apply gclstm_val_epoch_vals in Hv.
  destruct Hv as [n2 [T2 [V2 [O2 B2]]]].
  inversion H; subst s2 u'. clear H.
  eexists. split; [rewrite T2, T1; repeat rewrite <- app_assoc; reflexivity |].
  pose proof (gclstm_iterations_no_opt_step C (num_nodes td + 1) its) as Oi.
  assert (Bi : filter is_backward (flat_map (iteration_events C (num_nodes td + 1)) its) = []).
  { clear. induction its as [| it its IH]; simpl; auto. }
  assert (Vi : vals (flat_map (iteration_events C (num_nodes td + 1)) its) = []).
  { clear. induction its as [| it its IH]; simpl; auto. }
  unfold count_opt_steps, vals in *.
  rewrite !flat_map_app, !filter_app, !length_app.
  rewrite Vi, V2, Bi, B2, Oi, O2. simpl. auto.
Qed.

Lemma gclstm_epochs_steps td vd l :
  forall u s s' u',
    for_each l (epoch_body C td vd) u s = (s', inr u') ->
    exists new,
      trace s' = trace s ++ new /\
      length (vals new) = length l /\
      count_opt_steps new = length l /\
      length (filter is_backward new) = length l.
Proof.
  induction l as [| e l IH]; intros u s s' u' H; simpl in H.
  - inversion H; subst. exists []. rewrite app_nil_r. auto.
  - bind_inv H as s1 u1 Hb.
    apply gclstm_epoch_steps in Hb. destruct Hb as [n1 [T1 [V1 [O1 B1]]]].
    apply IH in H. destruct H as [n2 [T2 [V2 [O2 B2]]]].
    exists (n1 ++ n2). split; [rewrite T2, T1, app_assoc; reflexivity |].
    unfold count_opt_steps, vals in *.
    rewrite flat_map_app, !filter_app, !length_app. simpl. lia.
Qed.

End GclstmRunCount.

Section GclstmRunCounts.

Import Gclstm.

Variable C : collaborators.
Variable counts : World C -> nat * nat.
Hypothesis discipline : counts_updates C counts.

Lemma gclstm_iterations_calls_counts n its : forall w h c w',
  iterations_calls C n w h c its w' -> counts w' = counts w.
Proof.
  pose proof (counts_forward C counts discipline) as Hf.
  induction its as [| it its IH]; intros w h c w' H; simpl in H.
  - subst. reflexivity.
  - destruct H as [_ [_ [w1 [[wa [wb [wc [Hn [Hm [Hp Hq]]]]]] Hrest]]]].
    rewrite (IH _ _ _ _ Hrest).
    pose proof (keeps_link_pred C counts Hf wc (fst (it_out C it))
                  (row0 (it_neg_edges C it)) (row1 (it_neg_edges C it))) as E4.
    rewrite Hq in E4. simpl in E4.
    pose proof (keeps_link_pred C counts Hf wb (fst (it_out C it))
                  (row0 (it_feed C it)) (row1 (it_feed C it))) as E3.
    rewrite Hp in E3. simpl in E3.
    pose proof (keeps_model C counts Hf wa (it_feed C it)
                  (ones (size1 (it_feed C it)) edge_feat_dim)
                  (option_map (@data _) (it_h_in C it))
                  (option_map (@data _) (it_c_in C it))) as E2.
    rewrite Hm in E2. simpl in E2.
    pose proof (counts_negative_sampling C counts discipline w (it_pos C it) n
                  (size1 (it_pos C it) * 1)) as E1.
    rewrite Hn in E1. simpl in E1.
    congruence.
Qed.

Lemma gclstm_epoch_counts td vd e u s s' u' :
  epoch_body C td vd e u s = (s', inr u') ->
  counts (world s') = (S (fst (counts (world s))), S (snd (counts (world s)))).
Proof.
  pose proof (counts_forward C counts discipline) as Hf.
  unfold epoch_body. intros H.
  bind_inv H as s1 res Htr. destruct res as [[h c] total].
  apply gclstm_train_epoch_calls in Htr.
  destruct Htr as [its [loss [w_loop [_ [Hcs [_ [_ [_ Hw]]]]]]]].
  apply gclstm_iterations_calls_counts in Hcs.
  bind_inv H as s2 v Hv.
  apply (gclstm_val_epoch_keeps C counts Hf) in Hv.
  inversion H; subst s2 u'. clear H.
  rewrite Hv, Hw.
  rewrite (counts_zero_grad C counts discipline), (counts_step C counts discipline),
    (counts_backward C counts discipline).
  rewrite Hcs, (keeps_set_training C counts Hf).
  reflexivity.
Qed.

Lemma gclstm_epochs_counts td vd l :
  forall u s s' u',
    for_each l (epoch_body C td vd) u s = (s', inr u') ->
    exists new,
      trace s' = trace s ++ new /\
      counts (world s')
      = ((fst (counts (world s)) + length l)%nat,
         (snd (counts (world s)) + length l)%nat) /\
      length (vals new) = length l /\
      count_opt_steps new = length l /\
      length (filter is_backward new) = length l.
Proof.
  induction l as [| e l IH]; intros u s s' u' H; simpl in H.
  - inversion H; subst. exists []. rewrite app_nil_r. simpl.
    rewrite !Nat.add_0_r. split; [reflexivity |]. split; [| auto].
    match goal with |- context [counts (world ?x)] => destruct (counts (world x)) end.
    reflexivity.
  - bind_inv H as s1 u1 Hb.
    pose proof (gclstm_epoch_counts _ _ _ _ _ _ _ Hb) as Hc1.
    apply gclstm_epoch_steps in Hb. destruct Hb as [n1 [T1 [V1 [O1 B1]]]].
    apply IH in H. destruct H as [n2 [T2 [Hc2 [V2 [O2 B2]]]]].
    exists (n1 ++ n2). split; [rewrite T2, T1, app_assoc; reflexivity |].
    split.
    + rewrite Hc2, Hc1. simpl. f_equal; lia.
    + unfold count_opt_steps, vals in *.
      rewrite flat_map_app, !filter_app, !length_app. simpl. lia.
Qed.

End GclstmRunCounts.

(** X14.  A run of the GC-LSTM script that completes goes through all
    200 epochs, whatever the validation metrics are: it reports 200
    validation metrics, takes 200 optimizer steps and back-propagates
    the loss 200 times.  This is said of the world: for any reading of
    the world that counts the optimizer steps and the backward passes,
    the run raises both counts by 200; the trace shows as many.  The
    script has no early stop. *)
Theorem X14_gclstm_run_has_200_epochs :
  forall (C : Gclstm.collaborators) (counts : Gclstm.World C -> nat * nat)
         td vd s s' u new,
    Gclstm.counts_updates C counts ->
    Gclstm.main C td vd s = (s', inr u) ->
    trace s' = trace s ++ new ->
    counts (world s')
    = ((fst (counts (world s)) + 200)%nat, (snd (counts (world s)) + 200)%nat) /\
    length (Gclstm.vals new) = 200%nat /\
    Gclstm.count_opt_steps new = 200%nat /\
    length (filter Gclstm.is_backward new) = 200%nat.
Proof.
  intros C counts td vd s s' u new Hd H T.
  unfold Gclstm.main in H. apply (gclstm_epochs_counts C counts Hd) in H.
  destruct H as [n1 [T1 [Hc [V1 [O1 B1]]]]].
  rewrite T1 in T. apply app_inv_head in T. subst n1.
  rewrite length_seq in Hc, V1, O1, B1. unfold Gclstm.num_epochs in *. auto.
Qed.

Lemma demo_gclstm_counts :
  Gclstm.counts_updates Demo.gclstm_counting
    (fun w : Gclstm.World Demo.gclstm_counting => w).
Proof.
  constructor; try reflexivity.
  constructor; reflexivity.
Qed.

Lemma X14_witness :
  world (fst (Gclstm.main Demo.gclstm_counting Demo.gclstm_train Demo.gclstm_val
                Demo.gclstm_counting_init))
  = (200, 200)%nat.
Proof.
  pose (X := Gclstm.main Demo.gclstm_counting Demo.gclstm_train Demo.gclstm_val
               Demo.gclstm_counting_init).
  assert (E : X = (fst X, inr tt))
    by (apply pair_of_snd; vm_compute; reflexivity).
  exact (proj1 (X14_gclstm_run_has_200_epochs Demo.gclstm_counting (fun w => w)
                  Demo.gclstm_train Demo.gclstm_val Demo.gclstm_counting_init
                  (fst X) _ (trace (fst X)) demo_gclstm_counts E
                  (eq_sym (app_nil_l (trace (fst X)))))).
Defined.

(** ** Empty evaluation splits *)

(** X15.  With no snapshot in [val_data['edge_index']], [min] of its
    keys raises [ValueError]: the first epoch of a run of either script
    trains, takes its optimizer step, loads the validation negatives,
    and the run ends there with that error, before any validation
    metric.  With no snapshot in [test_data['edge_index']] the
    EvolveGCN-O script fails in the same way, but only in the first
    epoch whose validation metric improves. *)
Theorem X15_empty_evaluation_split :
  (forall (C : Egcno.collaborators) a td vd ted s s1 h k,
      Egcno.ev_edge_index vd = [] ->
      Egcno.max_epoch a = S k ->
      Egcno.train_epoch C td (Egcno.num_nodes td + 1) s = (s1, inr h) ->
      exists s',
        Egcno.run C a td vd ted s = (s', inl ValueError) /\
        trace s' = trace s1 ++ [Egcno.EvLoadEvalSet C SplitVal])
  /\
  (forall (C : Egcno.collaborators) a ted epoch h v r s,
      Egcno.ev_edge_index ted = [] ->
      exists s',
        Egcno.after_validation C a ted epoch h v r s
        = (s', if gt_float v (Egcno.best_val r) then inl ValueError else inr (r, false)) /\
        Egcno.tests (trace s') = Egcno.tests (trace s))
  /\
  (forall (C : Gclstm.collaborators) td vd s s1 hc,
      Gclstm.ev_edge_index vd = [] ->
      Gclstm.train_epoch C td (Gclstm.num_nodes td + 1) s = (s1, inr hc) ->
      exists s',
        Gclstm.main C td vd s = (s', inl ValueError) /\
        trace s' = trace s1 ++ [Gclstm.EvLoadEvalSet C SplitVal]).
Proof.
  split; [| split].
  - intros C a td vd ted s s1 h k Hv Hk Ht.
    unfold Egcno.run, Egcno.epochs_loop. rewrite Hk. simpl seq. simpl for_each_break.
    unfold Egcno.epoch_body.
    eexists. split.
    + erewrite bind_raise; [reflexivity |].
      erewrite bind_raise; [reflexivity |].
      erewrite bind_eq; [| exact Ht].
      unfold Egcno.val_epoch. rewrite Hv. reflexivity.
    + reflexivity.
  - intros C a ted epoch h v r s Hted.
    unfold Egcno.after_validation, gt_float.
    destruct v as [| q].
    + exists s. auto.
    + destruct (Qgtb q (Egcno.best_val r)).
      * unfold Egcno.improved, Egcno.test_epoch. rewrite Hted.
        eexists. split; [reflexivity |]. simpl.
        unfold Egcno.tests. rewrite !flat_map_app. simpl. rewrite !app_nil_r.
        reflexivity.
      * exists s. auto.
  - intros C td vd s s1 hc Hv Ht. destruct hc as [[h c] total].
    unfold Gclstm.main, Gclstm.num_epochs. simpl seq. simpl for_each.
    unfold Gclstm.epoch_body.
    eexists. split.
    + erewrite bind_raise; [reflexivity |].
      erewrite bind_eq; [| exact Ht].
      unfold Gclstm.val_epoch. rewrite Hv. reflexivity.
    + reflexivity.
Qed.

Lemma X15_witness :
  exists s',
    Gclstm.main Demo.gclstm Demo.gclstm_train
      {| Gclstm.ev_edge_index := [];
         Gclstm.original_edges := [];
         Gclstm.ev_has_edge_attr := false |}
      Demo.gclstm_init
    = (s', inl ValueError).
Proof.
  pose (X := Gclstm.train_epoch Demo.gclstm Demo.gclstm_train
               (Gclstm.num_nodes Demo.gclstm_train + 1) Demo.gclstm_init).
  assert (E : X = (fst X, inr (Some (attached Demo.snap1), Some (attached tt),
                               (579993600000000000000 # 163840000000000000000)%Q)))
    by (apply pair_of_snd; vm_compute; reflexivity).
  destruct (proj2 (proj2 X15_empty_evaluation_split) Demo.gclstm Demo.gclstm_train
              {| Gclstm.ev_edge_index := [];
                 Gclstm.original_edges := [];
                 Gclstm.ev_has_edge_attr := false |}
              Demo.gclstm_init (fst X) _ eq_refl E) as [s' [Hm _]].
  exists s'. exact Hm.
Defined.

(** ** The decoder class *)

Section LinkPredictorLayers.

Import LinkPredictor.

Context {S Wt : Type}.

Variable init_parameters : nat -> nat -> M S Wt.

Hypothesis init_parameters_total : forall i o, succeeds (init_parameters i o).

Lemma new_Linear_total i o s :
  exists s' l,
    new_Linear init_parameters i o s = (s', inr l) /\
    in_features l = i /\ out_features l = o.
Proof.
  unfold new_Linear. destruct (init_parameters_total i o s) as [s' [w E]].
  exists s'. eexists. split; [erewrite bind_eq; [reflexivity | exact E] |].
  simpl. auto.
Qed.

Lemma hidden_layers_total {A} h (l : list A) : forall ls s,
  exists s' mids,
    for_each l (fun _ ls => l <- new_Linear init_parameters h h ;; ret (ls ++ [l])) ls s
    = (s', inr (ls ++ mids)) /\
    length mids = length l /\
    Forall (fun l => in_features l = h /\ out_features l = h) mids.
Proof.
  induction l as [| a l IH]; intros ls s; simpl.
  - exists s, []. rewrite app_nil_r. auto.
  - destruct (new_Linear_total h h s) as [s1 [l1 [E1 [I1 O1]]]].
    destruct (IH (ls ++ [l1]) s1) as [s' [mids [E [Hlen Hall]]]].
    exists s', (l1 :: mids). split; [| split].
    + erewrite bind_eq; [| erewrite bind_eq; [reflexivity | exact E1]].
      rewrite E, <- app_assoc. reflexivity.
    + simpl. rewrite Hlen. reflexivity.
    + constructor; auto.
Qed.

Lemma out_width_hidden h (mids : list (Linear Wt)) :
  Forall (fun l => in_features l = h /\ out_features l = h) mids ->
  forall rest, out_width h (mids ++ rest) = out_width h rest.
Proof.
  induction 1 as [| l mids [Hi Ho] _ IH]; intros rest; simpl; [reflexivity |].
  rewrite Hi, Nat.eqb_refl, Ho. apply IH.
Qed.

Lemma dims_hidden h (mids : list (Linear Wt)) :
  Forall (fun l => in_features l = h /\ out_features l = h) mids ->
  map (fun l => (in_features l, out_features l)) mids = repeat (h, h) (length mids).
Proof.
  induction 1 as [| l mids [Hi Ho] _ IH]; simpl; [reflexivity |].
  rewrite Hi, Ho, IH. reflexivity.
Qed.

End LinkPredictorLayers.

(** X16.  [LinkPredictor.__init__] builds, for every [num_layers], a
    first layer from [in_channels] to [hidden_channels],
    [num_layers - 2] layers from [hidden_channels] to itself (none when
    [num_layers] is 2 or less, so that 0, 1 and 2 all give two layers),
    and a last layer from [hidden_channels] to [out_channels]; each
    layer gives the width the next one expects, so the stack takes
    width [in_channels] to width [out_channels]; the module starts in
    training mode. *)
Theorem X16_link_predictor_layers :
  forall (S Wt : Type) (init_parameters : nat -> nat -> M S Wt)
         (i h o : nat) (num_layers : Z) (p : Q) (s : S),
    (forall a b, succeeds (init_parameters a b)) ->
    exists s' m,
      LinkPredictor.init init_parameters i h o num_layers p s = (s', inr m) /\
      map (fun l => (LinkPredictor.in_features l, LinkPredictor.out_features l))
          (LinkPredictor.lins m)
      = (i, h) :: repeat (h, h) (Z.to_nat (num_layers - 2)) ++ [(h, o)] /\
      (2 <= length (LinkPredictor.lins m))%nat /\
      ((2 <= num_layers)%Z -> Z.of_nat (length (LinkPredictor.lins m)) = num_layers) /\
      LinkPredictor.out_width i (LinkPredictor.lins m) = Some o /\
      LinkPredictor.dropout m = p /\
      LinkPredictor.training m = true.
Proof.
  intros S Wt init_parameters i h o num_layers p s Htot.
  unfold LinkPredictor.init.
  destruct (new_Linear_total init_parameters Htot i h s) as [s1 [l0 [E0 [I0 O0]]]].
  destruct (hidden_layers_total init_parameters Htot h
              (seq 0 (Z.to_nat (num_layers - 2))) ([] ++ [l0]) s1)
    as [s2 [mids [E1 [Hlen Hall]]]].
  destruct (new_Linear_total init_parameters Htot h o s2) as [s3 [ll [E2 [I2 O2]]]].
  rewrite length_seq in Hlen.
  exists s3. eexists. split.
  { erewrite bind_eq; [| exact E0]. erewrite bind_eq; [| exact E1].
    erewrite bind_eq; [| exact E2]. reflexivity. }
  simpl. split; [| split; [| split; [| split]]].
  - rewrite !map_app. simpl. rewrite I0, O0, I2, O2.
    rewrite (dims_hidden h mids Hall), Hlen. reflexivity.
  - rewrite !length_app. simpl. lia.
  - intros Hn. rewrite !length_app. simpl. lia.
  - rewrite I0, Nat.eqb_refl, O0.
    rewrite (out_width_hidden h mids Hall). simpl.
    rewrite I2, Nat.eqb_refl, O2. reflexivity.
  - auto.
Qed.

Lemma X16_witness :
  exists s' m,
    LinkPredictor.init (fun _ _ => ret tt : M unit unit) 256 256 1 2 (2 # 10) tt
    = (s', inr m) /\
    map (fun l => (LinkPredictor.in_features l, LinkPredictor.out_features l))
        (LinkPredictor.lins m)
    = [(256, 256); (256, 1)]%nat.
Proof.
  destruct (X16_link_predictor_layers unit unit (fun _ _ => ret tt) 256 256 1 2 (2 # 10) tt)
    as [s' [m [E [D _]]]].
  - intros a b s. exists s, tt. reflexivity.
  - exists s', m. split; [exact E | exact D].
Defined.

Section LinkPredictorForward.

Import LinkPredictor.

Context {S Wt T : Type}.

Variable mul : T -> T -> M S T.
Variable linear : Linear Wt -> T -> M S T.
Variable relu : T -> M S T.
Variable F_dropout : T -> Q -> bool -> M S T.
Variable sigmoid : T -> M S T.
Variable width : T -> nat.

Hypothesis contract : shape_contract S Wt T mul linear relu F_dropout sigmoid width.

Lemma out_width_app (front : list (Linear Wt)) : forall w rest w',
  out_width w (front ++ rest) = Some w' ->
  exists w1, out_width w front = Some w1 /\ out_width w1 rest = Some w'.
Proof.
  induction front as [| l front IH]; intros w rest w' H; simpl in *.
  - exists w. auto.
  - destruct (Nat.eqb (in_features l) w); [apply IH; exact H | discriminate].
Qed.

Lemma hidden_stack_width p t (front : list (Linear Wt)) : forall w w1 x s,
  (0 <= p <= 1)%Q ->
  out_width w front = Some w1 ->
  width x = w ->
  exists s' y,
    for_each front
      (fun lin x => x <- linear lin x ;; x <- relu x ;; F_dropout x p t) x s
    = (s', inr y) /\
    width y = w1.
Proof.
  induction front as [| l front IH]; intros w w1 x s Hp Hw Hx; simpl in *.
  - inversion Hw; subst. exists s, x. auto.
  - destruct (Nat.eqb_spec (in_features l) w) as [Hi | _]; [| discriminate].
    destruct (linear_width _ _ _ _ _ _ _ _ _ contract l x s) as [s1 [x1 [E1 W1]]];
      [congruence |].
    destruct (relu_width _ _ _ _ _ _ _ _ _ contract x1 s1) as [s2 [x2 [E2 W2]]].
    destruct (dropout_width _ _ _ _ _ _ _ _ _ contract x2 p t s2 Hp) as [s3 [x3 [E3 W3]]].
    destruct (IH (out_features l) w1 x3 s3 Hp Hw) as [s' [y [E W]]]; [congruence |].
    exists s', y. split; [| exact W].
    erewrite bind_eq; [exact E |].
    erewrite bind_eq; [| exact E1]. erewrite bind_eq; [| exact E2]. exact E3.
Qed.

End LinkPredictorForward.

(** X17.  Given a tensor library that respects widths, [forward] of a
    decoder whose layers chain from width [w] to width [w'], with a
    dropout probability between 0 and 1, returns for two inputs of
    width [w] a tensor of width [w']: all the layers but the last are
    applied in order, each followed by [relu] and [dropout], then the
    last one and [sigmoid], and none is given a width it does not
    expect. *)
Theorem X17_link_predictor_forward_width :
  forall (S Wt T : Type) (mul : T -> T -> M S T)
         (linear : LinkPredictor.Linear Wt -> T -> M S T) (relu : T -> M S T)
         (F_dropout : T -> Q -> bool -> M S T) (sigmoid : T -> M S T)
         (width : T -> nat) (self : LinkPredictor.module Wt) (x_i x_j : T)
         (w w' : nat) (s : S),
    LinkPredictor.shape_contract S Wt T mul linear relu F_dropout sigmoid width ->
    LinkPredictor.lins self <> [] ->
    LinkPredictor.out_width w (LinkPredictor.lins self) = Some w' ->
    (0 <= LinkPredictor.dropout self <= 1)%Q ->
    width x_i = w ->
    width x_j = w ->
    exists s' y,
      LinkPredictor.forward mul linear relu F_dropout sigmoid self x_i x_j s
      = (s', inr y) /\
      width y = w'.
Proof.
  intros S Wt T mul linear relu F_dropout sigmoid width self x_i x_j w w' s
         contract Hne Hw Hp Hi Hj.
  destruct (exists_last Hne) as [front [ll Hl]].
  unfold LinkPredictor.forward. rewrite Hl in *. rewrite removelast_last.
  apply out_width_app in Hw. destruct Hw as [w1 [Hf Hlast]].
  simpl in Hlast.
  destruct (Nat.eqb_spec (LinkPredictor.in_features ll) w1) as [Hin | _]; [| discriminate].
  inversion Hlast as [Hout]. clear Hlast.
  destruct (LinkPredictor.mul_width _ _ _ _ _ _ _ _ _ contract x_i x_j s)
    as [s1 [x1 [E1 W1]]]; [congruence |].
  destruct (hidden_stack_width mul linear relu F_dropout sigmoid width contract
              (LinkPredictor.dropout self) (LinkPredictor.training self)
              front w w1 x1 s1 Hp Hf) as [s2 [x2 [E2 W2]]]; [congruence |].
  destruct (LinkPredictor.linear_width _ _ _ _ _ _ _ _ _ contract ll x2 s2)
    as [s3 [x3 [E3 W3]]]; [congruence |].
  destruct (LinkPredictor.sigmoid_width _ _ _ _ _ _ _ _ _ contract x3 s3)
    as [s4 [x4 [E4 W4]]].
  exists s4, x4. split; [| congruence].
  erewrite bind_eq; [| exact E1]. erewrite bind_eq; [| exact E2].
  erewrite bind_eq.
  - erewrite bind_eq; [exact E4 | exact E3].
  - unfold getitem. rewrite length_app. simpl.
    replace (length front + 1 - 1)%nat with (length front) by lia.
    rewrite nth_error_app2 by lia. rewrite Nat.sub_diag. reflexivity.
Qed.

Lemma demo_width_contract :
  LinkPredictor.shape_contract unit unit nat Demo.width_mul Demo.width_linear
    (fun x => ret x) Demo.width_dropout (fun x => ret x) (fun x => x).
Proof.
  constructor.
  - intros x y s H. exists s, x. unfold Demo.width_mul.
    rewrite H, Nat.eqb_refl. auto.
  - intros l x s H. exists s, (LinkPredictor.out_features l).
    unfold Demo.width_linear. rewrite H, Nat.eqb_refl. auto.
  - intros x s. exists s, x. auto.
  - intros x p t s [H0 H1]. exists s, x. unfold Demo.width_dropout.
    apply Qle_bool_iff in H0. apply Qle_bool_iff in H1. rewrite H0, H1. auto.
  - intros x s. exists s, x. auto.
Qed.

Lemma X17_witness :
  exists s' y,
    LinkPredictor.forward Demo.width_mul Demo.width_linear (fun x => ret x)
      Demo.width_dropout (fun x => ret x) Demo.decoder 4%nat 4%nat tt
    = (s', inr y) /\
    y = 1%nat.
Proof.
  apply (X17_link_predictor_forward_width unit unit nat Demo.width_mul
           Demo.width_linear (fun x => ret x) Demo.width_dropout (fun x => ret x)
           (fun x => x) Demo.decoder 4%nat 4%nat 4%nat 1%nat tt demo_width_contract).
  - discriminate.
  - reflexivity.
  - split; discriminate.
  - reflexivity.
  - reflexivity.
Defined.
